(** * FileFocus: the Group entity, the GroupManager registry and the
      StateStorage persistence protocol

    A shallow embedding of [Group.ts], [GroupManager.ts] and
    [storage/StateStorage.ts].  Group objects are mutable and aliased (a
    parent holds its children, every child points back at its parent, the
    manager's maps point at the same objects), so the objects live in an
    explicit store and every method passes that store along. *)

From Stdlib Require Import ZArith NArith Ascii Lia.
From stdpp Require Import gmap strings list fin_maps.

Set Warnings "-register-all,-clear-no-such-hyp".

Open Scope Z_scope.
Open Scope nat_scope.

(* ===================================================================== *)
(** * Host interfaces that are used but not defined by the repository      *)
(* ===================================================================== *)

(** [vscode.Uri].  An element of [Uri] stands for one Uri object; Leibniz
    equality on the type is the [===] of the source (object identity).
    [fsPath] and [toString] are the two views the Group class compares. *)
Class VscodeUri (Uri : Type) := {
  Uri_eq_dec :: EqDecision Uri;
  fsPath : Uri → string;
  toString : Uri → string;
}.

(** [FocusUtil.uriToResource], [FocusUtil.resourceToUri] and [Uri.parse];
    [Resource] is the structured descriptor that is written to storage. *)
Class FocusUtil (Uri Resource : Type) := {
  uriToResource : Uri → Resource;
  resourceToUri : Resource → option Uri;
  Uri_parse : string → Uri;
}.

(** [uuidv5(name, namespace)] of the uuid package. *)
Class Uuid := { uuidv5 : string → string → string }.

(* ===================================================================== *)
(** * JavaScript array primitives                                          *)
(* ===================================================================== *)

(** [Array.prototype.findIndex]: the first index whose element satisfies
    the predicate, [-1] when there is none. *)
Definition findIndex {A} (P : A → Prop) `{∀ x, Decision (P x)} (l : list A) : Z :=
  match list_find P l with
  | Some (i, _) => Z.of_nat i
  | None => (-1)%Z
  end.

(** [Array.prototype.indexOf]: [findIndex] with strict equality. *)
Definition indexOf {A} `{EqDecision A} (x : A) (l : list A) : Z :=
  findIndex (λ y, y = x) l.

(** [arr.splice(i, 1)] for an index [0 <= i]. *)
Definition splice1 {A} (i : Z) (l : list A) : list A := delete (Z.to_nat i) l.

(** [arr[i] = v].  A negative [i] is not an array index: the assignment
    creates the property ["-1"] on the array object and leaves its elements
    and its length alone.  The only caller takes [i] from [indexOf], so
    [i] never reaches the length of the array. *)
Definition array_set {A} (i : Z) (v : A) (l : list A) : list A :=
  if bool_decide (i < 0)%Z then l else <[Z.to_nat i := v]> l.

(* ===================================================================== *)
(** * Group.ts                                                             *)
(* ===================================================================== *)

(** A reference to a Group object. *)
Abbreviation ref := nat.

Record Group {Uri : Type} := mkGroup {
  id : string;
  name : string;
  readonly : bool;
  parentGroup : option ref;
  _resource : list Uri;
  _childGroups : list ref;
}.
Arguments Group : clear implicits.
Arguments mkGroup {Uri} _ _ _ _ _ _.

(** The store of Group objects; [new Group(..)] appends. *)
Abbreviation Heap Uri := (list (Group Uri)).

(** [new Group(id)]: the field initialisers of the class. *)
Definition new_Group {Uri} (i : string) : Group Uri :=
  mkGroup i "" false None [] [].

#[global] Instance Group_inhabited {Uri} : Inhabited (Group Uri) :=
  populate (new_Group "").

Definition set_name {Uri} (n : string) (g : Group Uri) : Group Uri :=
  mkGroup (id g) n (readonly g) (parentGroup g) (_resource g) (_childGroups g).
Definition set_readonly {Uri} (b : bool) (g : Group Uri) : Group Uri :=
  mkGroup (id g) (name g) b (parentGroup g) (_resource g) (_childGroups g).
Definition set_parentGroup {Uri} (p : option ref) (g : Group Uri) : Group Uri :=
  mkGroup (id g) (name g) (readonly g) p (_resource g) (_childGroups g).
Definition set_resource {Uri} (f : list Uri → list Uri) (g : Group Uri) : Group Uri :=
  mkGroup (id g) (name g) (readonly g) (parentGroup g) (f (_resource g)) (_childGroups g).
Definition set_childGroups {Uri} (f : list ref → list ref) (g : Group Uri) : Group Uri :=
  mkGroup (id g) (name g) (readonly g) (parentGroup g) (_resource g) (f (_childGroups g)).

Section GroupMethods.
Context {Uri : Type} `{!VscodeUri Uri}.
Implicit Types (h : Heap Uri) (this childGroup group : ref) (uri from to : Uri).

(** The getters [resources] and [childGroups]. *)
Definition resources h this : list Uri := _resource (h !!! this).
Definition childGroups h this : list ref := _childGroups (h !!! this).

(** [get isRootGroup]. *)
Definition isRootGroup h this : bool :=
  bool_decide (parentGroup (h !!! this) = None).

Definition _resourceContains h this uri : bool :=
  bool_decide (Exists (λ value, fsPath value = fsPath uri) (resources h this)).

Definition _childGroupContains h this group : bool :=
  bool_decide (Exists (λ value, id (h !!! value) = id (h !!! group)) (childGroups h this)).

Definition addResource this uri h : Heap Uri :=
  if _resourceContains h this uri then h
  else alter (set_resource (λ l, l ++ [uri])) this h.

Definition removeResource this uri h : Heap Uri :=
  let i := findIndex (λ item, toString item = toString uri) (resources h this) in
  if bool_decide (i < 0)%Z then h
  else alter (set_resource (splice1 i)) this h.

Definition removeChildGroup this childGroup h : Heap Uri :=
  let i := findIndex (λ item, id (h !!! item) = id (h !!! childGroup))
                     (childGroups h this) in
  if bool_decide (i < 0)%Z then h
  else
    let h1 := alter (set_childGroups (splice1 i)) this h in
    alter (set_parentGroup None) childGroup h1.

Definition addChildGroup this childGroup h : Heap Uri :=
  if _childGroupContains h this childGroup then h
  else
    (* Remove from previous parent if it has one *)
    let h1 := match parentGroup (h !!! childGroup) with
              | Some p => removeChildGroup p childGroup h
              | None => h
              end in
    let h2 := alter (set_childGroups (λ l, l ++ [childGroup])) this h1 in
    alter (set_parentGroup (Some this)) childGroup h2.

Definition removeChildGroupById this (childGroupId : string) h : Heap Uri :=
  let i := findIndex (λ item, id (h !!! item) = childGroupId) (childGroups h this) in
  if bool_decide (i < 0)%Z then h
  else
    let childGroup := childGroups h this !!! Z.to_nat i in
    let h1 := alter (set_childGroups (splice1 i)) this h in
    alter (set_parentGroup None) childGroup h1.

(** [getAllChildGroups] recurses through the object graph; the fuel bounds
    the depth of the recursion and [None] is a run that did not return
    within it. *)
Fixpoint getAllChildGroups (fuel : nat) h this : option (list ref) :=
  match fuel with
  | 0 => None
  | S n =>
      foldl (λ acc childGroup,
               allChildren ← acc;
               sub ← getAllChildGroups n h childGroup;
               Some (allChildren ++ childGroup :: sub))
            (Some []) (childGroups h this)
  end.

Definition clearChildGroups this h : Heap Uri :=
  let h1 := foldl (λ h' childGroup, alter (set_parentGroup None) childGroup h')
                  h (childGroups h this) in
  alter (set_childGroups (λ _, [])) this h1.

Definition replaceResource this from to h : Heap Uri :=
  let i := indexOf from (resources h this) in
  alter (set_resource (array_set i to)) this h.

End GroupMethods.

(* ===================================================================== *)
(** * JavaScript [Map] with string keys, in insertion order                *)
(* ===================================================================== *)

Abbreviation JsMap V := (list (string * V)).

Definition jsmap_get {V} (k : string) (m : JsMap V) : option V :=
  snd <$> (snd <$> list_find (λ e, e.1 = k) m).

(** [Map.prototype.set]: an existing key keeps its position. *)
Fixpoint jsmap_set {V} (k : string) (v : V) (m : JsMap V) : JsMap V :=
  match m with
  | [] => [(k, v)]
  | (k', v') :: m' =>
      if decide (k' = k) then (k, v) :: m' else (k', v') :: jsmap_set k v m'
  end.

Definition jsmap_delete {V} (k : string) (m : JsMap V) : JsMap V :=
  filter (λ e, e.1 ≠ k) m.

(* ===================================================================== *)
(** * GroupManager.ts                                                      *)
(* ===================================================================== *)

Definition namespace : string := "cc51e20a-7c32-434c-971f-5b3ea332deaa".

Definition makeGroupId `{!Uuid} (name : string) : string := uuidv5 name namespace.

(** The part of [FileFocusStorageProvider] the manager reads: the [id] of
    the provider and the answer of [loadRootNodes], which builds Group
    objects in the store and returns the root ones. *)
Record FileFocusStorageProvider {Uri : Type} := mkProvider {
  provider_id : string;
  loadRootNodes : Heap Uri → Heap Uri * list ref;
}.
Arguments FileFocusStorageProvider : clear implicits.
Arguments mkProvider {Uri} _ _.

(** The calls the manager issues on a provider for their effect on the
    persisted state; the manager records them in order. *)
Inductive ProviderCall :=
| Call_saveGroup (provider : string) (group : ref)
| Call_deleteGroupId (provider : string) (groupId : string).

#[global] Instance ProviderCall_eq_dec : EqDecision ProviderCall.
Proof. solve_decision. Defined.

Record GroupManager {Uri : Type} := mkGroupManager {
  heap : Heap Uri;
  root : gmap string ref;
  rootGroups : gmap string ref;
  storageMap : gmap string string;
  _pinnedGroupId : string;
  _storageProvider : JsMap (FileFocusStorageProvider Uri);
  calls : list ProviderCall;
}.
Arguments GroupManager : clear implicits.
Arguments mkGroupManager {Uri} _ _ _ _ _ _ _.

Section GroupManagerMethods.
Context {Uri : Type} `{!VscodeUri Uri} `{!Uuid}.
Implicit Types (m : GroupManager Uri) (group : ref).

Definition with_heap (f : Heap Uri → Heap Uri) m : GroupManager Uri :=
  mkGroupManager (f (heap m)) (root m) (rootGroups m) (storageMap m)
                 (_pinnedGroupId m) (_storageProvider m) (calls m).
Definition with_root (f : gmap string ref → gmap string ref) m : GroupManager Uri :=
  mkGroupManager (heap m) (f (root m)) (rootGroups m) (storageMap m)
                 (_pinnedGroupId m) (_storageProvider m) (calls m).
Definition with_rootGroups (f : gmap string ref → gmap string ref) m : GroupManager Uri :=
  mkGroupManager (heap m) (root m) (f (rootGroups m)) (storageMap m)
                 (_pinnedGroupId m) (_storageProvider m) (calls m).
Definition with_storageMap (f : gmap string string → gmap string string) m
  : GroupManager Uri :=
  mkGroupManager (heap m) (root m) (rootGroups m) (f (storageMap m))
                 (_pinnedGroupId m) (_storageProvider m) (calls m).
Definition with_storageProvider
  (f : JsMap (FileFocusStorageProvider Uri) → JsMap (FileFocusStorageProvider Uri)) m
  : GroupManager Uri :=
  mkGroupManager (heap m) (root m) (rootGroups m) (storageMap m)
                 (_pinnedGroupId m) (f (_storageProvider m)) (calls m).
Definition issue (c : ProviderCall) m : GroupManager Uri :=
  mkGroupManager (heap m) (root m) (rootGroups m) (storageMap m)
                 (_pinnedGroupId m) (_storageProvider m) (calls m ++ [c]).

(** [new GroupManager()]. *)
Definition new_GroupManager : GroupManager Uri :=
  mkGroupManager [] ∅ ∅ ∅ "" [] [].

Definition addStorageProvider (storageProvider : FileFocusStorageProvider Uri) m :=
  with_storageProvider (jsmap_set (provider_id storageProvider) storageProvider) m.

Definition removeStorageProvider (storageProviderId : string) m :=
  with_storageProvider (jsmap_delete storageProviderId) m.

(** [this._storageProvider.get(this.storageMap.get(id) ?? "")]. *)
Definition providerFor m (groupId : string) : option (FileFocusStorageProvider Uri) :=
  jsmap_get (default "" (storageMap m !! groupId)) (_storageProvider m).

(** [provider.deleteGroupId(id)] behind [if (provider)]. *)
Definition deleteGroupId_if (provider : option (FileFocusStorageProvider Uri))
  (groupId : string) m : GroupManager Uri :=
  match provider with
  | Some p => issue (Call_deleteGroupId (provider_id p) groupId) m
  | None => m
  end.

Definition saveGroup group m : GroupManager Uri :=
  match providerFor m (id (heap m !!! group)) with
  | Some provider => issue (Call_saveGroup (provider_id provider) group) m
  | None => m
  end.

Fixpoint addGroupToMemory (fuel : nat) group (storageProviderId : string) m
  : option (GroupManager Uri) :=
  match fuel with
  | 0 => None
  | S n =>
      let gid := id (heap m !!! group) in
      let m1 := with_root <[gid := group]> m in
      let m2 := with_storageMap <[gid := storageProviderId]> m1 in
      let m3 := if isRootGroup (heap m2) group
                then with_rootGroups <[gid := group]> m2 else m2 in
      foldl (λ acc childGroup,
               m' ← acc; addGroupToMemory n childGroup storageProviderId m')
            (Some m3) (childGroups (heap m3) group)
  end.

(** [await provider.loadRootNodes()] followed by the loop that merges the
    returned groups. *)
Definition mergeProvider (fuel : nat) (provider : FileFocusStorageProvider Uri) m
  : option (GroupManager Uri) :=
  let '(h', groups) := loadRootNodes provider (heap m) in
  foldl (λ acc group, m' ← acc; addGroupToMemory fuel group (provider_id provider) m')
        (Some (with_heap (λ _, h') m)) groups.

Definition loadAll (fuel : nat) m : option (GroupManager Uri) :=
  let m0 := with_rootGroups (λ _, ∅) (with_root (λ _, ∅) m) in
  foldl (λ acc storageProvider, m' ← acc; mergeProvider fuel storageProvider.2 m')
        (Some m0) (_storageProvider m).


(** The truthiness test [if (s)] on an optional string: [undefined],
    [null] and the empty string are falsy. *)
Definition truthy (s : option string) : bool :=
  match s with
  | Some s => bool_decide (s ≠ "")
  | None => false
  end.

Definition addGroup group (storageProviderId : string) (parentGroupId : option string) m
  : GroupManager Uri :=
  let gid := id (heap m !!! group) in
  let m1 :=
    if truthy parentGroupId then
      match root m !! default "" parentGroupId with
      | Some parentGroup => with_heap (addChildGroup parentGroup group) m
      | None => m
      end
    else with_rootGroups <[gid := group]> m in
  (* Always add to the main lookup map *)
  let m2 := with_root <[gid := group]> m1 in
  let m3 := with_storageMap <[gid := storageProviderId]> m2 in
  saveGroup group m3.

Definition removeGroup (fuel : nat) (gid : string) m : option (GroupManager Uri) :=
  match root m !! gid with
  | None => Some m
  | Some group =>
      let provider := providerFor m gid in
      let m1 := match parentGroup (heap m !!! group) with
                | Some p => with_heap (removeChildGroup p group) m
                | None => with_rootGroups (delete gid) m
                end in
      allChildGroups ← getAllChildGroups fuel (heap m1) group;
      let m2 := foldl (λ m' childGroup,
                         let cid := id (heap m' !!! childGroup) in
                         deleteGroupId_if provider cid
                           (with_storageMap (delete cid) (with_root (delete cid) m')))
                      m1 allChildGroups in
      Some (deleteGroupId_if provider gid
              (with_storageMap (delete gid) (with_root (delete gid) m2)))
  end.

Definition renameGroup (gid : string) (name : string) m : GroupManager Uri :=
  match providerFor m gid, root m !! gid with
  | Some provider, Some src =>
      let newGroupId := makeGroupId name in
      let dst := length (heap m) in
      let h0 := heap m ++ [new_Group newGroupId] in
      let h1 := alter (set_name name) dst h0 in
      let h2 := alter (set_readonly (readonly (h1 !!! src))) dst h1 in
      (* Copy all direct resources *)
      let h3 := foldl (λ h uri, addResource dst uri h) h2 (resources h2 src) in
      (* Copy all child groups *)
      let h4 := foldl (λ h childGroup, addChildGroup dst childGroup h) h3
                      (childGroups h3 src) in
      let parentGroup := parentGroup (h4 !!! src) in
      let m1 := with_storageMap (delete gid) (with_root (delete gid)
                  (with_heap (λ _, h4) m)) in
      let m2 := if isRootGroup (heap m1) src
                then with_rootGroups (delete gid) m1 else m1 in
      let m3 := match parentGroup with
                | Some p => with_heap (removeChildGroup p src) m2
                | None => m2
                end in
      let m4 := with_storageMap <[newGroupId := provider_id provider]>
                  (with_root <[newGroupId := dst]> m3) in
      let m5 := match parentGroup with
                | Some p => with_heap (addChildGroup p dst) m4
                | None => with_rootGroups <[newGroupId := dst]> m4
                end in
      saveGroup dst (issue (Call_deleteGroupId (provider_id provider) gid) m5)
  | _, _ => m
  end.

Definition moveGroup (groupId : string) (newParentId : option string) m
  : bool * GroupManager Uri :=
  match root m !! groupId with
  | None => (false, m)
  | Some group =>
      (* Remove from current parent *)
      let m1 := match parentGroup (heap m !!! group) with
                | Some p => with_heap (removeChildGroup p group) m
                | None => with_rootGroups (delete groupId) m
                end in
      (* Add to new parent *)
      let attached :=
        if truthy newParentId then
          match root m1 !! default "" newParentId with
          | None => None
          | Some newParent => Some (with_heap (addChildGroup newParent group) m1)
          end
        else
          Some (with_heap (alter (set_parentGroup None) group)
                  (with_rootGroups <[groupId := group]> m1)) in
      match attached with
      | None => (false, m1)
      | Some m2 =>
          (* Save the affected groups *)
          let m3 := saveGroup group m2 in
          let m4 := if truthy newParentId then
                      match root m3 !! default "" newParentId with
                      | Some newParent => saveGroup newParent m3
                      | None => m3
                      end
                    else m3 in
          (true, m4)
      end
  end.

Definition findGroup (groupId : string) m : option ref := root m !! groupId.

End GroupManagerMethods.

(* ===================================================================== *)
(** * JavaScript objects used as string-keyed dictionaries                 *)
(* ===================================================================== *)

(** An object is listed in the order in which its own keys are
    enumerated: first the keys that are array indices, in ascending numeric
    order, then the other string keys in insertion order. *)
Abbreviation JsObject V := (list (string * V)).

Fixpoint decimal (s : string) (acc : N) : option N :=
  match s with
  | EmptyString => Some acc
  | String c s' =>
      let n := N_of_ascii c in
      if bool_decide (48 ≤ n ∧ n ≤ 57)%N
      then decimal s' (acc * 10 + (n - 48))%N else None
  end.

(** The canonical numeric strings below [2^32 - 1]. *)
Definition array_index (s : string) : option N :=
  match s with
  | EmptyString => None
  | String c s' =>
      if bool_decide (c = "0"%char ∧ s' ≠ EmptyString) then None
      else n ← decimal s 0; if bool_decide (n < 4294967295)%N then Some n else None
  end.

Fixpoint insert_index {V} (n : N) (e : string * V) (l : list (N * (string * V)))
  : list (N * (string * V)) :=
  match l with
  | [] => [(n, e)]
  | (n', e') :: l' =>
      if bool_decide (n < n')%N then (n, e) :: l else (n', e') :: insert_index n e l'
  end.

Definition own_key_order {V} (es : list (string * V)) : list (string * V) :=
  let indexed := omap (λ e, n ← array_index e.1; Some (n, e)) es in
  let named := filter (λ e, array_index e.1 = None) es in
  (foldr (λ ne acc, insert_index ne.1 ne.2 acc) [] indexed).*2 ++ named.

(** [new Map(entries)]. *)
Definition new_Map {V} (entries : list (string * V)) : JsMap V :=
  foldl (λ m e, jsmap_set e.1 e.2 m) [] entries.

Definition Object_entries {V} (o : JsObject V) : list (string * V) := o.

(** [Object.fromEntries] applied to the entries of a [Map]. *)
Definition Object_fromEntries {V} (entries : JsMap V) : JsObject V :=
  own_key_order entries.

(* ===================================================================== *)
(** * storage/StateStorage.ts                                              *)
(* ===================================================================== *)

Inductive GroupRecord {Resource : Type} := mkGroupRecord {
  rec_id : string;
  rec_name : string;
  rec_resources : list Resource;
  rec_childGroups : option (list GroupRecord);
  rec_parentId : option string;
}.
Arguments GroupRecord : clear implicits.
Arguments mkGroupRecord {Resource} _ _ _ _ _.

Abbreviation GroupStore Resource := (JsObject (GroupRecord Resource)).

Record DeprecateGroupRecord := mkDeprecateGroupRecord {
  dep_id : string;
  dep_label : string;
}.

Abbreviation DeprecateGroupStore := (JsObject DeprecateGroupRecord).

(** Modelled from the spec: the class [StorageService] (storage/StorageService.ts)
    is not part of the sources at hand.  It is the keyed store of the
    persisted layout: one ["groupmap"] entry, one ["storeversion"] integer
    marker, the deprecated ["groupstore"] mapping and the per-group
    ["A-<id>"] path lists.  A stored value is one of these four shapes. *)
Inductive StoredValue {Resource : Type} :=
| VNumber (n : Z)
| VGroupStore (s : GroupStore Resource)
| VDeprecateGroupStore (s : DeprecateGroupStore)
| VPaths (paths : list string).
Arguments StoredValue : clear implicits.

(** Modelled from the spec: the state of a [StorageService]. *)
Abbreviation StorageService Resource := (gmap string (StoredValue Resource)).

Section StateStorageModel.
Context {Uri Resource : Type} `{!VscodeUri Uri} `{!FocusUtil Uri Resource}.
Implicit Types (st : StorageService Resource).

(** Modelled from the spec: [StorageService.getValue<T>(key, defaultValue)],
    one reader per type [T] at which StateStorage calls it; the default is
    returned when the key holds no value of that shape. *)
Definition getValue_number st (key : string) (dflt : Z) : Z :=
  match st !! key with Some (VNumber n) => n | _ => dflt end.
Definition getValue_GroupStore st (key : string) (dflt : GroupStore Resource)
  : GroupStore Resource :=
  match st !! key with Some (VGroupStore s) => s | _ => dflt end.
Definition getValue_DeprecateGroupStore st (key : string)
  (dflt : DeprecateGroupStore) : DeprecateGroupStore :=
  match st !! key with Some (VDeprecateGroupStore s) => s | _ => dflt end.
Definition getValue_paths st (key : string) (dflt : list string)
  : list string :=
  match st !! key with Some (VPaths l) => l | _ => dflt end.

(** Modelled from the spec: [StorageService.setValue] and
    [StorageService.deleteValue]. *)
Definition setValue (key : string) (v : StoredValue Resource) st
  : StorageService Resource := <[key := v]> st.
Definition deleteValue (key : string) st : StorageService Resource :=
  delete key st.

(** The key [`A-${id}`] of a legacy path list. *)
Definition legacy_key (i : string) : string := "A-" +:+ i.

Definition migrateStorageV1 st : StorageService Resource :=
  let storeversion := getValue_number st "storeversion" 0 in
  if bool_decide (storeversion > 0)%Z then st
  else
    let dstStore := getValue_GroupStore st "groupmap" [] in
    let dstMap := new_Map (Object_entries dstStore) in
    let srcStore := getValue_DeprecateGroupStore st "groupstore" [] in
    let srcMap := new_Map (Object_entries srcStore) in
    let dstMap' :=
      foldl (λ dstMap e,
               let srcRecord := e.2 in
               let paths := getValue_paths st (legacy_key (dep_id srcRecord)) [] in
               let groupRecord :=
                 mkGroupRecord (dep_id srcRecord) (dep_label srcRecord)
                   (map (λ path, uriToResource (Uri_parse path)) paths) None None in
               jsmap_set (rec_id groupRecord) groupRecord dstMap)
            dstMap srcMap in
    let st1 := setValue "groupmap" (VGroupStore (Object_fromEntries dstMap')) st in
    (* Now delete old values. *)
    let st2 := foldl (λ st' e, deleteValue (legacy_key (dep_id e.2)) st') st1 srcMap in
    let st3 := deleteValue "groupstore" st2 in
    setValue "storeversion" (VNumber 1) st3.

(** [createGroupFromRecord]: a new Group object with the name and the
    resources of the record; the reference of the new object is returned.
    A stored name is a string, so the [typeof] test keeps it. *)
Definition createGroupFromRecord (groupRecord : GroupRecord Resource) (h : Heap Uri)
  : Heap Uri * ref :=
  let group := length h in
  let h0 := h ++ [new_Group (rec_id groupRecord)] in
  let h1 := alter (set_name (rec_name groupRecord)) group h0 in
  let h2 := foldl (λ h' resource,
                     match resourceToUri resource with
                     | Some uri => addResource group uri h'
                     | None => h'
                     end) h1 (rec_resources groupRecord) in
  (h2, group).

Definition loadRootNodes_pass1 (storeMap : JsMap (GroupRecord Resource)) (h : Heap Uri)
  : Heap Uri * gmap string ref :=
  foldl (λ acc e,
           let '(h', group) := createGroupFromRecord e.2 acc.1 in
           (h', <[id (h' !!! group) := group]> acc.2))
        (h, ∅) storeMap.

Definition attachChildren (allGroups : gmap string ref) (group : ref)
  (childRecords : list (GroupRecord Resource)) (h : Heap Uri) : Heap Uri :=
  foldl (λ h' childRecord,
           match allGroups !! rec_id childRecord with
           | Some childGroup => addChildGroup group childGroup h'
           | None => h'
           end) h childRecords.

Definition loadRootNodes_pass2 (allGroups : gmap string ref)
  (storeMap : JsMap (GroupRecord Resource)) (h : Heap Uri) : Heap Uri * list ref :=
  foldl (λ acc e,
           match allGroups !! e.1 with
           | None => acc
           | Some group =>
               let h' := match rec_childGroups e.2 with
                         | Some childRecords =>
                             attachChildren allGroups group childRecords acc.1
                         | None => acc.1
                         end in
               (h', if truthy (rec_parentId e.2) then acc.2 else acc.2 ++ [group])
           end)
        (h, []) storeMap.

(** [StateStorage.loadRootNodes]: the storage after the migration step,
    the store of Group objects after both passes, and the returned roots. *)
Definition StateStorage_loadRootNodes st (h : Heap Uri)
  : StorageService Resource * Heap Uri * list ref :=
  let st1 := migrateStorageV1 st in
  let groupStore := getValue_GroupStore st1 "groupmap" [] in
  let storeMap := new_Map (Object_entries groupStore) in
  let '(h1, allGroups) := loadRootNodes_pass1 storeMap h in
  let '(h2, groups) := loadRootNodes_pass2 allGroups storeMap h1 in
  (st1, h2, groups).

(** [createGroupRecord] recurses through the Group objects; [None] is a
    run that did not return within the depth given by the fuel. *)
Fixpoint createGroupRecord (fuel : nat) (h : Heap Uri) (group : ref)
  : option (GroupRecord Resource) :=
  match fuel with
  | 0 => None
  | S n =>
      childGroupRecords ←
        foldl (λ acc childGroup,
                 records ← acc;
                 r ← createGroupRecord n h childGroup;
                 Some (records ++ [r]))
              (Some []) (childGroups h group);
      Some (mkGroupRecord
              (id (h !!! group))
              (name (h !!! group))
              (uriToResource <$> resources h group)
              (if bool_decide (0 < length childGroupRecords)
               then Some childGroupRecords else None)
              (match parentGroup (h !!! group) with
               | Some p => Some (id (h !!! p))
               | None => None
               end))
  end.

Fixpoint saveGroupRecordRecursive (storeMap : JsMap (GroupRecord Resource))
  (groupRecord : GroupRecord Resource) {struct groupRecord} : JsMap (GroupRecord Resource) :=
  let storeMap1 := jsmap_set (rec_id groupRecord) groupRecord storeMap in
  match rec_childGroups groupRecord with
  | Some childRecords =>
      foldl (λ sm childRecord, saveGroupRecordRecursive sm childRecord)
            storeMap1 childRecords
  | None => storeMap1
  end.

Definition StateStorage_saveGroup (fuel : nat) (h : Heap Uri) (group : ref)
  st : option (StorageService Resource) :=
  groupRecord ← createGroupRecord fuel h group;
  let groupStore := getValue_GroupStore st "groupmap" [] in
  let storeMap := new_Map (Object_entries groupStore) in
  (* Save the group and all its descendants *)
  let storeMap' := saveGroupRecordRecursive storeMap groupRecord in
  Some (setValue "groupmap" (VGroupStore (Object_fromEntries storeMap')) st).

End StateStorageModel.

(* ===================================================================== *)
(** * A small concrete host, for running the definitions                   *)
(* ===================================================================== *)

(** A Uri given by its string form and its file-system path. *)
Record SampleUri := mkSampleUri {
  sample_string : string;
  sample_fsPath : string;
}.

#[global] Instance SampleUri_eq_dec : EqDecision SampleUri.
Proof. solve_decision. Defined.

#[global] Instance SampleUri_VscodeUri : VscodeUri SampleUri := {
  fsPath := sample_fsPath;
  toString := sample_string;
}.

(** A resource descriptor keeps both views of the Uri; every string
    parses to a Uri whose path is the string. *)
#[global] Instance SampleUri_FocusUtil : FocusUtil SampleUri (string * string) := {
  uriToResource u := (sample_string u, sample_fsPath u);
  resourceToUri r := Some (mkSampleUri r.1 r.2);
  Uri_parse s := mkSampleUri s s;
}.

(** Ids that spell out the name they are derived from. *)
Definition SampleUuid : Uuid := {| uuidv5 n ns := ns +:+ "/" +:+ n |}.

Definition file_a : SampleUri := mkSampleUri "file:///w/a.ts" "/w/a.ts".
Definition file_a_query : SampleUri := mkSampleUri "file:///w/a.ts?x" "/w/a.ts".
Definition file_b : SampleUri := mkSampleUri "file:///w/b.ts" "/w/b.ts".
Definition file_c : SampleUri := mkSampleUri "file:///w/c.ts" "/w/c.ts".

(* ===================================================================== *)
(** * Facts about the array primitives                                     *)
(* ===================================================================== *)

Section ArrayFacts.
Context {A : Type}.
Implicit Types (l : list A).

Lemma findIndex_neg (P : A → Prop) `{!∀ x, Decision (P x)} l :
  (findIndex P l < 0)%Z ↔ Forall (λ x, ¬ P x) l.
Proof.
  unfold findIndex. destruct (list_find P l) as [[i x]|] eqn:E.
  - split; [lia|]. intros Hall. pose proof (proj2 (list_find_None P l) Hall). congruence.
  - split; [|lia]. intros _. exact (proj1 (list_find_None P l) E).
Qed.

Lemma findIndex_nonneg (P : A → Prop) `{!∀ x, Decision (P x)} l :
  ¬ (findIndex P l < 0)%Z →
  ∃ i x, findIndex P l = Z.of_nat i ∧ l !! i = Some x ∧ P x
         ∧ ∀ j y, l !! j = Some y → j < i → ¬ P y.
Proof.
  unfold findIndex. destruct (list_find P l) as [[i x]|] eqn:E; [|lia].
  intros _. apply list_find_Some in E as (Hx & HP & Hleast).
  exists i, x. split_and!; done.
Qed.

Lemma array_set_neg (v : A) l : array_set (-1) v l = l.
Proof. reflexivity. Qed.

Lemma array_set_nat (i : nat) (v : A) l : array_set (Z.of_nat i) v l = <[i := v]> l.
Proof.
  unfold array_set. rewrite bool_decide_eq_false_2 by lia. by rewrite Nat2Z.id.
Qed.

Lemma splice1_nat (i : nat) l : splice1 (Z.of_nat i) l = delete i l.
Proof. unfold splice1. by rewrite Nat2Z.id. Qed.

End ArrayFacts.

(* ===================================================================== *)
(** * Facts about the Group methods                                        *)
(* ===================================================================== *)

Lemma set_resource_id {Uri} (f : list Uri → list Uri) (g : Group Uri) :
  f (_resource g) = _resource g → set_resource f g = g.
Proof. destruct g; unfold set_resource; simpl; intros ->; reflexivity. Qed.

Section ResourceFacts.
Context {Uri : Type} `{!VscodeUri Uri}.
Implicit Types (h : Heap Uri) (this : ref) (uri from to : Uri).

Lemma resources_alter_eq h this (f : list Uri → list Uri) :
  this < length h →
  resources (alter (set_resource f) this h) this = f (resources h this).
Proof.
  intros Hlt. unfold resources. by rewrite list_lookup_total_alter_eq.
Qed.

Lemma resources_valid h this uri : uri ∈ resources h this → this < length h.
Proof.
  unfold resources. intros Hin.
  destruct (decide (this < length h)) as [|Hge]; [done|].
  rewrite list_lookup_total_alt, lookup_ge_None_2 in Hin by lia.
  by apply elem_of_nil in Hin.
Qed.

Lemma _resourceContains_true h this uri :
  _resourceContains h this uri = true ↔
  ∃ value, value ∈ resources h this ∧ fsPath value = fsPath uri.
Proof.
  unfold _resourceContains. rewrite bool_decide_eq_true, Exists_exists. done.
Qed.

Lemma _resourceContains_false h this uri :
  _resourceContains h this uri = false ↔
  Forall (λ value, fsPath value ≠ fsPath uri) (resources h this).
Proof.
  unfold _resourceContains. rewrite bool_decide_eq_false, <- Forall_Exists_neg. done.
Qed.

Lemma addResource_fresh h this uri :
  this < length h →
  Forall (λ value, fsPath value ≠ fsPath uri) (resources h this) →
  resources (addResource this uri h) this = resources h this ++ [uri].
Proof.
  intros Hlt Hno. unfold addResource.
  rewrite (proj2 (_resourceContains_false h this uri) Hno).
  by rewrite resources_alter_eq.
Qed.

Lemma addResource_present h this uri value :
  value ∈ resources h this → fsPath value = fsPath uri →
  addResource this uri h = h.
Proof.
  intros Hin Hfs. unfold addResource.
  rewrite (proj2 (_resourceContains_true h this uri)); [done|eauto].
Qed.

Lemma removeResource_absent h this uri :
  Forall (λ item, toString item ≠ toString uri) (resources h this) →
  removeResource this uri h = h.
Proof.
  intros Hno. unfold removeResource.
  rewrite bool_decide_eq_true_2; [done|]. by apply findIndex_neg.
Qed.

(** C9. [replaceResource(from, to)]: when an entry identical to [from] is
    in [g.resources], its first occurrence is overwritten with [to] and
    every other entry stays; when [from] is not there, the call changes
    nothing at all (no Group object is altered, so [g.resources] is the
    same sequence as before). *)
Theorem replaceResource_found_or_noop h this from to :
  (from ∈ resources h this →
     ∃ i, resources h this !! i = Some from
          ∧ (∀ j, j < i → resources h this !! j ≠ Some from)
          ∧ resources (replaceResource this from to h) this
            = <[i := to]> (resources h this)
          ∧ resources (replaceResource this from to h) this !! i = Some to)
  ∧ (from ∉ resources h this → replaceResource this from to h = h).
Proof.
  split.
  - intros Hin. pose proof (resources_valid _ _ _ Hin) as Hlt.
    unfold replaceResource, indexOf.
    destruct (findIndex_nonneg (λ y, y = from) (resources h this))
      as (i & x & Hi & Hx & -> & Hleast).
    { rewrite findIndex_neg, Forall_forall. intros Hall. by apply (Hall from). }
    exists i. rewrite Hi, resources_alter_eq, array_set_nat by done.
    split_and!; [done| |done|].
    + intros j Hj Hjx. by apply (Hleast j from).
    + apply list_lookup_insert_eq. by eapply lookup_lt_Some.
  - intros Hnot. unfold replaceResource, indexOf.
    assert (findIndex (λ y, y = from) (resources h this) = (-1)%Z) as ->.
    { unfold findIndex.
      destruct (list_find _ _) as [[i x]|] eqn:E; [|done].
      apply list_find_Some in E as (Hx & -> & _).
      destruct Hnot. by eapply list_elem_of_lookup_2. }
    apply list_alter_id. intros g. by apply set_resource_id.
Qed.

(** C10 (amended).  When [g] holds no resource with the file-system path
    of [u1] and none with the string form of [u2], and [u1], [u2] have the
    same [fsPath] but different strings: [addResource(u1)] appends [u1],
    after which [addResource(u2)] and [removeResource(u2)] both leave the
    store as it is, so [u1] stays in [g.resources]. *)
Theorem add_by_fsPath_remove_by_string h this (u1 u2 : Uri) :
  this < length h →
  fsPath u1 = fsPath u2 →
  toString u1 ≠ toString u2 →
  Forall (λ value, fsPath value ≠ fsPath u1) (resources h this) →
  Forall (λ item, toString item ≠ toString u2) (resources h this) →
  let h1 := addResource this u1 h in
  resources h1 this = resources h this ++ [u1]
  ∧ addResource this u2 h1 = h1
  ∧ removeResource this u2 h1 = h1
  ∧ u1 ∈ resources (removeResource this u2 (addResource this u2 h1)) this.
Proof.
  intros Hlt Hfs Hstr Hno1 Hno2 h1.
  assert (resources h1 this = resources h this ++ [u1]) as Hres
    by by apply addResource_fresh.
  assert (addResource this u2 h1 = h1) as Hadd.
  { apply (addResource_present h1 this u2 u1); [|done].
    rewrite Hres. set_solver. }
  assert (removeResource this u2 h1 = h1) as Hrem.
  { apply removeResource_absent. rewrite Hres. apply Forall_app. split; [done|].
    by apply Forall_singleton. }
  split_and!; [done..|]. rewrite Hadd, Hrem, Hres. set_solver.
Qed.

End ResourceFacts.

(** The heap of one group [g] holding the single resource [file_a]. *)
Definition heap_one_resource : Heap SampleUri :=
  [mkGroup "g" "G" false None [file_a] []].

Lemma replaceResource_found_or_noop_witness :
  (∃ i, resources heap_one_resource 0 !! i = Some file_a
        ∧ (∀ j, j < i → resources heap_one_resource 0 !! j ≠ Some file_a)
        ∧ resources (replaceResource 0 file_a file_b heap_one_resource) 0
          = <[i := file_b]> (resources heap_one_resource 0)
        ∧ resources (replaceResource 0 file_a file_b heap_one_resource) 0 !! i
          = Some file_b)
  ∧ replaceResource 0 file_c file_b heap_one_resource = heap_one_resource.
Proof.
  split.
  - apply (replaceResource_found_or_noop heap_one_resource 0 file_a file_b).
    change (file_a ∈ [file_a]). apply list_elem_of_singleton. reflexivity.
  - apply (replaceResource_found_or_noop heap_one_resource 0 file_c file_b).
    change (file_c ∉ [file_a]). rewrite list_elem_of_singleton.
    vm_compute. discriminate.
Defined.

(** C10, as stated, fails on a group that already holds [u2]: there
    [addResource(u1)] adds nothing, and [removeResource(u2)] removes the
    entry, so the call is not a no-op and [u1] is not in [g.resources]. *)
Lemma add_remove_counterexample :
  let h : Heap SampleUri := [mkGroup "g" "G" false None [file_a] []] in
  let u1 := file_a_query in
  let u2 := file_a in
  let h1 := addResource 0 u1 h in
  fsPath u1 = fsPath u2
  ∧ toString u1 ≠ toString u2
  ∧ addResource 0 u2 h1 = h1
  ∧ removeResource 0 u2 h1 ≠ h1
  ∧ u1 ∉ resources h1 0.
Proof.
  split_and!.
  - reflexivity.
  - vm_compute. discriminate.
  - reflexivity.
  - vm_compute. discriminate.
  - change (file_a_query ∉ [file_a]). rewrite list_elem_of_singleton.
    vm_compute. discriminate.
Qed.

Lemma add_by_fsPath_remove_by_string_witness :
  let h : Heap SampleUri := [mkGroup "g" "G" false None [file_b] []] in
  let h1 := addResource 0 file_a h in
  resources h1 0 = [file_b; file_a]
  ∧ addResource 0 file_a_query h1 = h1
  ∧ removeResource 0 file_a_query h1 = h1
  ∧ file_a ∈ resources (removeResource 0 file_a_query (addResource 0 file_a_query h1)) 0.
Proof.
  apply (add_by_fsPath_remove_by_string
           [mkGroup "g" "G" false None [file_b] []] 0 file_a file_a_query).
  - simpl. lia.
  - reflexivity.
  - vm_compute. discriminate.
  - repeat constructor. vm_compute. discriminate.
  - repeat constructor. vm_compute. discriminate.
Defined.

(* ===================================================================== *)
(** * What the tree operations leave alone                                 *)
(* ===================================================================== *)

(** The fields of a Group that no tree operation writes. *)
Definition payload {Uri} (g : Group Uri) : string * string * bool * list Uri :=
  (id g, name g, readonly g, _resource g).

Lemma payload_id {Uri} (g g' : Group Uri) : payload g = payload g' → id g = id g'.
Proof. unfold payload. congruence. Qed.

Lemma payload_set_parentGroup {Uri} p (g : Group Uri) :
  payload (set_parentGroup p g) = payload g.
Proof. reflexivity. Qed.

Lemma payload_set_childGroups {Uri} f (g : Group Uri) :
  payload (set_childGroups f g) = payload g.
Proof. reflexivity. Qed.

Create HintDb group.
#[global] Hint Resolve payload_set_parentGroup payload_set_childGroups : group.

Section TreeFrame.
Context {Uri : Type} `{!VscodeUri Uri}.
Implicit Types (h : Heap Uri) (this childGroup x : ref).

Lemma alter_proj {B} (proj : Group Uri → B) (f : Group Uri → Group Uri) i h x :
  (∀ g, proj (f g) = proj g) → proj (alter f i h !!! x) = proj (h !!! x).
Proof.
  intros Hf. rewrite list_lookup_total_alter. case_decide as Hd; [|done].
  destruct Hd as [-> _]. apply Hf.
Qed.

Lemma removeChildGroup_length this childGroup h :
  length (removeChildGroup this childGroup h) = length h.
Proof.
  unfold removeChildGroup. case_bool_decide; [done|]. by rewrite !length_alter.
Qed.

Lemma removeChildGroup_payload this childGroup h x :
  payload (removeChildGroup this childGroup h !!! x) = payload (h !!! x).
Proof.
  unfold removeChildGroup. case_bool_decide; [done|].
  rewrite !alter_proj; auto with group.
Qed.

Lemma addChildGroup_length this childGroup h :
  length (addChildGroup this childGroup h) = length h.
Proof.
  unfold addChildGroup. destruct (_childGroupContains _ _ _); [done|].
  rewrite !length_alter. destruct (parentGroup _); [|done].
  apply removeChildGroup_length.
Qed.

Lemma addChildGroup_payload this childGroup h x :
  payload (addChildGroup this childGroup h !!! x) = payload (h !!! x).
Proof.
  unfold addChildGroup. destruct (_childGroupContains _ _ _); [done|].
  rewrite !alter_proj by auto with group.
  destruct (parentGroup _); [|done]. apply removeChildGroup_payload.
Qed.

Lemma removeChildGroupById_length this cid h :
  length (removeChildGroupById this cid h) = length h.
Proof.
  unfold removeChildGroupById. case_bool_decide; [done|]. by rewrite !length_alter.
Qed.

Lemma removeChildGroupById_payload this cid h x :
  payload (removeChildGroupById this cid h !!! x) = payload (h !!! x).
Proof.
  unfold removeChildGroupById. case_bool_decide; [done|].
  rewrite !alter_proj; auto with group.
Qed.

Lemma clear_parents_length (l : list ref) h :
  length (foldl (λ h' c, alter (set_parentGroup None) c h') h l) = length h.
Proof.
  revert h. induction l as [|c l IH]; intros h; simpl; [done|].
  by rewrite IH, length_alter.
Qed.

Lemma clear_parents_payload (l : list ref) h x :
  payload (foldl (λ h' c, alter (set_parentGroup None) c h') h l !!! x)
  = payload (h !!! x).
Proof.
  revert h. induction l as [|c l IH]; intros h; simpl; [done|].
  rewrite IH. apply alter_proj. auto with group.
Qed.

Lemma clearChildGroups_length this h : length (clearChildGroups this h) = length h.
Proof. unfold clearChildGroups. by rewrite length_alter, clear_parents_length. Qed.

Lemma clearChildGroups_payload this h x :
  payload (clearChildGroups this h !!! x) = payload (h !!! x).
Proof.
  unfold clearChildGroups. rewrite alter_proj by auto with group.
  apply clear_parents_payload.
Qed.

End TreeFrame.

(* ===================================================================== *)
(** * addGroup and moveGroup                                               *)
(* ===================================================================== *)

(** A provider that has nothing stored. *)
Definition empty_provider (pid : string) : FileFocusStorageProvider SampleUri :=
  mkProvider pid (λ h, (h, [])).

(** Two root groups ["a"] and ["b"], and ["c"] nested in ["b"], all routed
    to the registered provider ["statestorage"]; the fourth object is a
    Group that has just been created and is not registered yet. *)
Definition sample_manager : GroupManager SampleUri :=
  mkGroupManager
    [ mkGroup "a" "A" false None [file_a] [];
      mkGroup "b" "B" false None [] [2];
      mkGroup "c" "C" false (Some 1) [file_c] [];
      mkGroup "n" "N" false None [] [] ]
    {[ "a" := 0; "b" := 1; "c" := 2 ]}
    {[ "a" := 0; "b" := 1 ]}
    {[ "a" := "statestorage"; "b" := "statestorage"; "c" := "statestorage" ]}
    ""
    [("statestorage", empty_provider "statestorage")]
    [].

(** Projections of an updated manager. *)
Ltac mgr_simpl :=
  cbn [heap root rootGroups storageMap _storageProvider calls _pinnedGroupId
       with_heap with_root with_rootGroups with_storageMap with_storageProvider
       issue] in *.

Section AddMove.
Context {Uri : Type} `{!VscodeUri Uri} `{!Uuid}.
Implicit Types (m : GroupManager Uri) (group : ref).

Lemma saveGroup_fields group m :
  heap (saveGroup group m) = heap m
  ∧ root (saveGroup group m) = root m
  ∧ rootGroups (saveGroup group m) = rootGroups m
  ∧ storageMap (saveGroup group m) = storageMap m
  ∧ _storageProvider (saveGroup group m) = _storageProvider m.
Proof. unfold saveGroup. by destruct (providerFor _ _). Qed.

Lemma saveGroup_calls group m :
  calls (saveGroup group m)
  = match providerFor m (id (heap m !!! group)) with
    | Some provider => calls m ++ [Call_saveGroup (provider_id provider) group]
    | None => calls m
    end.
Proof. unfold saveGroup. by destruct (providerFor _ _). Qed.

(** C5 (amended).  [addGroup(g, s, p)] always registers [g] in the
    flattened map and routes it to [s]; it puts [g] in [rootGroups] when no
    parent id is given (absent or empty) and attaches it to the parent when
    [p] resolves to a registered Group; and it persists [g] (one
    [saveGroup] call on the provider) when [s] is a registered provider,
    and issues no call when [s] is not registered. *)
Theorem addGroup_registers group (s : string) (p : option string) m :
  let gid := id (heap m !!! group) in
  let m' := addGroup group s p m in
  root m' !! gid = Some group
  ∧ storageMap m' !! gid = Some s
  ∧ (truthy p = false →
       rootGroups m' !! gid = Some group ∧ heap m' = heap m)
  ∧ (∀ parentGroup, truthy p = true → root m !! default "" p = Some parentGroup →
       heap m' = addChildGroup parentGroup group (heap m)
       ∧ rootGroups m' = rootGroups m)
  ∧ (∀ provider, jsmap_get s (_storageProvider m) = Some provider →
       calls m' = calls m ++ [Call_saveGroup (provider_id provider) group])
  ∧ (jsmap_get s (_storageProvider m) = None → calls m' = calls m).
Proof.
  intros gid m'. subst m'. unfold addGroup. fold gid.
  set (m1 := if truthy p then _ else _).
  assert (id (heap m1 !!! group) = gid) as Hid.
  { subst m1. destruct (truthy p); [|done].
    destruct (root m !! default "" p); [|done]. simpl.
    apply payload_id, addChildGroup_payload. }
  assert (_storageProvider m1 = _storageProvider m ∧ calls m1 = calls m) as [Hsp Hc].
  { subst m1. destruct (truthy p); [|done]. by destruct (root m !! default "" p). }
  set (m3 := with_storageMap _ _).
  assert (providerFor m3 (id (heap m3 !!! group)) = jsmap_get s (_storageProvider m))
    as Hprov.
  { unfold providerFor. subst m3. simpl. rewrite Hid, lookup_insert_eq. simpl.
    by rewrite Hsp. }
  destruct (saveGroup_fields group m3) as (Hh & Hr & Hrg & Hsm & _).
  rewrite Hh, Hr, Hrg, Hsm, saveGroup_calls, Hprov. subst m3. simpl.
  split_and!.
  - apply lookup_insert_eq.
  - apply lookup_insert_eq.
  - intros Hp. subst m1. rewrite Hp. simpl. split; [apply lookup_insert_eq|done].
  - intros parent Hp Hparent. subst m1. rewrite Hp, Hparent. done.
  - intros provider ->. by rewrite Hc.
  - intros ->. done.
Qed.

End AddMove.

#[local] Existing Instance SampleUuid.

Lemma addGroup_registers_witness :
  let m' := addGroup 3 "statestorage" None sample_manager in
  root m' !! "n" = Some 3
  ∧ storageMap m' !! "n" = Some "statestorage"
  ∧ rootGroups m' !! "n" = Some 3
  ∧ calls m' = [Call_saveGroup "statestorage" 3]
  ∧ childGroups (heap (addGroup 3 "statestorage" (Some "a") sample_manager)) 0 = [3].
Proof.
  pose proof (addGroup_registers 3 "statestorage" None sample_manager)
    as (Hroot & Hsm & Hrg & _ & Hcalls & _).
  pose proof (addGroup_registers 3 "statestorage" (Some "a") sample_manager)
    as (_ & _ & _ & Hchild & _).
  split_and!.
  - exact Hroot.
  - exact Hsm.
  - apply Hrg. reflexivity.
  - apply (Hcalls (empty_provider "statestorage")). reflexivity.
  - destruct (Hchild 0) as [-> _]; reflexivity.
Defined.

(** C5, as stated, fails twice.  With a non-empty parent id that is not
    registered, [g] does not end up in [rootGroups] (nor under any parent),
    although it is registered in the flattened map; and with a provider id
    that is not registered, nothing is persisted. *)
Lemma addGroup_counterexample :
  let m1 := addGroup 3 "statestorage" (Some "ghost") sample_manager in
  let m2 := addGroup 3 "nostorage" None sample_manager in
  root sample_manager !! "ghost" = None
  ∧ root m1 !! "n" = Some 3
  ∧ rootGroups m1 !! "n" = None
  ∧ heap m1 = heap sample_manager
  ∧ jsmap_get "nostorage" (_storageProvider sample_manager) = None
  ∧ calls m2 = calls sample_manager.
Proof. vm_compute. split_and!; reflexivity. Qed.

(** C3: the code at the failing input.  Moving the root group ["a"], or
    the nested group ["c"], under an id that is not registered returns
    [false], but by then the group has been taken out of the root set,
    respectively out of its parent's children (and its parent reference
    cleared): the forest is not what it was. *)
Theorem moveGroup_unknown_parent_detaches :
  let '(r1, m1) := moveGroup "a" (Some "ghost") sample_manager in
  let '(r2, m2) := moveGroup "c" (Some "ghost") sample_manager in
  root sample_manager !! "ghost" = None
  ∧ r1 = false
  ∧ rootGroups sample_manager !! "a" = Some 0
  ∧ rootGroups m1 !! "a" = None
  ∧ root m1 !! "a" = Some 0
  ∧ r2 = false
  ∧ childGroups (heap sample_manager) 1 = [2]
  ∧ parentGroup (heap sample_manager !!! 2) = Some 1
  ∧ childGroups (heap m2) 1 = []
  ∧ parentGroup (heap m2 !!! 2) = None
  ∧ rootGroups m2 !! "c" = None
  ∧ root m2 !! "c" = Some 2.
Proof. vm_compute. split_and!; reflexivity. Qed.

(* ===================================================================== *)
(** * The child relation and cycles                                        *)
(* ===================================================================== *)

(** The tree operations of the Group class, as commands. *)
Inductive TreeOp :=
| AddChildGroup (parent child : ref)
| RemoveChildGroup (parent child : ref)
| RemoveChildGroupById (parent : ref) (childGroupId : string)
| ClearChildGroups (parent : ref).

Section Forest.
Context {Uri : Type} `{!VscodeUri Uri}.
Implicit Types (h : Heap Uri) (this childGroup x y : ref).

(** [y] is listed in [x.childGroups]. *)
Definition child h : relation ref := λ x y, y ∈ childGroups h x.

(** [y] is reachable from [x] through one or more [childGroups] steps. *)
Definition descendant h : relation ref := tc (child h).

Definition acyclic h : Prop := ∀ x, ¬ descendant h x x.

Definition run_op (op : TreeOp) h : Heap Uri :=
  match op with
  | AddChildGroup p c => addChildGroup p c h
  | RemoveChildGroup p c => removeChildGroup p c h
  | RemoveChildGroupById p i => removeChildGroupById p i h
  | ClearChildGroups p => clearChildGroups p h
  end.

Definition run_ops (ops : list TreeOp) h : Heap Uri :=
  foldl (λ h' op, run_op op h') h ops.

(** Every [addChildGroup(p, c)] of the sequence is issued with [p] distinct
    from [c] and not below [c], in the store as it is at that call. *)
Fixpoint guarded h (ops : list TreeOp) : Prop :=
  match ops with
  | [] => True
  | op :: ops' =>
      match op with
      | AddChildGroup p c => p ≠ c ∧ ¬ descendant h c p
      | _ => True
      end ∧ guarded (run_op op h) ops'
  end.

Lemma childGroups_alter_parent p c h x :
  childGroups (alter (set_parentGroup p) c h) x = childGroups h x.
Proof. unfold childGroups. by apply alter_proj. Qed.

Lemma childGroups_alter f i h x :
  childGroups (alter (set_childGroups f) i h) x
  = if decide (i = x ∧ i < length h) then f (childGroups h x) else childGroups h x.
Proof.
  unfold childGroups. rewrite list_lookup_total_alter.
  repeat case_decide; try done; try tauto.
  by destruct H as [-> _].
Qed.

Lemma elem_of_splice1 (i : Z) (l : list ref) y : y ∈ splice1 i l → y ∈ l.
Proof. unfold splice1. apply list_elem_of_delete_inv. Qed.

Lemma removeChildGroup_child this childGroup h x y :
  child (removeChildGroup this childGroup h) x y → child h x y.
Proof.
  unfold child, removeChildGroup. case_bool_decide; [done|].
  rewrite childGroups_alter_parent, childGroups_alter.
  case_decide; [apply elem_of_splice1|done].
Qed.

Lemma removeChildGroupById_child this cid h x y :
  child (removeChildGroupById this cid h) x y → child h x y.
Proof.
  unfold child, removeChildGroupById. case_bool_decide; [done|].
  rewrite childGroups_alter_parent, childGroups_alter.
  case_decide; [apply elem_of_splice1|done].
Qed.

Lemma clear_parents_childGroups (l : list ref) h x :
  childGroups (foldl (λ h' c, alter (set_parentGroup None) c h') h l) x
  = childGroups h x.
Proof.
  revert h. induction l as [|c l IH]; intros h; simpl; [done|].
  by rewrite IH, childGroups_alter_parent.
Qed.

Lemma clearChildGroups_child this h x y :
  child (clearChildGroups this h) x y → child h x y.
Proof.
  unfold child, clearChildGroups.
  rewrite childGroups_alter, clear_parents_childGroups.
  case_decide; [by intros ?%elem_of_nil|done].
Qed.

Lemma addChildGroup_child this childGroup h x y :
  child (addChildGroup this childGroup h) x y →
  child h x y ∨ (x = this ∧ y = childGroup).
Proof.
  unfold addChildGroup. destruct (_childGroupContains _ _ _); [by left|].
  unfold child at 1. rewrite childGroups_alter_parent, childGroups_alter.
  set (h1 := match parentGroup _ with Some _ => _ | None => _ end).
  assert (∀ z, z ∈ childGroups h1 x → child h x z) as Hsub.
  { subst h1. destruct (parentGroup _); [|done].
    intros z. apply removeChildGroup_child. }
  case_decide as Hd; [|by left; apply Hsub].
  destruct Hd as [<- _]. intros [Hy| ->%list_elem_of_singleton]%elem_of_app.
  - left. by apply Hsub.
  - by right.
Qed.

Lemma acyclic_sub (R R' : relation ref) :
  (∀ x y, R' x y → R x y) → (∀ x, ¬ tc R x x) → ∀ x, ¬ tc R' x x.
Proof.
  intros Hsub Hac x Hx. apply (Hac x).
  by apply (tc_congruence (λ z, z) R) in Hx.
Qed.

(** Adding the edge [p → c] to an acyclic relation in which [c] does not
    reach [p] keeps it acyclic. *)
Lemma acyclic_add_edge (R R' : relation ref) p c :
  (∀ x y, R' x y → R x y ∨ (x = p ∧ y = c)) →
  (∀ x, ¬ tc R x x) → p ≠ c → ¬ tc R c p →
  ∀ x, ¬ tc R' x x.
Proof.
  intros Hsub Hac Hne Hcp.
  assert (¬ rtc R c p) as Hcp'.
  { intros [->|?]%rtc_tc; done. }
  assert (∀ a b, tc R' a b → tc R a b ∨ (rtc R a p ∧ rtc R c b)) as Hsplit.
  { intros a b Hab. induction Hab as [a b Hab|a b z Hab Hbz IH].
    - destruct (Hsub _ _ Hab) as [?|[-> ->]].
      + left. by apply tc_once.
      + right. split; apply rtc_refl.
    - destruct (Hsub _ _ Hab) as [Hab'|[-> ->]]; destruct IH as [IH|[IH1 IH2]].
      + left. by eapply tc_l.
      + right. split; [by eapply rtc_l|done].
      + right. split; [apply rtc_refl|by apply tc_rtc].
      + done. }
  intros x Hx. destruct (Hsplit _ _ Hx) as [Hx'|[Hxp Hcx]].
  - by apply (Hac x).
  - apply Hcp'. by etrans.
Qed.

Lemma run_op_acyclic op h :
  acyclic h →
  match op with
  | AddChildGroup p c => p ≠ c ∧ ¬ descendant h c p
  | _ => True
  end →
  acyclic (run_op op h).
Proof.
  unfold acyclic, descendant.
  intros Hac Hg. destruct op as [p c|p c|p i|p]; simpl.
  - destruct Hg as [Hne Hcp].
    apply (acyclic_add_edge (child h) _ p c); try done.
    intros x y. apply addChildGroup_child.
  - apply (acyclic_sub (child h)); [|done]. intros x y. apply removeChildGroup_child.
  - apply (acyclic_sub (child h)); [|done].
    intros x y. apply removeChildGroupById_child.
  - apply (acyclic_sub (child h)); [|done]. intros x y. apply clearChildGroups_child.
Qed.

Lemma run_ops_acyclic ops h : acyclic h → guarded h ops → acyclic (run_ops ops h).
Proof.
  revert h. induction ops as [|op ops IH]; intros h Hac Hg; simpl; [done|].
  destruct Hg as [Hop Hg]. apply IH; [|done]. by apply run_op_acyclic.
Qed.

(** ** [getAllChildGroups] against the descendant relation *)

Definition collect (n : nat) h (acc : option (list ref)) childGroup
  : option (list ref) :=
  allChildren ← acc;
  sub ← getAllChildGroups n h childGroup;
  Some (allChildren ++ childGroup :: sub).

Lemma getAllChildGroups_S n h this :
  getAllChildGroups (S n) h this = foldl (collect n h) (Some []) (childGroups h this).
Proof. reflexivity. Qed.

Lemma collect_None n h cs : foldl (collect n h) None cs = None.
Proof. induction cs as [|c cs IH]; simpl; done. Qed.

Lemma collect_cons n h acc c cs :
  foldl (collect n h) (Some acc) (c :: cs)
  = match getAllChildGroups n h c with
    | Some sub => foldl (collect n h) (Some (acc ++ c :: sub)) cs
    | None => None
    end.
Proof.
  simpl. destruct (getAllChildGroups n h c); simpl; [done|apply collect_None].
Qed.

(** The loop returns exactly when every call on a child returns, and the
    result is [acc] followed by each child and that child's own list. *)
Lemma collect_Some n h cs acc l :
  foldl (collect n h) (Some acc) cs = Some l ↔
  ∃ subs, Forall2 (λ c sub, getAllChildGroups n h c = Some sub) cs subs
          ∧ l = acc ++ concat (zip_with cons cs subs).
Proof.
  revert acc. induction cs as [|c cs IH]; intros acc.
  - simpl. split.
    + intros [= <-]. exists []. split; [constructor|by rewrite app_nil_r].
    + intros (subs & Hall & ->). inversion Hall; subst. simpl. by rewrite app_nil_r.
  - rewrite collect_cons. split.
    + destruct (getAllChildGroups n h c) as [sub|] eqn:E; [|done].
      intros (subs & Hall & ->)%IH. exists (sub :: subs).
      split; [by constructor|]. simpl. by rewrite <- app_assoc.
    + intros (subs & Hall & ->). inversion Hall as [|? sub ? subs' Hc Hall']; subst.
      rewrite Hc. apply IH. exists subs'. split; [done|].
      simpl. by rewrite <- app_assoc.
Qed.

Lemma getAllChildGroups_Some n h this l :
  getAllChildGroups (S n) h this = Some l ↔
  ∃ subs, Forall2 (λ c sub, getAllChildGroups n h c = Some sub)
                  (childGroups h this) subs
          ∧ l = concat (zip_with cons (childGroups h this) subs).
Proof. rewrite getAllChildGroups_S. apply collect_Some. Qed.

Lemma elem_of_concat_zip (cs : list ref) (subs : list (list ref)) x :
  length cs = length subs →
  x ∈ concat (zip_with cons cs subs) ↔
  ∃ i c sub, cs !! i = Some c ∧ subs !! i = Some sub ∧ (x = c ∨ x ∈ sub).
Proof.
  revert subs. induction cs as [|c cs IH]; intros [|sub subs] Hlen; simplify_eq/=.
  - split; [by intros ?%elem_of_nil|]. by intros (i & ? & ? & ? & _).
  - rewrite elem_of_cons, elem_of_app, IH by done. split.
    + intros [->|[Hx|(i & c' & sub' & ? & ? & ?)]].
      * exists 0, c, sub. by split_and!; [..|left].
      * exists 0, c, sub. by split_and!; [..|right].
      * exists (S i), c', sub'. by split_and!.
    + intros ([|i] & c' & sub' & Hc & Hs & Hx); simplify_eq/=; [tauto|].
      right. right. eauto 10.
Qed.

(** Whatever [getAllChildGroups] returns is a descendant. *)
Lemma getAllChildGroups_sound n h this l x :
  getAllChildGroups n h this = Some l → x ∈ l → descendant h this x.
Proof.
  revert this l x. induction n as [|n IH]; intros this l x; [done|].
  intros (subs & Hall & ->)%getAllChildGroups_Some.
  rewrite elem_of_concat_zip by by eapply Forall2_length.
  intros (i & c & sub & Hc & Hs & Hx).
  assert (child h this c) as Hchild by by eapply list_elem_of_lookup_2.
  destruct Hx as [->|Hx]; [by apply tc_once|].
  eapply tc_l; [done|]. eapply IH; [|done].
  exact (Forall2_lookup_lr _ _ _ _ _ _ Hall Hc Hs).
Qed.

(** Every descendant is in what [getAllChildGroups] returns. *)
Lemma getAllChildGroups_complete n h this l x :
  getAllChildGroups n h this = Some l → descendant h this x → x ∈ l.
Proof.
  intros Hl Hx. revert n l Hl.
  induction Hx as [a b Hab|a b z Hab Hbz IH]; intros [|n] l; try done.
  - intros (subs & Hall & ->)%getAllChildGroups_Some.
    apply list_elem_of_lookup_1 in Hab as [i Hi].
    destruct (Forall2_lookup_l _ _ _ _ _ Hall Hi) as (sub & Hs & _).
    apply elem_of_concat_zip; [by eapply Forall2_length|]. eauto 10.
  - intros (subs & Hall & ->)%getAllChildGroups_Some.
    apply list_elem_of_lookup_1 in Hab as [i Hi].
    destruct (Forall2_lookup_l _ _ _ _ _ Hall Hi) as (sub & Hs & Hsub).
    apply elem_of_concat_zip; [by eapply Forall2_length|].
    exists i, b, sub. split_and!; [done..|]. right. by eapply IH.
Qed.

(** More fuel does not change a result. *)
Lemma getAllChildGroups_mono n n' h this l :
  getAllChildGroups n h this = Some l → n ≤ n' → getAllChildGroups n' h this = Some l.
Proof.
  revert n' this l. induction n as [|n IH]; intros [|n'] this l; try done; [lia|].
  intros (subs & Hall & ->)%getAllChildGroups_Some Hle.
  apply getAllChildGroups_Some. exists subs. split; [|done].
  eapply Forall2_impl; [done|]. intros c sub Hc. apply IH; [done|lia].
Qed.

(** A run on a group that is its own descendant never returns. *)
Lemma getAllChildGroups_cycle n h this :
  descendant h this this → getAllChildGroups n h this = None.
Proof.
  intros Hcyc. destruct (getAllChildGroups n h this) as [l|] eqn:E; [|done].
  exfalso. revert this l Hcyc E.
  induction n as [|n IH]; intros this l Hcyc E; [done|].
  assert (∀ a b, descendant h a b → ∀ la, getAllChildGroups (S n) h a = Some la →
            ∃ lb, getAllChildGroups n h b = Some lb) as Hdown.
  { intros a b Hab. induction Hab as [a b Hab|a b z Hab Hbz IH']; intros la.
    - intros (subs & Hall & ->)%getAllChildGroups_Some.
      apply list_elem_of_lookup_1 in Hab as [i Hi].
      destruct (Forall2_lookup_l _ _ _ _ _ Hall Hi) as (sub & _ & Hsub). eauto.
    - intros (subs & Hall & ->)%getAllChildGroups_Some.
      apply list_elem_of_lookup_1 in Hab as [i Hi].
      destruct (Forall2_lookup_l _ _ _ _ _ Hall Hi) as (sub & _ & Hsub).
      eapply IH'. eapply getAllChildGroups_mono; [done|lia]. }
  destruct (Hdown _ _ Hcyc _ E) as [lb Hlb]. by eapply IH.
Qed.

(** C4 (amended).  From an acyclic store, every sequence of
    [addChildGroup], [removeChildGroup], [removeChildGroupById] and
    [clearChildGroups] in which each [addChildGroup(p, c)] is issued with
    [p] distinct from [c] and not a descendant of [c] leaves the store
    acyclic: no Group is its own descendant, and whenever
    [g.getAllChildGroups()] returns, [g] is not in the result. *)
Theorem guarded_ops_keep_acyclic h (ops : list TreeOp) :
  acyclic h → guarded h ops →
  acyclic (run_ops ops h)
  ∧ ∀ g fuel l, getAllChildGroups fuel (run_ops ops h) g = Some l → g ∉ l.
Proof.
  intros Hac Hg. pose proof (run_ops_acyclic ops h Hac Hg) as Hac'.
  split; [done|]. intros g fuel l Hl Hin.
  apply (Hac' g). by eapply getAllChildGroups_sound.
Qed.

End Forest.

Section ForestChecks.
Context {Uri : Type} `{!VscodeUri Uri}.
Implicit Types (h : Heap Uri).

Lemma leaf_not_descendant h c p : childGroups h c = [] → ¬ descendant h c p.
Proof.
  intros Hleaf Hd. unfold descendant in Hd.
  assert (∃ y, child h c y) as [y Hy] by (inversion Hd; eauto).
  unfold child in Hy. rewrite Hleaf in Hy. by apply elem_of_nil in Hy.
Qed.

Lemma no_children_acyclic h : (∀ x, childGroups h x = []) → acyclic h.
Proof. intros Hleaf x. by apply leaf_not_descendant. Qed.

Lemma getAllChildGroups_not_descendant n h c p l :
  getAllChildGroups n h c = Some l → p ∉ l → ¬ descendant h c p.
Proof. intros Hl Hnot Hd. apply Hnot. by eapply getAllChildGroups_complete. Qed.

End ForestChecks.

(** Three fresh groups. *)
Definition three_groups : Heap SampleUri :=
  [new_Group "a"; new_Group "b"; new_Group "c"].

(** Nest ["b"] in ["a"] and ["c"] in ["b"], take ["c"] out again, put it
    under ["a"], then empty ["a"]. *)
Definition sample_ops : list TreeOp :=
  [ AddChildGroup 0 1; AddChildGroup 1 2; RemoveChildGroup 1 2;
    AddChildGroup 0 2; RemoveChildGroupById 0 "b"; ClearChildGroups 0 ].

Lemma three_groups_acyclic : acyclic three_groups.
Proof.
  apply no_children_acyclic. intros x. unfold childGroups.
  rewrite list_lookup_total_alt.
  destruct x as [|[|[|x]]]; reflexivity.
Qed.

Lemma sample_ops_guarded : guarded three_groups sample_ops.
Proof.
  simpl. split_and!; try done.
  - by apply leaf_not_descendant.
  - by apply leaf_not_descendant.
  - by apply leaf_not_descendant.
Qed.

Lemma guarded_ops_keep_acyclic_witness :
  acyclic (run_ops sample_ops three_groups)
  ∧ ∀ g fuel l,
      getAllChildGroups fuel (run_ops sample_ops three_groups) g = Some l → g ∉ l.
Proof.
  apply guarded_ops_keep_acyclic.
  - exact three_groups_acyclic.
  - exact sample_ops_guarded.
Defined.

(** C4, as stated, fails: on a fresh Group [g], [addChildGroup(g, g)]
    makes [g] a child of itself (and its own parent), so [g] is its own
    descendant and [g.getAllChildGroups()] no longer returns. *)
Lemma addChildGroup_self_counterexample :
  let h : Heap SampleUri := [new_Group "g"] in
  let h' := run_ops [AddChildGroup 0 0] h in
  acyclic h
  ∧ childGroups h' 0 = [0]
  ∧ parentGroup (h' !!! 0) = Some 0
  ∧ descendant h' 0 0
  ∧ ¬ acyclic h'
  ∧ ∀ fuel, getAllChildGroups fuel h' 0 = None.
Proof.
  intros h h'.
  assert (descendant h' 0 0) as Hd.
  { apply tc_once. unfold child. change (0 ∈ [0]). by apply list_elem_of_singleton. }
  split_and!.
  - apply no_children_acyclic. intros x. unfold childGroups.
    rewrite list_lookup_total_alt. destruct x as [|x]; reflexivity.
  - reflexivity.
  - reflexivity.
  - exact Hd.
  - intros Hac. by apply (Hac 0).
  - intros fuel. by apply getAllChildGroups_cycle.
Qed.

(* ===================================================================== *)
(** * Facts about [Map] and object dictionaries                            *)
(* ===================================================================== *)

Section JsMapFacts.
Context {V : Type}.
Implicit Types (m : JsMap V) (k : string) (v : V).

(** The dictionary a list of entries denotes (the first entry of a key
    is the one [get] finds). *)
Definition dict m : gmap string V := list_to_map m.

Lemma jsmap_get_dict k m : jsmap_get k m = dict m !! k.
Proof.
  unfold jsmap_get, dict. induction m as [|[k' v'] m IH]; [done|].
  cbn [list_find list_to_map foldr]. simpl.
  destruct (decide (k' = k)) as [->|Hne].
  - by rewrite lookup_insert_eq.
  - rewrite lookup_insert_ne by done. rewrite <- IH.
    by destruct (list_find _ m) as [[? [? ?]]|].
Qed.

Lemma dict_jsmap_set k v m : dict (jsmap_set k v m) = <[k := v]> (dict m).
Proof.
  unfold dict. induction m as [|[k' v'] m IH]; [done|]. simpl.
  destruct (decide (k' = k)) as [->|Hne]; simpl.
  - by rewrite insert_insert_eq.
  - by rewrite IH, insert_insert_ne.
Qed.

Lemma jsmap_set_keys k v m :
  (jsmap_set k v m).*1 = if decide (k ∈ m.*1) then m.*1 else m.*1 ++ [k].
Proof.
  induction m as [|[k' v'] m IH].
  - destruct (decide (k ∈ ([] : JsMap V).*1)) as [Hin|_]; [|done].
    by apply elem_of_nil in Hin.
  - cbn [jsmap_set]. destruct (decide (k' = k)) as [->|Hne].
    + destruct (decide (k ∈ ((k, v') :: m).*1)) as [_|Hnin]; [done|].
      destruct Hnin. by left.
    + rewrite !fmap_cons, IH. cbn [fst].
      destruct (decide (k ∈ m.*1)) as [Hin|Hnin];
        destruct (decide (k ∈ k' :: m.*1)) as [Hin'|Hnin']; try done.
      all: first [ destruct Hnin'; by right
                 | apply elem_of_cons in Hin' as [->|?]; done ].
Qed.

Lemma jsmap_set_NoDup k v m : NoDup m.*1 → NoDup (jsmap_set k v m).*1.
Proof.
  intros Hnd. rewrite jsmap_set_keys. case_decide; [done|].
  apply NoDup_app. split_and!; [done| |apply NoDup_singleton].
  intros x Hx ->%list_elem_of_singleton. done.
Qed.

Lemma new_Map_from_NoDup (acc es : list (string * V)) :
  NoDup acc.*1 → NoDup (foldl (λ m e, jsmap_set e.1 e.2 m) acc es).*1.
Proof.
  revert acc. induction es as [|e es IH]; intros acc Hnd; simpl; [done|].
  apply IH. by apply jsmap_set_NoDup.
Qed.

Lemma new_Map_NoDup (es : list (string * V)) : NoDup (new_Map es).*1.
Proof. apply new_Map_from_NoDup. constructor. Qed.

Lemma jsmap_set_fresh k v m : k ∉ m.*1 → jsmap_set k v m = m ++ [(k, v)].
Proof.
  induction m as [|[k' v'] m IH]; simpl; [done|].
  intros [Hne Hnin]%not_elem_of_cons.
  rewrite decide_False by done. by rewrite IH.
Qed.

(** The entries of an object (distinct keys) give the [Map] that lists
    them in the same order. *)
Lemma new_Map_id_from (acc es : list (string * V)) :
  NoDup (acc ++ es).*1 → foldl (λ m e, jsmap_set e.1 e.2 m) acc es = acc ++ es.
Proof.
  revert acc. induction es as [|[k v] es IH]; intros acc Hnd; simpl.
  - by rewrite app_nil_r.
  - rewrite jsmap_set_fresh.
    + rewrite IH; rewrite <- app_assoc; done.
    + rewrite fmap_app in Hnd. apply NoDup_app in Hnd as (_ & Hdis & _).
      intros Hin. apply (Hdis k Hin). simpl. by left.
Qed.

Lemma new_Map_id (es : list (string * V)) : NoDup es.*1 → new_Map es = es.
Proof. intros Hnd. by apply (new_Map_id_from [] es). Qed.

Lemma insert_index_perm (n : N) (e : string * V) l :
  insert_index n e l ≡ₚ (n, e) :: l.
Proof.
  induction l as [|[n' e'] l IH]; simpl; [done|].
  case_bool_decide; [done|]. rewrite IH. apply perm_swap.
Qed.

Lemma own_key_order_perm (es : list (string * V)) : own_key_order es ≡ₚ es.
Proof.
  unfold own_key_order.
  set (indexed := omap _ es).
  assert (foldr (λ ne acc, insert_index ne.1 ne.2 acc) [] indexed ≡ₚ indexed) as ->.
  { induction indexed as [|[n e] l IH]; simpl; [done|].
    by rewrite insert_index_perm, IH. }
  assert (indexed.*2 = filter (λ e, ¬ array_index e.1 = None) es) as ->.
  { subst indexed. induction es as [|e es IH]; [done|].
    rewrite filter_cons. cbn [omap list_omap].
    destruct (decide (¬ array_index e.1 = None)) as [Hidx|Hidx];
      destruct (array_index e.1) eqn:E; simpl.
    - by rewrite <- IH.
    - done.
    - destruct Hidx. done.
    - exact IH. }
  rewrite Permutation_app_comm. apply filter_app_complement.
Qed.

Lemma Object_fromEntries_dict (entries : JsMap V) :
  NoDup entries.*1 → dict (Object_fromEntries entries) = dict entries.
Proof.
  intros Hnd. unfold dict, Object_fromEntries. symmetry.
  apply list_to_map_proper; [done|]. by rewrite own_key_order_perm.
Qed.

Lemma Object_fromEntries_NoDup (entries : JsMap V) :
  NoDup entries.*1 → NoDup (Object_fromEntries entries).*1.
Proof.
  intros Hnd. unfold Object_fromEntries. by rewrite own_key_order_perm.
Qed.

End JsMapFacts.

(* ===================================================================== *)
(** * The one-time migration                                               *)
(* ===================================================================== *)

Section MigrationFacts.
Context {Uri Resource : Type} `{!VscodeUri Uri} `{!FocusUtil Uri Resource}.
Implicit Types (st : StorageService Resource) (srcRecord : DeprecateGroupRecord).

(** The legacy records, in the order in which the migration visits them. *)
Definition legacy_records st : list DeprecateGroupRecord :=
  (new_Map (Object_entries (getValue_DeprecateGroupStore st "groupstore" []))).*2.

(** The current-format record that the migration synthesizes from a
    legacy record and its ["A-<id>"] path list. *)
Definition converted st srcRecord : GroupRecord Resource :=
  mkGroupRecord (dep_id srcRecord) (dep_label srcRecord)
    (map (λ path, uriToResource (Uri_parse path))
         (getValue_paths st (legacy_key (dep_id srcRecord)) []))
    None None.

(** The lookup that [loadRootNodes] performs on the ["groupmap"] entry. *)
Definition groupmap_get st (i : string) : option (GroupRecord Resource) :=
  jsmap_get i (new_Map (Object_entries (getValue_GroupStore st "groupmap" []))).

Lemma fold_delete_lookup {B} (f : B → string) (l : list B) st k :
  foldl (λ st' e, deleteValue (f e) st') st l !! k
  = if decide (k ∈ f <$> l) then None else st !! k.
Proof.
  revert st. induction l as [|e l IH]; intros st.
  - destruct (decide (k ∈ f <$> [])) as [Hin|_]; [by apply elem_of_nil in Hin|done].
  - cbn [foldl]. rewrite IH, fmap_cons. unfold deleteValue.
    destruct (decide (k ∈ f <$> l)) as [Hin|Hnin];
      destruct (decide (k ∈ f e :: (f <$> l))) as [Hin'|Hnin']; try done.
    all: first [ destruct Hnin'; by right
               | apply elem_of_cons in Hin' as [->|?]; [apply lookup_delete_eq|done]
               | rewrite lookup_delete_ne; [done|]; intros <-; apply Hnin'; by left ].
Qed.

Lemma legacy_key_not_fixed (i : string) :
  legacy_key i ≠ "groupmap" ∧ legacy_key i ≠ "groupstore"
  ∧ legacy_key i ≠ "storeversion".
Proof. unfold legacy_key. simpl. split_and!; discriminate. Qed.

Lemma fixed_key_not_legacy {B} (g : B → string) (l : list B) (k : string) :
  k = "groupmap" ∨ k = "groupstore" ∨ k = "storeversion" →
  k ∉ (λ e, legacy_key (g e)) <$> l.
Proof.
  intros Hk (e & -> & _)%list_elem_of_fmap.
  destruct (legacy_key_not_fixed (g e)) as (? & ? & ?).
  destruct Hk as [Hk|[Hk|Hk]]; congruence.
Qed.

Lemma filter_none {B} (P : B → Prop) `{!∀ x, Decision (P x)} (l : list B) :
  (∀ x, x ∈ l → ¬ P x) → filter P l = [].
Proof.
  induction l as [|x l IH]; intros Hall; [done|].
  rewrite filter_cons_False by (apply Hall; by left).
  apply IH. intros y Hy. apply Hall. by right.
Qed.

Lemma filter_unique_id (l : list DeprecateGroupRecord) r :
  r ∈ l → NoDup (dep_id <$> l) → filter (λ r0, dep_id r0 = dep_id r) l = [r].
Proof.
  induction l as [|r0 l IH]; [by intros ?%elem_of_nil|].
  rewrite fmap_cons, NoDup_cons. intros [->|Hr]%elem_of_cons [Hnin Hnd].
  - rewrite filter_cons_True by done. f_equal. apply filter_none.
    intros x Hx Hid. apply Hnin. rewrite <- Hid. by apply list_elem_of_fmap_2.
  - rewrite filter_cons_False; [by apply IH|].
    intros Hid. apply Hnin. rewrite Hid. by apply list_elem_of_fmap_2.
Qed.

(** The records written by the conversion loop: the last legacy record
    with a given id decides the entry of that id. *)
Lemma conversion_loop_dict st (dstMap : JsMap (GroupRecord Resource))
  (srcMap : JsMap DeprecateGroupRecord) (i : string) :
  dict (foldl (λ dstMap e,
                 jsmap_set (rec_id (converted st e.2)) (converted st e.2) dstMap)
              dstMap srcMap) !! i
  = match last (filter (λ r, dep_id r = i) srcMap.*2) with
    | Some r => Some (converted st r)
    | None => dict dstMap !! i
    end.
Proof.
  induction srcMap as [|e srcMap IH] using rev_ind; [done|].
  rewrite foldl_app, fmap_app, filter_app. simpl.
  rewrite dict_jsmap_set. rewrite filter_cons, filter_nil. simpl.
  destruct (decide (dep_id e.2 = i)) as [<-|Hne].
  - by rewrite lookup_insert_eq, last_snoc.
  - by rewrite lookup_insert_ne, app_nil_r.
Qed.

Lemma conversion_loop_NoDup st (dstMap : JsMap (GroupRecord Resource))
  (srcMap : JsMap DeprecateGroupRecord) :
  NoDup dstMap.*1 →
  NoDup (foldl (λ dstMap e,
                  jsmap_set (rec_id (converted st e.2)) (converted st e.2) dstMap)
               dstMap srcMap).*1.
Proof.
  revert dstMap. induction srcMap as [|e srcMap IH]; intros dstMap Hnd; [done|].
  simpl. apply IH. by apply jsmap_set_NoDup.
Qed.

(** C8.  [migrateStorageV1] runs at most once.  With the version marker
    above zero the call returns the storage as it is, and running it twice
    equals running it once.  A first run (marker unset or zero) stamps the
    marker with 1, deletes ["groupstore"] and the ["A-<id>"] list of every
    legacy record, and leaves in ["groupmap"] a record for every legacy id
    (the id and label of the legacy record, its paths turned into resource
    descriptors, no children, no parent) next to the records that were
    already there under other ids; no other key of the storage changes. *)
Theorem migrateStorageV1_runs_once st :
  ((getValue_number st "storeversion" 0 > 0)%Z → migrateStorageV1 st = st)
  ∧ migrateStorageV1 (migrateStorageV1 st) = migrateStorageV1 st
  ∧ (¬ (getValue_number st "storeversion" 0 > 0)%Z →
     let st' := migrateStorageV1 st in
     st' !! "storeversion" = Some (VNumber 1)
     ∧ st' !! "groupstore" = None
     ∧ (∀ r, r ∈ legacy_records st → st' !! legacy_key (dep_id r) = None)
     ∧ (∃ gs, st' !! "groupmap" = Some (VGroupStore gs) ∧ NoDup gs.*1)
     ∧ (∀ i, groupmap_get st' i
             = match last (filter (λ r, dep_id r = i) (legacy_records st)) with
               | Some r => Some (converted st r)
               | None => groupmap_get st i
               end)
     ∧ (∀ r, r ∈ legacy_records st → NoDup (dep_id <$> legacy_records st) →
             groupmap_get st' (dep_id r) = Some (converted st r))
     ∧ (∀ k, k ≠ "storeversion" → k ≠ "groupstore" → k ≠ "groupmap" →
             (∀ r, r ∈ legacy_records st → k ≠ legacy_key (dep_id r)) →
             st' !! k = st !! k)).
Proof.
  assert ((getValue_number st "storeversion" 0 > 0)%Z → migrateStorageV1 st = st)
    as Hskip.
  { intros Hv. unfold migrateStorageV1. by rewrite bool_decide_eq_true_2. }
  assert (¬ (getValue_number st "storeversion" 0 > 0)%Z →
          migrateStorageV1 st !! "storeversion" = Some (VNumber 1)) as Hstamp.
  { intros Hv. unfold migrateStorageV1. rewrite bool_decide_eq_false_2 by done.
    apply lookup_insert_eq. }
  split; [done|]. split.
  { destruct (decide (getValue_number st "storeversion" 0 > 0)%Z) as [Hv|Hv].
    - by rewrite !Hskip.
    - unfold migrateStorageV1 at 1. rewrite bool_decide_eq_true_2; [done|].
      unfold getValue_number. by rewrite (Hstamp Hv). }
  intros Hv st'. split; [by apply Hstamp|].
  subst st'. unfold migrateStorageV1. rewrite bool_decide_eq_false_2 by done.
  unfold setValue, deleteValue.
  set (srcMap := new_Map (Object_entries (getValue_DeprecateGroupStore st "groupstore" []))).
  set (dstMap := new_Map (Object_entries (getValue_GroupStore st "groupmap" []))).
  set (dstMap' := foldl _ dstMap srcMap).
  assert (NoDup dstMap'.*1) as Hnd.
  { apply (conversion_loop_NoDup st dstMap srcMap), new_Map_NoDup. }
  assert (∀ i, dict dstMap' !! i
               = match last (filter (λ r, dep_id r = i) srcMap.*2) with
                 | Some r => Some (converted st r)
                 | None => dict dstMap !! i
                 end) as Hloop.
  { intros i. apply (conversion_loop_dict st dstMap srcMap i). }
  set (st1 := <["groupmap" := VGroupStore (Object_fromEntries dstMap')]> st).
  set (st2 := foldl _ st1 srcMap).
  assert (∀ k, st2 !! k
               = if decide (k ∈ (λ e, legacy_key (dep_id e.2)) <$> srcMap)
                 then None else st1 !! k) as Hst2.
  { intros k. apply (fold_delete_lookup (λ e, legacy_key (dep_id e.2))). }
  assert (<["storeversion" := VNumber 1]> (delete "groupstore" st2) !! "groupmap"
          = Some (VGroupStore (Object_fromEntries dstMap'))) as Hgm.
  { rewrite lookup_insert_ne, lookup_delete_ne, Hst2 by done.
    rewrite decide_False by (apply fixed_key_not_legacy; auto).
    apply lookup_insert_eq. }
  split_and!.
  - rewrite lookup_insert_ne by done. apply lookup_delete_eq.
  - intros r Hr. destruct (legacy_key_not_fixed (dep_id r)) as (? & ? & ?).
    rewrite lookup_insert_ne, lookup_delete_ne, Hst2 by done.
    rewrite decide_True; [done|].
    apply list_elem_of_fmap in Hr as ([k r'] & -> & Hr).
    apply list_elem_of_fmap. by exists (k, r').
  - eexists. split; [exact Hgm|]. by apply Object_fromEntries_NoDup.
  - intros i. unfold groupmap_get, getValue_GroupStore. rewrite Hgm.
    unfold Object_entries. rewrite new_Map_id by by apply Object_fromEntries_NoDup.
    rewrite !jsmap_get_dict, Object_fromEntries_dict by done. apply Hloop.
  - intros r Hr Hnodup. unfold groupmap_get, getValue_GroupStore. rewrite Hgm.
    unfold Object_entries. rewrite new_Map_id by by apply Object_fromEntries_NoDup.
    rewrite !jsmap_get_dict, Object_fromEntries_dict, Hloop by done.
    change (srcMap.*2) with (legacy_records st).
    by rewrite (filter_unique_id (legacy_records st) r).
  - intros k Hk1 Hk2 Hk3 Hk. rewrite lookup_insert_ne, lookup_delete_ne, Hst2 by done.
    rewrite decide_False.
    + subst st1. by rewrite lookup_insert_ne.
    + intros ([k' r] & -> & Hin)%list_elem_of_fmap. apply (Hk r); [|done].
      apply list_elem_of_fmap. by exists (k', r).
Qed.

End MigrationFacts.

(** A storage written by the deprecated format: two legacy groups with
    their path lists, next to one record already in the current format. *)
Definition legacy_storage : StorageService (string * string) :=
  {[ "groupstore" :=
       VDeprecateGroupStore [ ("g1", mkDeprecateGroupRecord "g1" "One");
                              ("g2", mkDeprecateGroupRecord "g2" "Two") ];
     "A-g1" := VPaths ["file:///w/a.ts"; "file:///w/b.ts"];
     "A-g2" := VPaths [];
     "groupmap" := VGroupStore [("g0", mkGroupRecord "g0" "Zero" [] None None)] ]}.

Lemma migrateStorageV1_runs_once_witness :
  let st' := migrateStorageV1 (Uri := SampleUri) legacy_storage in
  st' !! "storeversion" = Some (VNumber 1)
  ∧ st' !! "groupstore" = None
  ∧ st' !! "A-g1" = None
  ∧ groupmap_get st' "g1"
    = Some (mkGroupRecord "g1" "One"
              [("file:///w/a.ts", "file:///w/a.ts"); ("file:///w/b.ts", "file:///w/b.ts")]
              None None)
  ∧ groupmap_get st' "g0" = Some (mkGroupRecord "g0" "Zero" [] None None)
  ∧ migrateStorageV1 (Uri := SampleUri) st' = st'.
Proof.
  intros st'.
  destruct (migrateStorageV1_runs_once (Uri := SampleUri) legacy_storage)
    as (_ & _ & Hfirst).
  destruct Hfirst as (Hv & Hgs & Hkeys & _ & Hget & _ & _).
  { vm_compute. discriminate. }
  destruct (migrateStorageV1_runs_once (Uri := SampleUri) st') as (Hskip & _ & _).
  split_and!.
  - exact Hv.
  - exact Hgs.
  - apply (Hkeys (mkDeprecateGroupRecord "g1" "One")).
    change (mkDeprecateGroupRecord "g1" "One"
              ∈ [mkDeprecateGroupRecord "g1" "One"; mkDeprecateGroupRecord "g2" "Two"]).
    by left.
  - etrans; [apply (Hget "g1")|reflexivity].
  - etrans; [apply (Hget "g0")|reflexivity].
  - apply Hskip. subst st'. unfold getValue_number. rewrite Hv. reflexivity.
Defined.

(* ===================================================================== *)
(** * loadAll and reloadProvider                                           *)
(* ===================================================================== *)

Section LoadFacts.
Context {Uri : Type} `{!VscodeUri Uri} `{!Uuid}.
Implicit Types (m : GroupManager Uri) (g : Group Uri)
  (P : FileFocusStorageProvider Uri).

(** The provider answers [loadRootNodes] with one new root group [g] that
    has no child groups. *)
Definition contributes_root P g : Prop :=
  (∀ h, loadRootNodes P h = (h ++ [g], [length h]))
  ∧ parentGroup g = None ∧ _childGroups g = [].

(** The manager after the group [g], stored at the next free reference,
    has been merged for the provider [pid]. *)
Definition merged_root (pid : string) g m : GroupManager Uri :=
  mkGroupManager (heap m ++ [g])
    (<[id g := length (heap m)]> (root m))
    (<[id g := length (heap m)]> (rootGroups m))
    (<[id g := pid]> (storageMap m))
    (_pinnedGroupId m) (_storageProvider m) (calls m).


Lemma mergeProvider_root fuel P g m :
  contributes_root P g →
  mergeProvider (S fuel) P m = Some (merged_root (provider_id P) g m).
Proof.
  intros (Hload & Hparent & Hchildren). unfold mergeProvider. rewrite Hload.
  cbn [foldl mbind option_bind addGroupToMemory]. unfold isRootGroup, childGroups.
  mgr_simpl. rewrite !list_lookup_total_middle by done.
  rewrite Hparent, bool_decide_eq_true_2 by done. mgr_simpl.
  rewrite !list_lookup_total_middle by done. rewrite Hchildren.
  reflexivity.
Qed.





End LoadFacts.

Section ReloadFrame.
Context {Uri : Type} `{!VscodeUri Uri} `{!Uuid}.
Implicit Types (m : GroupManager Uri) (g : Group Uri)
  (P : FileFocusStorageProvider Uri).

Lemma jsmap_get_cons {V} (k k' : string) (v : V) (l : JsMap V) :
  jsmap_get k ((k', v) :: l) = if decide (k' = k) then Some v else jsmap_get k l.
Proof.
  rewrite !jsmap_get_dict. unfold dict. rewrite list_to_map_cons.
  destruct (decide (k' = k)) as [->|Hne].
  - apply lookup_insert_eq.
  - by apply lookup_insert_ne.
Qed.



(** The state [loadAll] reaches when two providers contribute the root
    groups [g1] and [g2]. *)
Definition loaded_two m P1 g1 P2 g2 : GroupManager Uri :=
  merged_root (provider_id P2) g2
    (merged_root (provider_id P1) g1
       (with_rootGroups (λ _, ∅) (with_root (λ _, ∅) m))).

Lemma loadAll_two fuel m P1 g1 P2 g2 :
  0 < fuel →
  _storageProvider m = [(provider_id P1, P1); (provider_id P2, P2)] →
  contributes_root P1 g1 → contributes_root P2 g2 →
  loadAll fuel m = Some (loaded_two m P1 g1 P2 g2).
Proof.
  intros Hfuel Hsp H1 H2. destruct fuel as [|fuel]; [lia|].
  unfold loadAll. rewrite Hsp. cbn [foldl mbind option_bind snd].
  rewrite (mergeProvider_root fuel P1 g1) by done. cbn [mbind option_bind].
  by rewrite (mergeProvider_root fuel P2 g2).
Qed.


End ReloadFrame.

Definition group_alpha : Group SampleUri :=
  mkGroup (makeGroupId "Alpha") "Alpha" false None [file_a] [].

(** Two providers, each answering with one root group. *)
Definition provider_alpha : FileFocusStorageProvider SampleUri :=
  mkProvider "statestorage" (λ h, (h ++ [group_alpha], [length h])).



(* ===================================================================== *)
(** * The registry invariants of the data model                            *)
(* ===================================================================== *)

Section Registry.
Context {Uri : Type} `{!VscodeUri Uri} `{!Uuid}.
Implicit Types (m : GroupManager Uri) (h : Heap Uri) (r c p : ref).

Definition ids h (l : list ref) : list string := (λ c, id (h !!! c)) <$> l.

(** The children of [r] are objects of the store with pairwise distinct
    ids, each points back at [r], and each is registered under its id. *)
Definition wf_children m r : bool :=
  bool_decide (NoDup (ids (heap m) (childGroups (heap m) r)))
  && forallb (λ c, bool_decide (c < length (heap m))
                   && bool_decide (parentGroup (heap m !!! c) = Some r)
                   && bool_decide (root m !! id (heap m !!! c) = Some c))
             (childGroups (heap m) r).

(** A parent of [r] is another object of the store, lists [r] among its
    children and is registered under its id. *)
Definition wf_parent m r : bool :=
  match parentGroup (heap m !!! r) with
  | None => true
  | Some p =>
      bool_decide (p < length (heap m)) && bool_decide (p ≠ r)
      && bool_decide (r ∈ childGroups (heap m) p)
      && bool_decide (root m !! id (heap m !!! p) = Some p)
  end.

Definition wf_entry m (e : string * ref) : bool :=
  bool_decide (e.2 < length (heap m))
  && bool_decide (id (heap m !!! e.2) = e.1)
  && bool_decide (is_Some (storageMap m !! e.1))
  && wf_children m e.2 && wf_parent m e.2.

(** The flattened map holds every Group of the forest under its own id,
    with a routing entry, and [parentGroup] agrees with membership in
    [childGroups]. *)
Definition wf_registry m : bool := forallb (wf_entry m) (map_to_list (root m)).

Lemma wf_registry_entry m k r :
  wf_registry m = true → root m !! k = Some r →
  r < length (heap m)
  ∧ id (heap m !!! r) = k
  ∧ is_Some (storageMap m !! k)
  ∧ NoDup (ids (heap m) (childGroups (heap m) r))
  ∧ (∀ c, c ∈ childGroups (heap m) r →
          c < length (heap m) ∧ parentGroup (heap m !!! c) = Some r
          ∧ root m !! id (heap m !!! c) = Some c)
  ∧ (∀ p, parentGroup (heap m !!! r) = Some p →
          p < length (heap m) ∧ p ≠ r ∧ r ∈ childGroups (heap m) p
          ∧ root m !! id (heap m !!! p) = Some p).
Proof.
  intros Hwf Hk. unfold wf_registry in Hwf.
  apply Is_true_true, forallb_True in Hwf. rewrite Forall_forall in Hwf.
  specialize (Hwf (k, r)). unfold wf_entry in Hwf. simpl in Hwf.
  rewrite !andb_True in Hwf.
  destruct Hwf as ((((Hlt & Hid) & Hsm) & Hch) & Hpar);
    [by apply elem_of_map_to_list|].
  apply bool_decide_unpack in Hlt, Hid, Hsm.
  unfold wf_children in Hch. rewrite andb_True in Hch. destruct Hch as [Hnd Hch].
  apply bool_decide_unpack in Hnd. apply forallb_True in Hch.
  rewrite Forall_forall in Hch.
  split_and!; try done.
  - intros c Hc. specialize (Hch c Hc). rewrite !andb_True in Hch.
    destruct Hch as ((H1 & H2) & H3). by apply bool_decide_unpack in H1, H2, H3.
  - intros p Hp. unfold wf_parent in Hpar. rewrite Hp in Hpar.
    rewrite !andb_True in Hpar. destruct Hpar as (((H1 & H2) & H3) & H4).
    by apply bool_decide_unpack in H1, H2, H3, H4.
Qed.

End Registry.

Section TreeFields.
Context {Uri : Type} `{!VscodeUri Uri}.
Implicit Types (h : Heap Uri) (this childGroup x c p : ref).

Lemma parent_alter_children f i h x :
  parentGroup (alter (set_childGroups f) i h !!! x) = parentGroup (h !!! x).
Proof. by apply alter_proj. Qed.

Lemma parent_alter_parent v c h x :
  parentGroup (alter (set_parentGroup v) c h !!! x)
  = if decide (c = x ∧ c < length h) then v else parentGroup (h !!! x).
Proof.
  rewrite list_lookup_total_alter. repeat case_decide; try done; tauto.
Qed.

Lemma removeChildGroup_noop this childGroup h :
  Forall (λ item, id (h !!! item) ≠ id (h !!! childGroup)) (childGroups h this) →
  removeChildGroup this childGroup h = h.
Proof.
  intros Hno. unfold removeChildGroup.
  rewrite bool_decide_eq_true_2; [done|]. by apply findIndex_neg.
Qed.

Lemma removeChildGroup_childGroups_ne this childGroup h x :
  x ≠ this →
  childGroups (removeChildGroup this childGroup h) x = childGroups h x.
Proof.
  intros Hne. unfold removeChildGroup. case_bool_decide; [done|].
  rewrite childGroups_alter_parent, childGroups_alter.
  rewrite decide_False; [done|]. intros [? _]. congruence.
Qed.

Lemma removeChildGroup_parent_ne this childGroup h x :
  x ≠ childGroup →
  parentGroup (removeChildGroup this childGroup h !!! x) = parentGroup (h !!! x).
Proof.
  intros Hne. unfold removeChildGroup. case_bool_decide; [done|].
  rewrite parent_alter_parent, parent_alter_children.
  rewrite decide_False; [done|]. intros [? _]. congruence.
Qed.

(** Among children with pairwise distinct ids, the child that
    [removeChildGroup] finds by id is the child itself. *)
Lemma removeChildGroup_member this childGroup h :
  this < length h → childGroup < length h →
  childGroup ∈ childGroups h this →
  NoDup (ids h (childGroups h this)) →
  ∃ i, childGroups h this !! i = Some childGroup
       ∧ childGroups (removeChildGroup this childGroup h) this
         = delete i (childGroups h this)
       ∧ (childGroup ∉ childGroups (removeChildGroup this childGroup h) this)
       ∧ parentGroup (removeChildGroup this childGroup h !!! childGroup) = None.
Proof.
  intros Hthis Hchild Hin Hnd. unfold removeChildGroup.
  destruct (findIndex_nonneg
              (λ item, id (h !!! item) = id (h !!! childGroup)) (childGroups h this))
    as (i & x & Hi & Hx & Hidx & _).
  { rewrite findIndex_neg, Forall_forall. intros Hall. by apply (Hall childGroup). }
  rewrite bool_decide_eq_false_2 by lia. rewrite Hi.
  apply list_elem_of_lookup_1 in Hin as [j Hj].
  assert (i = j) as ->.
  { eapply NoDup_lookup; [exact Hnd|..]; unfold ids; rewrite list_lookup_fmap.
    - by rewrite Hx.
    - rewrite Hj. simpl. by rewrite Hidx. }
  assert (x = childGroup) as -> by congruence.
  exists j. rewrite childGroups_alter_parent, childGroups_alter.
  rewrite decide_True by done. rewrite splice1_nat.
  split_and!; [done..| |].
  - intros [k Hk]%list_elem_of_lookup_1.
    assert (NoDup (childGroups h this)) as Hnd' by by eapply NoDup_fmap_1.
    destruct (decide (k < j)).
    + rewrite list_lookup_delete_lt in Hk by done.
      assert (k = j) by by eapply NoDup_lookup. lia.
    + rewrite list_lookup_delete_ge in Hk by lia.
      assert (S k = j) by by eapply NoDup_lookup. lia.
  - rewrite parent_alter_parent, decide_True; [done|].
    by rewrite length_alter.
Qed.

(** [addChildGroup] of a child whose id is new among the children and
    that has no parent: the child is appended and points at its parent. *)
Lemma addChildGroup_orphan this childGroup h :
  this < length h → childGroup < length h →
  Forall (λ value, id (h !!! value) ≠ id (h !!! childGroup)) (childGroups h this) →
  parentGroup (h !!! childGroup) = None →
  let h' := addChildGroup this childGroup h in
  childGroups h' this = childGroups h this ++ [childGroup]
  ∧ parentGroup (h' !!! childGroup) = Some this
  ∧ (∀ x, x ≠ this → childGroups h' x = childGroups h x)
  ∧ (∀ x, x ≠ childGroup → parentGroup (h' !!! x) = parentGroup (h !!! x)).
Proof.
  intros Hthis Hchild Hno Hpar h'. subst h'. unfold addChildGroup.
  unfold _childGroupContains. rewrite bool_decide_eq_false_2
    by (by apply Forall_Exists_neg).
  rewrite Hpar. split_and!.
  - rewrite childGroups_alter_parent, childGroups_alter. by rewrite decide_True.
  - rewrite parent_alter_parent, decide_True; [done|]. by rewrite length_alter.
  - intros x Hx. rewrite childGroups_alter_parent, childGroups_alter.
    rewrite decide_False; [done|]. intros [? _]. congruence.
  - intros x Hx. rewrite parent_alter_parent, parent_alter_children.
    rewrite decide_False; [done|]. intros [? _]. congruence.
Qed.

End TreeFields.

(** Reads of [childGroups] and [parentGroup] through a stack of field
    updates. *)
Ltac tree_fields :=
  repeat first [ rewrite childGroups_alter_parent | rewrite childGroups_alter
               | rewrite parent_alter_parent | rewrite parent_alter_children
               | rewrite length_alter ];
  repeat case_decide; try done; try (exfalso; intuition congruence).

(* ===================================================================== *)
(** * removeGroup                                                          *)
(* ===================================================================== *)

Section RemoveGroup.
Context {Uri : Type} `{!VscodeUri Uri} `{!Uuid}.
Implicit Types (m : GroupManager Uri) (h : Heap Uri) (g c x : ref).

(** The traversal reads nothing but the child lists of the groups it
    returns and of the group it starts from. *)
Lemma getAllChildGroups_ext n h h' g l :
  getAllChildGroups n h g = Some l →
  (∀ x, x = g ∨ x ∈ l → childGroups h' x = childGroups h x) →
  getAllChildGroups n h' g = Some l.
Proof.
  revert g l. induction n as [|n IH]; intros g l; [done|].
  intros (subs & Hall & ->)%getAllChildGroups_Some Hsame.
  apply getAllChildGroups_Some. exists subs.
  rewrite (Hsame g) by by left. split; [|done].
  pose proof (Forall2_length _ _ _ Hall) as Hlen.
  apply Forall2_same_length_lookup_2; [done|]. intros i c sub Hc Hs.
  apply IH; [exact (Forall2_lookup_lr _ _ _ _ _ _ Hall Hc Hs)|].
  intros x Hx. apply Hsame. right.
  apply elem_of_concat_zip; [done|]. exists i, c, sub.
  split_and!; [done..|]. destruct Hx as [->|Hx]; auto.
Qed.

(** In a well-formed registry every descendant of a registered group is
    registered under its own id. *)
Lemma wf_descendant_registered m r x :
  wf_registry m = true → descendant (heap m) r x →
  ∀ k, root m !! k = Some r → root m !! id (heap m !!! x) = Some x.
Proof.
  intros Hwf Hd. induction Hd as [a b Hab|a b z Hab Hbz IH]; intros k Hk.
  - destruct (wf_registry_entry m k a Hwf Hk) as (_ & _ & _ & _ & Hch & _).
    by destruct (Hch b Hab) as (_ & _ & ?).
  - destruct (wf_registry_entry m k a Hwf Hk) as (_ & _ & _ & _ & Hch & _).
    destruct (Hch b Hab) as (_ & _ & Hb). by eapply IH.
Qed.

(** Detaching a registered group from its parent does not change what the
    traversal of the group returns. *)
Lemma getAllChildGroups_detached m (gid : string) g p fuel l :
  wf_registry m = true → root m !! gid = Some g →
  getAllChildGroups fuel (heap m) g = Some l →
  getAllChildGroups fuel (removeChildGroup p g (heap m)) g = Some l.
Proof.
  intros Hwf Hg Hl.
  destruct (wf_registry_entry m gid g Hwf Hg) as (_ & Hid & _).
  assert (g ∉ l) as Hgl.
  { intros Hin. apply (getAllChildGroups_sound _ _ _ _ _ Hl) in Hin.
    apply (getAllChildGroups_cycle fuel) in Hin. congruence. }
  assert (∀ x, x ∈ l → id (heap m !!! x) ≠ id (heap m !!! g)) as Hids.
  { intros x Hx Hxid.
    pose proof (getAllChildGroups_sound _ _ _ _ _ Hl Hx) as Hd.
    pose proof (wf_descendant_registered m g x Hwf Hd gid Hg) as Hreg.
    rewrite Hxid, Hid, Hg in Hreg. congruence. }
  eapply getAllChildGroups_ext; [done|]. intros x Hx.
  destruct (decide (x = p)) as [->|Hne];
    [|by apply removeChildGroup_childGroups_ne].
  rewrite removeChildGroup_noop; [done|].
  apply Forall_forall. intros y Hy. apply Hids.
  eapply getAllChildGroups_complete; [done|].
  destruct Hx as [->|Hx]; [by apply tc_once|].
  eapply tc_r; [|exact Hy]. by eapply getAllChildGroups_sound.
Qed.

(** When the traversal returns exactly two groups, they are two. *)
Lemma two_descendants_distinct m (gid : string) g c1 c2 fuel :
  wf_registry m = true → root m !! gid = Some g →
  getAllChildGroups fuel (heap m) g = Some [c1; c2] →
  c1 ≠ c2.
Proof.
  intros Hwf Hg Hl. destruct fuel as [|n]; [done|].
  pose proof Hl as (subs & Hall & Hcat)%getAllChildGroups_Some.
  destruct (wf_registry_entry m gid g Hwf Hg) as (_ & _ & _ & Hnd & _).
  destruct (childGroups (heap m) g) as [|a [|b cs]] eqn:Hcs;
    inversion Hall as [|? s1 ? subs1 Ha Hall1]; subst; simplify_eq/=.
  - rewrite app_nil_r in *. subst s1. intros ->.
    assert (descendant (heap m) c2 c2) as Hcyc.
    { eapply getAllChildGroups_sound; [exact Ha|]. by left. }
    apply (getAllChildGroups_cycle n) in Hcyc. congruence.
  - inversion Hall1 as [|? s2 ? subs2 Hb Hall2]; subst; simplify_eq/=.
    destruct s1 as [|? s1]; simplify_eq/=.
    + intros ->. unfold ids in Hnd. simpl in Hnd.
      apply NoDup_cons in Hnd as [Hnin _]. apply Hnin. by left.
    + destruct s1; simplify_eq/=.
Qed.

Lemma size_delete_Some {A} (M : gmap string A) (k : string) :
  is_Some (M !! k) → S (size (delete k M)) = size M.
Proof.
  intros [v Hv]. rewrite <- (insert_id M k v) at 2 by done.
  rewrite <- insert_delete_eq.
  by rewrite map_size_insert_None by apply lookup_delete_eq.
Qed.

Lemma size_delete_three {A} (M : gmap string A) (k1 k2 k3 : string) :
  k1 ≠ k2 → k1 ≠ k3 → k2 ≠ k3 →
  is_Some (M !! k1) → is_Some (M !! k2) → is_Some (M !! k3) →
  size (delete k3 (delete k2 (delete k1 M))) + 3 = size M.
Proof.
  intros H12 H13 H23 H1 H2 H3.
  rewrite <- (size_delete_Some M k1) by done.
  rewrite <- (size_delete_Some (delete k1 M) k2) by by rewrite lookup_delete_ne.
  rewrite <- (size_delete_Some (delete k2 (delete k1 M)) k3)
    by by rewrite !lookup_delete_ne.
  lia.
Qed.

(** C6.  [removeGroup] of an id that is not registered returns the manager
    as it is.  For a registered group [g] of a well-formed registry, owned
    by a registered provider, whose traversal returns exactly the two
    descendants [c1] and [c2]: [removeGroup] returns; the flattened map and
    the routing table each lose exactly the three entries of [c1], [c2]
    and [g]; and exactly three [deleteGroupId] calls are issued, all on
    the owning provider, for [c1], [c2] and [g] in this order. *)
Theorem removeGroup_three_entries m (gid : string) (fuel : nat) :
  (root m !! gid = None → removeGroup fuel gid m = Some m)
  ∧ (∀ g c1 c2 provider,
       wf_registry m = true →
       root m !! gid = Some g →
       providerFor m gid = Some provider →
       getAllChildGroups fuel (heap m) g = Some [c1; c2] →
       ∃ m', removeGroup fuel gid m = Some m'
         ∧ root m' = delete gid (delete (id (heap m !!! c2))
                       (delete (id (heap m !!! c1)) (root m)))
         ∧ storageMap m' = delete gid (delete (id (heap m !!! c2))
                             (delete (id (heap m !!! c1)) (storageMap m)))
         ∧ size (root m') + 3 = size (root m)
         ∧ size (storageMap m') + 3 = size (storageMap m)
         ∧ calls m' = calls m ++
             [ Call_deleteGroupId (provider_id provider) (id (heap m !!! c1));
               Call_deleteGroupId (provider_id provider) (id (heap m !!! c2));
               Call_deleteGroupId (provider_id provider) gid ]).
Proof.
  split.
  { intros Hnone. unfold removeGroup. by rewrite Hnone. }
  intros g c1 c2 provider Hwf Hg Hprov Hl.
  pose proof (two_descendants_distinct m gid g c1 c2 fuel Hwf Hg Hl) as Hc12.
  destruct (wf_registry_entry m gid g Hwf Hg) as (_ & Hid & Hsg & _).
  assert (∀ x, x ∈ [c1; c2] →
            root m !! id (heap m !!! x) = Some x ∧ x ≠ g) as Hdesc.
  { intros x Hx. pose proof (getAllChildGroups_sound _ _ _ _ _ Hl Hx) as Hd. split.
    - by eapply wf_descendant_registered.
    - intros ->. apply (getAllChildGroups_cycle fuel) in Hd. congruence. }
  destruct (Hdesc c1) as [Hr1 Hg1]; [by left|].
  destruct (Hdesc c2) as [Hr2 Hg2]; [by right; left|].
  set (i1 := id (heap m !!! c1)) in *. set (i2 := id (heap m !!! c2)) in *.
  assert (i1 ≠ i2) as H12 by (intros Heq; rewrite Heq in Hr1; congruence).
  assert (i1 ≠ gid) as H1g by (intros Heq; rewrite Heq in Hr1; congruence).
  assert (i2 ≠ gid) as H2g by (intros Heq; rewrite Heq in Hr2; congruence).
  destruct (wf_registry_entry m i1 c1 Hwf Hr1) as (_ & _ & Hs1 & _).
  destruct (wf_registry_entry m i2 c2 Hwf Hr2) as (_ & _ & Hs2 & _).
  unfold removeGroup. rewrite Hg, Hprov.
  remember (match parentGroup (heap m !!! g) with
            | Some p => with_heap (removeChildGroup p g) m
            | None => with_rootGroups (delete gid) m
            end) as m1 eqn:Hm1.
  assert (root m1 = root m ∧ storageMap m1 = storageMap m ∧ calls m1 = calls m
          ∧ (∀ x, id (heap m1 !!! x) = id (heap m !!! x))
          ∧ getAllChildGroups fuel (heap m1) g = Some [c1; c2])
    as (Hroot1 & Hsm1 & Hcalls1 & Hids1 & Hl1).
  { rewrite Hm1. destruct (parentGroup (heap m !!! g)) as [p|]; mgr_simpl.
    - split_and!; try done.
      + intros x. apply payload_id, removeChildGroup_payload.
      + by eapply getAllChildGroups_detached.
    - by split_and!. }
  rewrite Hl1. cbn [mbind option_bind foldl]. unfold deleteGroupId_if. mgr_simpl.
  eexists. split; [reflexivity|]. mgr_simpl.
  rewrite !Hids1, Hroot1, Hsm1, Hcalls1. fold i1 i2.
  split_and!; try done.
  - apply size_delete_three; [done..| | |]; by eexists.
  - by apply size_delete_three.
  - by rewrite <- !app_assoc.
Qed.

End RemoveGroup.

(** A root group ["p"] with the chain ["g"], ["c1"], ["c2"] below it. *)
Definition nested_manager : GroupManager SampleUri :=
  mkGroupManager
    [ mkGroup "p" "P" false None [] [1];
      mkGroup "g" "G" false (Some 0) [file_a] [2];
      mkGroup "c1" "C1" false (Some 1) [file_b] [3];
      mkGroup "c2" "C2" false (Some 2) [file_c] [] ]
    {[ "p" := 0; "g" := 1; "c1" := 2; "c2" := 3 ]}
    {[ "p" := 0 ]}
    {[ "p" := "statestorage"; "g" := "statestorage";
       "c1" := "statestorage"; "c2" := "statestorage" ]}
    ""
    [("statestorage", empty_provider "statestorage")]
    [].

Lemma nested_manager_wf : wf_registry nested_manager = true.
Proof. vm_compute. reflexivity. Qed.

Lemma removeGroup_three_entries_witness :
  removeGroup 3 "ghost" nested_manager = Some nested_manager
  ∧ ∃ m', removeGroup 3 "g" nested_manager = Some m'
      ∧ size (root m') + 3 = size (root nested_manager)
      ∧ size (storageMap m') + 3 = size (storageMap nested_manager)
      ∧ calls m' = [ Call_deleteGroupId "statestorage" "c1";
                     Call_deleteGroupId "statestorage" "c2";
                     Call_deleteGroupId "statestorage" "g" ].
Proof.
  split.
  - apply (removeGroup_three_entries nested_manager "ghost" 3). reflexivity.
  - destruct (removeGroup_three_entries nested_manager "g" 3) as [_ Hcascade].
    destruct (Hcascade 1 2 3 (empty_provider "statestorage"))
      as (m' & Hm' & _ & _ & Hsize & Hsize' & Hcalls).
    + exact nested_manager_wf.
    + reflexivity.
    + reflexivity.
    + reflexivity.
    + exists m'. split_and!; done.
Defined.

(* ===================================================================== *)
(** * renameGroup                                                          *)
(* ===================================================================== *)

(** The fields of a Group that [addResource] does not write. *)
Definition structure {Uri} (g : Group Uri)
  : string * string * bool * option ref * list ref :=
  (id g, name g, readonly g, parentGroup g, _childGroups g).

Section CopyLoops.
Context {Uri : Type} `{!VscodeUri Uri}.
Implicit Types (h : Heap Uri) (this dst src c x : ref) (us acc : list Uri).

(** What a run of [addResource] over [us] leaves in a resource list that
    starts as [acc]. *)
Definition addResources acc us : list Uri :=
  foldl (λ acc u,
           if bool_decide (Exists (λ value, fsPath value = fsPath u) acc)
           then acc else acc ++ [u])
        acc us.

Lemma addResource_length this (u : Uri) h : length (addResource this u h) = length h.
Proof. unfold addResource. destruct (_resourceContains _ _ _); [done|apply length_alter]. Qed.

Lemma addResource_structure this (u : Uri) h x :
  structure (addResource this u h !!! x) = structure (h !!! x).
Proof.
  unfold addResource. destruct (_resourceContains _ _ _); [done|].
  by apply alter_proj.
Qed.

Lemma addResource_resources this (u : Uri) h :
  this < length h →
  resources (addResource this u h) this = addResources (resources h this) [u].
Proof.
  intros Hlt. unfold addResource, _resourceContains, addResources. simpl.
  case_bool_decide; [done|]. by rewrite resources_alter_eq.
Qed.

Lemma copy_resources this us h :
  this < length h →
  let h' := foldl (λ h0 uri, addResource this uri h0) h us in
  length h' = length h
  ∧ resources h' this = addResources (resources h this) us
  ∧ ∀ x, structure (h' !!! x) = structure (h !!! x).
Proof.
  revert h. induction us as [|u us IH]; intros h Hlt; cbn [foldl]; [done|].
  destruct (IH (addResource this u h)) as (Hlen & Hres & Hstr).
  { by rewrite addResource_length. }
  split_and!.
  - by rewrite Hlen, addResource_length.
  - by rewrite Hres, addResource_resources.
  - intros x. by rewrite Hstr, addResource_structure.
Qed.

Lemma addResources_app acc us vs :
  addResources acc (us ++ vs) = addResources (addResources acc us) vs.
Proof. unfold addResources. apply foldl_app. Qed.

Lemma addResources_keeps acc us (v : Uri) : v ∈ acc → v ∈ addResources acc us.
Proof.
  revert acc. induction us as [|u us IH]; intros acc Hv; [done|].
  cbn [addResources foldl]. apply IH. case_bool_decide; [done|].
  apply elem_of_app. by left.
Qed.

(** Every resource that is copied is represented by a resource with the
    same file-system path. *)
Lemma addResources_covers acc us (u : Uri) :
  u ∈ us → ∃ v, v ∈ addResources acc us ∧ fsPath v = fsPath u.
Proof.
  revert acc. induction us as [|u' us IH]; intros acc; [by intros ?%elem_of_nil|].
  intros [->|Hin]%elem_of_cons; [|by apply IH].
  cbn [addResources foldl]. case_bool_decide as Hex.
  - apply Exists_exists in Hex as (v & Hv & Hfs). exists v.
    split; [|done]. by apply addResources_keeps.
  - exists u'. split; [|done]. apply addResources_keeps, elem_of_app. right. by left.
Qed.

(** Without two resources of the same file-system path, the copy is the
    original list. *)
Lemma addResources_NoDup acc us :
  NoDup (fsPath <$> (acc ++ us)) → addResources acc us = acc ++ us.
Proof.
  revert acc. induction us as [|u us IH]; intros acc Hnd.
  - by rewrite app_nil_r.
  - cbn [addResources foldl]. rewrite bool_decide_eq_false_2.
    + fold (addResources (acc ++ [u]) us). rewrite IH; rewrite <- app_assoc; done.
    + intros (v & Hv & Hfs)%Exists_exists.
      rewrite fmap_app, fmap_cons in Hnd. apply NoDup_app in Hnd as (_ & Hdis & _).
      apply (Hdis (fsPath v)); [by apply list_elem_of_fmap_2|].
      rewrite Hfs. by left.
Qed.

(** One round of the loop that moves the children of [src] to [dst]: the
    first remaining child of [src] goes to the end of the children of
    [dst]. *)
Lemma addChildGroup_adopt h dst src c (rest : list ref) :
  dst < length h → src < length h → c < length h →
  c ≠ dst → c ≠ src → dst ≠ src →
  childGroups h src = c :: rest →
  parentGroup (h !!! c) = Some src →
  Forall (λ value, id (h !!! value) ≠ id (h !!! c)) (childGroups h dst) →
  let h1 := addChildGroup dst c h in
  childGroups h1 dst = childGroups h dst ++ [c]
  ∧ childGroups h1 src = rest
  ∧ parentGroup (h1 !!! c) = Some dst
  ∧ (∀ x, x ≠ c → parentGroup (h1 !!! x) = parentGroup (h !!! x))
  ∧ (∀ x, x ≠ dst → x ≠ src → childGroups h1 x = childGroups h x).
Proof.
  intros Hdst Hsrc Hc Hcd Hcs Hds Hch Hpar Hnew h1. subst h1.
  unfold addChildGroup, _childGroupContains.
  rewrite bool_decide_eq_false_2 by by apply Forall_Exists_neg.
  rewrite Hpar. unfold removeChildGroup.
  assert (findIndex (λ item, id (h !!! item) = id (h !!! c)) (childGroups h src) = 0%Z)
    as ->.
  { rewrite Hch. unfold findIndex. cbn [list_find]. by rewrite decide_True. }
  rewrite bool_decide_eq_false_2 by lia.
  split_and!; intros; tree_fields.
  by rewrite Hch.
Qed.

Lemma ids_payload h h' (l : list ref) :
  (∀ x, payload (h' !!! x) = payload (h !!! x)) → ids h' l = ids h l.
Proof.
  intros Hp. unfold ids. apply list_fmap_ext. intros _ x _. apply payload_id, Hp.
Qed.

(** The loop of [renameGroup] that moves every child of [src] to [dst]. *)
Lemma adopt_children h dst src (done_ todo : list ref) :
  dst < length h → src < length h → dst ≠ src →
  childGroups h dst = done_ → childGroups h src = todo →
  NoDup (ids h (done_ ++ todo)) →
  (∀ c, c ∈ todo →
        c < length h ∧ c ≠ dst ∧ c ≠ src ∧ parentGroup (h !!! c) = Some src) →
  let h' := foldl (λ h0 childGroup, addChildGroup dst childGroup h0) h todo in
  length h' = length h
  ∧ (∀ x, payload (h' !!! x) = payload (h !!! x))
  ∧ childGroups h' dst = done_ ++ todo
  ∧ childGroups h' src = []
  ∧ (∀ c, c ∈ todo → parentGroup (h' !!! c) = Some dst)
  ∧ (∀ x, x ∉ todo → parentGroup (h' !!! x) = parentGroup (h !!! x))
  ∧ (∀ x, x ≠ dst → x ≠ src → childGroups h' x = childGroups h x).
Proof.
  revert h done_. induction todo as [|c todo IH];
    intros h done_ Hdst Hsrc Hds Hdone Htodo Hnd Hall; cbn [foldl].
  { rewrite app_nil_r. split_and!; try done. by intros c ?%elem_of_nil. }
  destruct (Hall c) as (Hc & Hcd & Hcs & Hpar); [by left|].
  assert (NoDup (done_ ++ c :: todo)) as Hnd' by by eapply NoDup_fmap_1.
  destruct (addChildGroup_adopt h dst src c todo) as (H1 & H2 & H3 & H4 & H5);
    try done.
  { rewrite Hdone. apply Forall_forall. intros v Hv Hid.
    unfold ids in Hnd. rewrite fmap_app, fmap_cons in Hnd.
    apply NoDup_app in Hnd as (_ & Hdis & _).
    apply (Hdis (id (h !!! v))); [by apply (list_elem_of_fmap_2 (λ c0, id (h !!! c0)))|].
    rewrite Hid. by left. }
  set (h1 := addChildGroup dst c h) in *.
  assert (∀ x, payload (h1 !!! x) = payload (h !!! x)) as Hp1
    by (intros x; apply addChildGroup_payload).
  assert (length h1 = length h) as Hl1 by apply addChildGroup_length.
  assert (c ∉ todo) as Hct.
  { apply NoDup_app in Hnd' as (_ & _ & Hnd'). by apply NoDup_cons in Hnd' as [? _]. }
  destruct (IH h1 (done_ ++ [c])) as (I1 & I2 & I3 & I4 & I5 & I6 & I7).
  - by rewrite Hl1.
  - by rewrite Hl1.
  - done.
  - by rewrite H1, Hdone.
  - done.
  - rewrite (ids_payload h h1) by done. by rewrite <- app_assoc.
  - intros c' Hc'. destruct (Hall c') as (? & ? & ? & ?); [by right|].
    rewrite Hl1. split_and!; try done. rewrite H4; [done|]. by intros ->.
  - split_and!.
    + by rewrite I1.
    + intros x. by rewrite I2.
    + by rewrite I3, <- app_assoc.
    + done.
    + intros c' [->|Hc']%elem_of_cons; [|by apply I5]. by rewrite I6.
    + intros x Hx. rewrite I6 by (intros ?; apply Hx; by right).
      apply H4. intros ->. apply Hx. by left.
    + intros x Hxd Hxs. rewrite I7 by done. by apply H5.
Qed.

End CopyLoops.

Section RenameGroup.
Context {Uri : Type} `{!VscodeUri Uri} `{!Uuid}.
Implicit Types (m : GroupManager Uri) (h : Heap Uri) (src dst c p x : ref).

Lemma structure_fields (g g' : Group Uri) :
  structure g = structure g' →
  id g = id g' ∧ name g = name g' ∧ readonly g = readonly g'
  ∧ parentGroup g = parentGroup g' ∧ _childGroups g = _childGroups g'.
Proof. unfold structure. intros [= -> -> -> -> ->]. done. Qed.

Lemma payload_fields (g g' : Group Uri) :
  payload g = payload g' →
  id g = id g' ∧ name g = name g' ∧ readonly g = readonly g'
  ∧ _resource g = _resource g'.
Proof. unfold payload. intros [= -> -> -> ->]. done. Qed.

(** The store after [new Group(newGroupId)] and the two assignments to
    [dst.name] and [dst.readonly]. *)
Lemma rename_allocate h (newGroupId newName : string) (b : bool) :
  alter (set_readonly b) (length h)
    (alter (set_name newName) (length h) (h ++ [new_Group newGroupId]))
  = h ++ [mkGroup newGroupId newName b None [] []].
Proof.
  rewrite !alter_app_r_alt by (rewrite ?length_app; lia).
  by rewrite Nat.sub_diag.
Qed.

(** C1.  In a well-formed registry, for a registered group [g] whose
    provider is registered and a new name whose derived id is not
    registered, after [renameGroup(g.id, newName)]: the flattened map has
    no entry for [g.id]; under the derived id it holds a new Group object,
    named [newName], with the [readonly] flag of [g], with the direct
    resources of [g] (every resource is there up to its file-system path,
    and the list is the same when [g] holds no two resources of the same
    path) and with the former children of [g] as its children, each of
    which points at the new Group as its parent; the former parent of [g],
    if any, lists the new Group and not [g]; and if [g] was a root, the
    new Group is in the root set under the derived id and [g.id] is not. *)
Theorem renameGroup_replaces m (gid newName : string) src provider :
  wf_registry m = true →
  root m !! gid = Some src →
  providerFor m gid = Some provider →
  root m !! makeGroupId newName = None →
  let h := heap m in
  let dst := length (heap m) in
  let m' := renameGroup gid newName m in
  let h' := heap m' in
  root m' !! gid = None
  ∧ root m' !! makeGroupId newName = Some dst
  ∧ heap m !! dst = None
  ∧ storageMap m' !! gid = None
  ∧ storageMap m' !! makeGroupId newName = Some (provider_id provider)
  ∧ id (h' !!! dst) = makeGroupId newName
  ∧ name (h' !!! dst) = newName
  ∧ readonly (h' !!! dst) = readonly (h !!! src)
  ∧ resources h' dst = addResources [] (resources h src)
  ∧ (∀ u, u ∈ resources h src → ∃ v, v ∈ resources h' dst ∧ fsPath v = fsPath u)
  ∧ (NoDup (fsPath <$> resources h src) → resources h' dst = resources h src)
  ∧ childGroups h' dst = childGroups h src
  ∧ (∀ c, c ∈ childGroups h src → parentGroup (h' !!! c) = Some dst)
  ∧ parentGroup (h' !!! dst) = parentGroup (h !!! src)
  ∧ (∀ p, parentGroup (h !!! src) = Some p →
          dst ∈ childGroups h' p ∧ src ∉ childGroups h' p)
  ∧ (parentGroup (h !!! src) = None →
       rootGroups m' !! gid = None ∧ rootGroups m' !! makeGroupId newName = Some dst).
Proof.
  intros Hwf Hsrc Hprov Hnew h dst m' h'.
  destruct (wf_registry_entry m gid src Hwf Hsrc)
    as (Hlt & Hid & _ & Hnd & Hch & Hpar).
  assert (gid ≠ makeGroupId newName) as Hgn by (intros Heq; congruence).
  assert (src ≠ dst) as Hsd by (subst dst; lia).
  (* the store after the allocation of [dst] *)
  set (h1 := alter (set_name newName) dst (h ++ [new_Group (makeGroupId newName)])).
  set (h2 := alter (set_readonly (readonly (h1 !!! src))) dst h1).
  assert (h2 = h ++ [mkGroup (makeGroupId newName) newName (readonly (h !!! src))
                       None [] []]) as Hh2.
  { subst h2 h1 dst. rewrite rename_allocate. do 4 f_equal.
    rewrite list_lookup_total_alter_ne by done.
    by apply lookup_total_app_l. }
  assert (length h2 = S (length h)) as Hl2.
  { rewrite Hh2, length_app. simpl. lia. }
  assert (∀ x, x < length h → h2 !!! x = h !!! x) as Hold2.
  { intros x Hx. rewrite Hh2. by apply lookup_total_app_l. }
  assert (h2 !!! dst = mkGroup (makeGroupId newName) newName (readonly (h !!! src))
                         None [] []) as Hdst2.
  { rewrite Hh2. subst dst. by apply list_lookup_total_middle. }
  assert (resources h2 src = resources h src) as Hrs2.
  { unfold resources. by rewrite Hold2. }
  (* the store after the resources have been copied *)
  set (h3 := foldl (λ h0 uri, addResource dst uri h0) h2 (resources h2 src)).
  destruct (copy_resources dst (resources h2 src) h2) as (Hl3 & Hres3 & Hstr3).
  { rewrite Hl2. subst dst h. lia. }
  fold h3 in Hl3, Hres3, Hstr3. rewrite Hrs2 in Hres3.
  assert (resources h2 dst = []) as Hrd2 by exact (f_equal _resource Hdst2).
  rewrite Hrd2 in Hres3.
  assert (∀ x, x < length h → structure (h3 !!! x) = structure (h !!! x)) as Hold3.
  { intros x Hx. by rewrite Hstr3, Hold2. }
  assert (∀ x, x < length h → childGroups h3 x = childGroups h x) as Hch3.
  { intros x Hx. unfold childGroups.
    by destruct (structure_fields _ _ (Hold3 x Hx)) as (_ & _ & _ & _ & ->). }
  assert (∀ x, x < length h → parentGroup (h3 !!! x) = parentGroup (h !!! x)) as Hpa3.
  { intros x Hx.
    by destruct (structure_fields _ _ (Hold3 x Hx)) as (_ & _ & _ & -> & _). }
  assert (∀ x, x < length h → id (h3 !!! x) = id (h !!! x)) as Hid3.
  { intros x Hx. by destruct (structure_fields _ _ (Hold3 x Hx)) as (-> & _). }
  destruct (structure_fields _ _ (Hstr3 dst)) as (Hdid3 & Hdname3 & Hdro3 & Hdpa3 & Hdch3).
  rewrite Hdst2 in Hdid3, Hdname3, Hdro3, Hdpa3, Hdch3.
  cbn [id name readonly parentGroup _childGroups] in Hdid3, Hdname3, Hdro3, Hdpa3, Hdch3.
  (* the store after the children have been moved *)
  set (h4 := foldl (λ h0 childGroup, addChildGroup dst childGroup h0) h3
                   (childGroups h3 src)).
  destruct (adopt_children h3 dst src [] (childGroups h3 src))
    as (Hl4 & Hpay4 & Hchd4 & Hchs4 & Hpar4 & Hparo4 & Hcho4).
  { rewrite Hl3, Hl2. subst dst h. lia. }
  { rewrite Hl3, Hl2. subst h. lia. }
  { done. }
  { exact Hdch3. }
  { done. }
  { simpl. rewrite Hch3 by done. unfold ids. erewrite list_fmap_ext; [exact Hnd|].
    intros i c Hc. apply list_elem_of_lookup_2, Hch in Hc as (Hc & _).
    by apply Hid3. }
  { intros c Hc. rewrite Hch3 in Hc by done. destruct (Hch c Hc) as (Hclt & Hcp & _).
    rewrite Hl3, Hl2. split_and!.
    - subst h. lia.
    - subst dst h. lia.
    - intros ->. destruct (Hpar src Hcp) as (_ & ? & _). done.
    - by rewrite Hpa3. }
  fold h4 in Hl4, Hpay4, Hchd4, Hchs4, Hpar4, Hparo4, Hcho4. simpl in Hchd4.
  rewrite Hch3 in Hchd4, Hpar4, Hparo4 by done.
  assert (src ∉ childGroups h src) as Hself.
  { intros Hin. destruct (Hch src Hin) as (_ & Hp & _).
    destruct (Hpar src Hp) as (_ & ? & _). done. }
  assert (parentGroup (h4 !!! src) = parentGroup (h !!! src)) as Hps4.
  { by rewrite Hparo4, Hpa3. }
  assert (payload (h4 !!! dst)
          = (makeGroupId newName, newName, readonly (h !!! src),
             addResources [] (resources h src))) as Hpd4.
  { rewrite Hpay4. unfold payload. rewrite Hdid3, Hdname3, Hdro3.
    unfold resources in Hres3. by rewrite Hres3. }
  assert (parentGroup (h4 !!! dst) = None) as Hpd4'.
  { rewrite Hparo4, Hdpa3; [done|]. intros Hin. apply Hch in Hin as (? & _).
    subst dst h. lia. }
  (* the manager after the last steps *)
  set (m1 := with_storageMap (delete gid)
               (with_root (delete gid) (with_heap (λ _, h4) m))).
  set (finish := λ m5 : GroupManager Uri,
         saveGroup dst (issue (Call_deleteGroupId (provider_id provider) gid) m5)).
  assert (m' = finish
            (match parentGroup (h4 !!! src) with
             | Some p =>
                 with_heap (addChildGroup p dst)
                   (with_storageMap <[makeGroupId newName := provider_id provider]>
                      (with_root <[makeGroupId newName := dst]>
                         (with_heap (removeChildGroup p src) m1)))
             | None =>
                 with_rootGroups <[makeGroupId newName := dst]>
                   (with_storageMap <[makeGroupId newName := provider_id provider]>
                      (with_root <[makeGroupId newName := dst]>
                         (with_rootGroups (delete gid) m1)))
             end)) as Hm'.
  { subst m'. unfold renameGroup. rewrite Hprov, Hsrc. cbv zeta.
    unfold isRootGroup. mgr_simpl.
    repeat match goal with
           | |- context [parentGroup (?T !!! src)] => progress change T with h4
           end.
    destruct (parentGroup (h4 !!! src)) as [p|] eqn:Hp.
    - rewrite bool_decide_eq_false_2 by done. reflexivity.
    - rewrite bool_decide_eq_true_2 by done. reflexivity. }
  assert (∀ m5, heap (finish m5) = heap m5 ∧ root (finish m5) = root m5
                ∧ rootGroups (finish m5) = rootGroups m5
                ∧ storageMap (finish m5) = storageMap m5) as Hfin.
  { intros m5. subst finish. cbv beta.
    by destruct (saveGroup_fields dst
                   (issue (Call_deleteGroupId (provider_id provider) gid) m5))
      as (-> & -> & -> & -> & _). }
  assert (heap m !! dst = None) as Hfresh by by apply lookup_ge_None_2.
  (* what is left to show about the final store *)
  assert (payload (h' !!! dst) = payload (h4 !!! dst)
          ∧ childGroups h' dst = childGroups h src
          ∧ (∀ c, c ∈ childGroups h src → parentGroup (h' !!! c) = Some dst)
          ∧ parentGroup (h' !!! dst) = parentGroup (h !!! src)
          ∧ (∀ p, parentGroup (h !!! src) = Some p →
                  dst ∈ childGroups h' p ∧ src ∉ childGroups h' p)
          ∧ root m' = <[makeGroupId newName := dst]> (delete gid (root m))
          ∧ storageMap m'
            = <[makeGroupId newName := provider_id provider]> (delete gid (storageMap m))
          ∧ (parentGroup (h !!! src) = None →
             rootGroups m'
             = <[makeGroupId newName := dst]> (delete gid (rootGroups m))))
    as (HA & HB & HC & HD & HE & Hroot & Hsm & Hrg).
  { subst h'. rewrite Hm'. rewrite Hps4.
    destruct (parentGroup (h !!! src)) as [p|] eqn:Hp.
    - destruct (Hfin (with_heap (addChildGroup p dst)
                   (with_storageMap <[makeGroupId newName := provider_id provider]>
                      (with_root <[makeGroupId newName := dst]>
                         (with_heap (removeChildGroup p src) m1)))))
        as (-> & -> & -> & ->).
      subst m1. mgr_simpl.
      destruct (Hpar p Hp) as (Hplt & Hps & Hsp & Hpreg).
      destruct (wf_registry_entry m _ p Hwf Hpreg) as (_ & _ & _ & Hndp & Hchp & _).
      assert (p ≠ dst) as Hpd by (subst dst h; lia).
      assert (∀ x, x < length h → id (h4 !!! x) = id (h !!! x)) as Hid4.
      { intros x Hx. rewrite (payload_id _ _ (Hpay4 x)). by apply Hid3. }
      assert (childGroups h4 p = childGroups h p) as Hch4p.
      { rewrite Hcho4 by done. by apply Hch3. }
      destruct (removeChildGroup_member p src h4)
        as (i & Hi & Hch5p & Hnot5 & Hps5).
      { rewrite Hl4, Hl3, Hl2. subst h. lia. }
      { rewrite Hl4, Hl3, Hl2. subst h. lia. }
      { by rewrite Hch4p. }
      { rewrite Hch4p. unfold ids. erewrite list_fmap_ext; [exact Hndp|].
        intros j c Hc. apply list_elem_of_lookup_2, Hchp in Hc as (Hc & _).
        by apply Hid4. }
      set (h5 := removeChildGroup p src h4) in *.
      assert (length h5 = length h4) as Hl5 by apply removeChildGroup_length.
      destruct (addChildGroup_orphan p dst h5) as (Hch6p & Hpd6 & Hcho6 & Hpao6).
      { rewrite Hl5, Hl4, Hl3, Hl2. subst h. lia. }
      { rewrite Hl5, Hl4, Hl3, Hl2. subst dst h. lia. }
      { rewrite Hch5p, Hch4p. apply Forall_forall. intros c Hc%list_elem_of_delete_inv.
        destruct (Hchp c Hc) as (Hclt & _ & Hcreg).
        subst h5. rewrite !(payload_id _ _ (removeChildGroup_payload _ _ _ _)).
        rewrite Hid4 by done. rewrite (payload_id _ _ (Hpay4 dst)), Hdid3.
        intros Heq. fold h in Hcreg. rewrite Heq in Hcreg. congruence. }
      { subst h5. rewrite removeChildGroup_parent_ne by done. exact Hpd4'. }
      set (h6 := addChildGroup p dst h5) in *.
      split_and!.
      + subst h6 h5. by rewrite addChildGroup_payload, removeChildGroup_payload.
      + rewrite Hcho6 by done. subst h5.
        by rewrite removeChildGroup_childGroups_ne.
      + intros c Hc. destruct (Hch c Hc) as (Hclt & _).
        rewrite Hpao6 by (subst dst h; lia). subst h5.
        rewrite removeChildGroup_parent_ne by (by intros ->). by apply Hpar4.
      + done.
      + intros p' [= <-]. rewrite Hch6p. split.
        * apply elem_of_app. right. by left.
        * intros [?|?%list_elem_of_singleton]%elem_of_app; done.
      + done.
      + done.
      + done.
    - destruct (Hfin (with_rootGroups <[makeGroupId newName := dst]>
                   (with_storageMap <[makeGroupId newName := provider_id provider]>
                      (with_root <[makeGroupId newName := dst]>
                         (with_rootGroups (delete gid) m1)))))
        as (-> & -> & -> & ->).
      subst m1. mgr_simpl. split_and!; try done. }
  destruct (payload_fields (h' !!! dst)
              (mkGroup (makeGroupId newName) newName (readonly (h !!! src)) None
                       (addResources [] (resources h src)) [])
              (eq_trans HA Hpd4)) as (Hi' & Hn' & Hro' & Hre').
  cbn [id name readonly _resource] in Hi', Hn', Hro', Hre'.
  split_and!; try done.
  - rewrite Hroot. by rewrite lookup_insert_ne, lookup_delete_eq.
  - rewrite Hroot. apply lookup_insert_eq.
  - rewrite Hsm. by rewrite lookup_insert_ne, lookup_delete_eq.
  - rewrite Hsm. apply lookup_insert_eq.
  - intros u Hu. unfold resources at 1. rewrite Hre'.
    by apply addResources_covers.
  - intros Hnodup. unfold resources at 1. rewrite Hre'.
    by apply (addResources_NoDup []).
  - intros Hp. rewrite (Hrg Hp). split.
    + by rewrite lookup_insert_ne, lookup_delete_eq.
    + apply lookup_insert_eq.
Qed.




End RenameGroup.

Lemma renameGroup_replaces_witness :
  let m' := renameGroup "g" "Renamed" nested_manager in
  root m' !! "g" = None
  ∧ root m' !! makeGroupId "Renamed" = Some 4
  ∧ name (heap m' !!! 4) = "Renamed"
  ∧ resources (heap m') 4 = [file_a]
  ∧ childGroups (heap m') 4 = [2]
  ∧ parentGroup (heap m' !!! 2) = Some 4
  ∧ 4 ∈ childGroups (heap m') 0
  ∧ 1 ∉ childGroups (heap m') 0.
Proof.
  destruct (renameGroup_replaces nested_manager "g" "Renamed" 1
              (empty_provider "statestorage"))
    as (Hold & Hnew & _ & _ & _ & _ & Hname & _ & _ & _ & Hres & Hch & Hpar & _ & Hp & _).
  - exact nested_manager_wf.
  - reflexivity.
  - reflexivity.
  - reflexivity.
  - destruct (Hp 0) as [Hin Hnot]; [reflexivity|].
    split_and!.
    + exact Hold.
    + exact Hnew.
    + exact Hname.
    + apply Hres. vm_compute. repeat constructor. by intros ?%elem_of_nil.
    + exact Hch.
    + apply Hpar. change (2 ∈ [2]). by left.
    + exact Hin.
    + exact Hnot.
Defined.

(* ===================================================================== *)
(** * Saving a Group tree and loading it back                              *)
(* ===================================================================== *)

(** A Group tree as a value: what a root Group and the Groups below it
    hold, without the references. *)
Inductive GroupTree {Uri : Type} :=
| GNode (tid tname : string) (treadonly : bool) (tresources : list Uri)
        (tchildren : list GroupTree).
Arguments GroupTree : clear implicits.

(** What the claim compares: ids, names, the string forms of the
    resources in their order, and the children in their order. *)
Inductive TreeView :=
| VNode (vid vname : string) (vresources : list string) (vchildren : list TreeView).

Section Trees.
Context {Uri Resource : Type} `{!VscodeUri Uri} `{!FocusUtil Uri Resource}.
Implicit Types (t : GroupTree Uri) (h : Heap Uri) (r : ref) (parent : option ref).

Definition tree_id t : string := match t with GNode i _ _ _ _ => i end.
Definition tree_children t : list (GroupTree Uri) :=
  match t with GNode _ _ _ _ kids => kids end.

Fixpoint tree_view t : TreeView :=
  match t with
  | GNode i n _ res kids => VNode i n (toString <$> res) (tree_view <$> kids)
  end.

Fixpoint height t : nat :=
  match t with
  | GNode _ _ _ _ kids => S (foldr (λ k acc, height k `max` acc) 0 kids)
  end.

(** The ids of the tree, in pre-order. *)
Fixpoint tree_ids t : list string :=
  match t with
  | GNode i _ _ _ kids => i :: concat (tree_ids <$> kids)
  end.

(** The resource lists of the groups of the tree. *)
Fixpoint tree_resources t : list (list Uri) :=
  match t with
  | GNode _ _ _ res kids => res :: concat (tree_resources <$> kids)
  end.

(** The store [h] holds the tree [t] at [r], below the parent [parent]:
    the fields of the object at [r] are those of the root of [t], and its
    children hold the subtrees and point back at [r]. *)
Inductive holds h : option ref → ref → GroupTree Uri → Prop :=
| holds_node parent r i n ro res kids :
    r < length h →
    id (h !!! r) = i → name (h !!! r) = n → readonly (h !!! r) = ro →
    resources h r = res →
    parentGroup (h !!! r) = parent →
    Forall2 (holds h (Some r)) (childGroups h r) kids →
    holds h parent r (GNode i n ro res kids).

(** [FocusUtil] gives a Uri back from its descriptor, with the same
    string form and the same file-system path. *)
Definition roundtrips (u : Uri) : Prop :=
  ∃ u', resourceToUri (uriToResource u) = Some u'
        ∧ toString u' = toString u ∧ fsPath u' = fsPath u.

(** The data model's invariants on a tree: ids are unique across the tree
    and not empty, and no group holds two resources of the same path. *)
Definition wf_tree t : Prop :=
  NoDup (tree_ids t)
  ∧ Forall (λ i, i ≠ "") (tree_ids t)
  ∧ Forall (λ res, NoDup (fsPath <$> res) ∧ Forall roundtrips res) (tree_resources t).

(** The record [createGroupRecord] builds for a tree below the parent id
    [pid]. *)
Fixpoint record_of (pid : option string) t : GroupRecord Resource :=
  match t with
  | GNode i n _ res kids =>
      mkGroupRecord i n (uriToResource <$> res)
        (if bool_decide (0 < length kids)
         then Some (record_of (Some i) <$> kids) else None)
        pid
  end.

(** The entries [saveGroupRecordRecursive] writes for a tree. *)
Fixpoint nodes (pid : option string) t : list (string * GroupRecord Resource) :=
  match t with
  | GNode i n ro res kids =>
      (i, record_of pid (GNode i n ro res kids))
        :: concat (nodes (Some i) <$> kids)
  end.

(** The resources [createGroupFromRecord] gives a Group for the stored
    descriptors. *)
Definition loaded_resources (rs : list Resource) : list Uri :=
  addResources [] (omap resourceToUri rs).

(** The Group object [createGroupFromRecord] builds. *)
Definition bare (record : GroupRecord Resource) : Group Uri :=
  mkGroup (rec_id record) (rec_name record) false None
          (loaded_resources (rec_resources record)) [].

(** The tree that loading gives back for [t]. *)
Fixpoint reloaded t : GroupTree Uri :=
  match t with
  | GNode i n _ res kids =>
      GNode i n false (loaded_resources (uriToResource <$> res)) (reloaded <$> kids)
  end.

(** The child records of a record. *)
Definition kids (record : GroupRecord Resource) : list (GroupRecord Resource) :=
  default [] (rec_childGroups record).

End Trees.

Section TreeInduction.
Context {Uri : Type}.

(** Induction on a tree with the hypothesis for every child. *)
Lemma GroupTree_rect' (P : GroupTree Uri → Prop) :
  (∀ i n ro res kids, Forall P kids → P (GNode i n ro res kids)) →
  ∀ t, P t.
Proof.
  intros Hnode. fix IH 1. intros [i n ro res kids]. apply Hnode.
  induction kids as [|k kids IHk]; constructor; [apply IH|apply IHk].
Qed.

End TreeInduction.

Section SaveFacts.
Context {Uri Resource : Type} `{!VscodeUri Uri} `{!FocusUtil Uri Resource}.
Implicit Types (t : GroupTree Uri) (h : Heap Uri) (r : ref) (parent : option ref)
  (sm : JsMap (GroupRecord Resource)).

Lemma nodes_keys (pid : option string) t : (nodes pid t).*1 = tree_ids t.
Proof.
  revert pid. induction t as [i n ro res kids IH] using GroupTree_rect'; intros pid.
  cbn [nodes tree_ids]. rewrite fmap_cons. f_equal. clear n ro res.
  induction IH as [|k kids Hk _ IHkids]; [done|].
  cbn. rewrite fmap_app, Hk. f_equal. exact IHkids.
Qed.

Lemma height_child t k : k ∈ tree_children t → height k < height t.
Proof.
  destruct t as [i n ro res kids]. simpl. intros Hin.
  induction kids as [|k' kids IH]; [by apply elem_of_nil in Hin|].
  apply elem_of_cons in Hin as [->|Hin]; simpl; [lia|].
  specialize (IH Hin). lia.
Qed.

Lemma collect_records (n : nat) h (cs : list ref)
  (recs acc : list (GroupRecord Resource)) :
  Forall2 (λ c rec, createGroupRecord n h c = Some rec) cs recs →
  foldl (λ acc childGroup,
           records ← acc;
           r ← createGroupRecord n h childGroup;
           Some (records ++ [r]))
        (Some acc) cs
  = Some (acc ++ recs).
Proof.
  intros Hall. revert acc. induction Hall as [|c rec cs recs Hc _ IH]; intros acc.
  - by rewrite app_nil_r.
  - cbn [foldl mbind option_bind]. rewrite Hc. cbn [mbind option_bind].
    rewrite IH. by rewrite <- app_assoc.
Qed.

(** [createGroupRecord] on a store that holds a tree returns the record
    of that tree, given fuel for the height of the tree. *)
Lemma createGroupRecord_holds t h parent r (fuel : nat) :
  holds h parent r t → height t < fuel →
  createGroupRecord fuel h r
  = Some (record_of ((λ p, id (h !!! p)) <$> parent) t).
Proof.
  revert parent r fuel.
  induction t as [i n ro res kids IH] using GroupTree_rect'; intros parent r fuel Hh Hf.
  destruct fuel as [|fuel]; [lia|].
  inversion Hh as [? ? ? ? ? ? ? Hlt Hid Hname Hro Hres Hpar Hkids]; subst.
  cbn [createGroupRecord].
  rewrite (collect_records fuel h (childGroups h r)
             (record_of (Some (id (h !!! r))) <$> kids) []).
  - cbn [mbind option_bind app record_of]. rewrite length_fmap. reflexivity.
  - apply Forall2_fmap_r.
    assert (Forall (λ k, height k < fuel) kids) as Hheights.
    { apply Forall_forall. intros k Hk.
      pose proof (height_child (GNode (id (h !!! r)) (name (h !!! r))
                                  (readonly (h !!! r)) (resources h r) kids) k Hk).
      lia. }
    clear Hf Hh. induction Hkids as [|c k cs ks Hck _ IHk]; constructor.
    + apply Forall_cons in IH as [IHk0 _]. apply Forall_cons in Hheights as [Hk0 _].
      by apply (IHk0 (Some r) c fuel).
    + apply Forall_cons in IH as [_ IH]. apply Forall_cons in Hheights as [_ Hks].
      by apply IHk.
Qed.

Lemma save_children (pid : option string) (ks : list (GroupTree Uri)) sm :
  Forall (λ k, ∀ pid sm, NoDup (sm.*1 ++ tree_ids k) →
               saveGroupRecordRecursive sm (record_of pid k) = sm ++ nodes pid k) ks →
  NoDup (sm.*1 ++ concat (tree_ids <$> ks)) →
  foldl (λ sm0 childRecord, saveGroupRecordRecursive sm0 childRecord) sm
        (record_of pid <$> ks)
  = sm ++ concat (nodes pid <$> ks).
Proof.
  intros IH. revert sm. induction IH as [|k ks Hk _ IHks]; intros sm Hnd.
  - cbn. by rewrite app_nil_r.
  - cbn [fmap list_fmap foldl concat] in *. rewrite Hk.
    + rewrite IHks; [by rewrite <- app_assoc|].
      rewrite fmap_app, nodes_keys, <- app_assoc. exact Hnd.
    + rewrite app_assoc in Hnd. by apply NoDup_app in Hnd as (? & _).
Qed.

(** On a store map whose keys are not ids of the tree, and for a tree
    with distinct ids, [saveGroupRecordRecursive] appends the entries of
    the tree in pre-order. *)
Lemma saveGroupRecordRecursive_nodes t (pid : option string) sm :
  NoDup (sm.*1 ++ tree_ids t) →
  saveGroupRecordRecursive sm (record_of pid t) = sm ++ nodes pid t.
Proof.
  revert pid sm. induction t as [i n ro res ks IH] using GroupTree_rect'.
  intros pid sm Hnd. cbn [tree_ids] in Hnd.
  assert (i ∉ sm.*1) as Hi.
  { apply NoDup_app in Hnd as (_ & Hdis & _). intros Hin.
    apply (Hdis i Hin). by left. }
  assert (NoDup ((sm.*1 ++ [i]) ++ concat (tree_ids <$> ks))) as Hnd'.
  { rewrite <- app_assoc. exact Hnd. }
  cbn [record_of saveGroupRecordRecursive rec_id rec_childGroups nodes].
  rewrite jsmap_set_fresh by done.
  destruct (decide (0 < length ks)) as [Hlen|Hlen].
  - rewrite !bool_decide_eq_true_2 by done.
    rewrite (save_children (Some i) ks); [by rewrite <- app_assoc|done|].
    rewrite fmap_app. exact Hnd'.
  - rewrite !bool_decide_eq_false_2 by done.
    destruct ks; [|simpl in Hlen; lia]. reflexivity.
Qed.

End SaveFacts.

Section LoadPass1.
Context {Uri Resource : Type} `{!VscodeUri Uri} `{!FocusUtil Uri Resource}.
Implicit Types (h : Heap Uri) (es : JsMap (GroupRecord Resource)).

Lemma foldl_omap {A B C} (f : B → option C) (g : C → A → A) (a : A) (l : list B) :
  foldl (λ a' x, match f x with Some y => g y a' | None => a' end) a l
  = foldl (λ a' y, g y a') a (omap f l).
Proof.
  revert a. induction l as [|x l IH]; intros a; [done|].
  cbn [foldl omap list_omap]. destruct (f x); cbn [foldl]; apply IH.
Qed.

Lemma alter_same {A} (f : A → A) (i : nat) (l : list A) :
  (∀ x, l !! i = Some x → f x = x) → alter f i l = l.
Proof.
  intros Hf. rewrite <- (list_alter_id (λ x, x) l i) at 2 by done.
  by apply list_alter_ext.
Qed.

Lemma addResource_alter this (u : Uri) h :
  addResource this u h = alter (set_resource (λ l, addResources l [u])) this h.
Proof.
  unfold addResource, _resourceContains, resources.
  case_bool_decide as Hex.
  - symmetry. apply alter_same. intros x Hx.
    rewrite (list_lookup_total_correct _ _ _ Hx) in Hex.
    apply set_resource_id. unfold addResources. simpl.
    by rewrite bool_decide_eq_true_2.
  - apply list_alter_ext; [|done]. intros x Hx.
    rewrite (list_lookup_total_correct _ _ _ Hx) in Hex.
    unfold set_resource, addResources. simpl.
    by rewrite bool_decide_eq_false_2.
Qed.

Lemma foldl_addResource_alter this (us : list Uri) h :
  foldl (λ h0 u, addResource this u h0) h us
  = alter (set_resource (λ l, addResources l us)) this h.
Proof.
  revert h. induction us as [|u us IH]; intros h; cbn [foldl].
  - symmetry. apply list_alter_id. intros g. by apply set_resource_id.
  - rewrite IH, addResource_alter, list_alter_alter_eq.
    apply list_alter_ext; [|done]. intros x _. reflexivity.
Qed.

(** [createGroupFromRecord] appends the bare Group of the record. *)
Lemma createGroupFromRecord_bare (record : GroupRecord Resource) h :
  createGroupFromRecord record h = (h ++ [bare record], length h).
Proof.
  unfold createGroupFromRecord. f_equal.
  rewrite (foldl_omap resourceToUri (λ uri h', addResource (length h) uri h')).
  rewrite foldl_addResource_alter.
  rewrite !alter_app_r_alt by (rewrite ?length_app; lia).
  by rewrite Nat.sub_diag.
Qed.

(** The first pass: one bare Group per entry, in the order of the
    entries, and the table from ids to the new references. *)
Lemma loadRootNodes_pass1_spec es h :
  NoDup es.*1 →
  (∀ k r, (k, r) ∈ es → rec_id r = k) →
  ∃ allGroups,
    loadRootNodes_pass1 es h = (h ++ (bare <$> es.*2), allGroups)
    ∧ (∀ j k r, es !! j = Some (k, r) → allGroups !! k = Some (length h + j))
    ∧ (∀ k x, allGroups !! k = Some x → ∃ j r, es !! j = Some (k, r) ∧ x = length h + j).
Proof.
  induction es as [|[k r] es IH] using rev_ind; intros Hnd Hkey.
  { exists ∅. split_and!.
    - cbn. by rewrite app_nil_r.
    - intros j k r Hj. by rewrite lookup_nil in Hj.
    - intros k x Hk. by rewrite lookup_empty in Hk. }
  rewrite fmap_app in Hnd. apply NoDup_app in Hnd as (Hnd & Hdis & _).
  destruct IH as (AG & Hpass & Hfwd & Hbwd); [done| |].
  { intros k' r' Hin. apply Hkey, elem_of_app. by left. }
  assert (rec_id r = k) as Hrk.
  { apply Hkey, elem_of_app. right. by left. }
  assert (length (h ++ (bare <$> es.*2)) = length h + length es) as Hlen.
  { by rewrite length_app, !length_fmap. }
  exists (<[k := length h + length es]> AG). split_and!.
  - unfold loadRootNodes_pass1 in *. rewrite foldl_app, Hpass. cbn [foldl fst snd].
    rewrite createGroupFromRecord_bare, Hlen.
    rewrite list_lookup_total_middle by done. cbn [bare id].
    rewrite Hrk, !fmap_app, app_assoc. reflexivity.
  - intros j k' r' Hj. apply lookup_app_Some in Hj as [Hj|[Hge Hj]].
    + rewrite lookup_insert_ne; [by eapply Hfwd|]. intros <-.
      apply (Hdis k); [|by left]. apply list_elem_of_fmap. exists (k, r').
      split; [done|]. by eapply list_elem_of_lookup_2.
    + apply list_lookup_singleton_Some in Hj as [Hj [= <- <-]].
      rewrite lookup_insert_eq. f_equal. lia.
  - intros k' x Hk'. apply lookup_insert_Some in Hk' as [[<- <-]|[Hne Hk']].
    + exists (length es), r. split; [|done].
      rewrite lookup_app_r, Nat.sub_diag by done. done.
    + destruct (Hbwd k' x Hk') as (j & r' & Hj & ->). exists j, r'.
      split; [|done]. by apply lookup_app_l_Some.
Qed.

End LoadPass1.

(** The reference that the table built by the first pass gives for an id. *)
Definition refOf (allGroups : gmap string ref) (i : string) : ref :=
  default 0 (allGroups !! i).

Section LoadPass2.
Context {Uri Resource : Type} `{!VscodeUri Uri} `{!FocusUtil Uri Resource}.
Implicit Types (h : Heap Uri) (es : JsMap (GroupRecord Resource))
  (r c : GroupRecord Resource) (k : string) (S ts : list string).

(** [addChildGroup] leaves alone every Group that is neither the parent,
    nor the child, nor the parent the child had. *)
Lemma addChildGroup_elsewhere this childGroup h y :
  y ≠ this → y ≠ childGroup → parentGroup (h !!! childGroup) ≠ Some y →
  childGroups (addChildGroup this childGroup h) y = childGroups h y
  ∧ parentGroup (addChildGroup this childGroup h !!! y) = parentGroup (h !!! y).
Proof.
  intros Hthis Hchild Hold. unfold addChildGroup.
  destruct (_childGroupContains h this childGroup); [done|]. split.
  - rewrite childGroups_alter_parent, childGroups_alter.
    rewrite decide_False by (intros [? _]; congruence).
    destruct (parentGroup (h !!! childGroup)) as [p|]; [|done].
    apply removeChildGroup_childGroups_ne. congruence.
  - rewrite parent_alter_parent, parent_alter_children.
    rewrite decide_False by (intros [? _]; congruence).
    destruct (parentGroup (h !!! childGroup)) as [p|]; [|done].
    by apply removeChildGroup_parent_ne.
Qed.

(** A parent reference found after [addChildGroup] is the new parent or
    was there before. *)
Lemma addChildGroup_parent_of this childGroup h y p :
  parentGroup (addChildGroup this childGroup h !!! y) = Some p →
  p = this ∨ parentGroup (h !!! y) = Some p.
Proof.
  unfold addChildGroup. destruct (_childGroupContains h this childGroup); [by right|].
  rewrite parent_alter_parent, parent_alter_children.
  case_decide; [intros [= <-]; by left|].
  destruct (parentGroup (h !!! childGroup)) as [q|]; [|by right].
  unfold removeChildGroup. case_bool_decide; [by right|].
  rewrite parent_alter_parent, parent_alter_children.
  case_decide; [done|by right].
Qed.

(** The entries of a group store among which the entries with the keys
    [ts] are those of saved trees, whatever their order.  Keys are
    distinct and are the ids of the records.  Among the entries of [ts]:
    the child records of an entry are entries themselves and name the
    entry as their parent; an entry that names a parent is a child record
    of that parent's entry, and the parent id is not empty; sibling ids
    are distinct.  The other entries list no record of [ts] as a child. *)
Record wf_table ts es : Prop := {
  tb_nodup : NoDup es.*1;
  tb_key : ∀ k r, (k, r) ∈ es → rec_id r = k;
  tb_kids : ∀ k r c, (k, r) ∈ es → k ∈ ts → c ∈ kids r →
            (rec_id c, c) ∈ es ∧ rec_id c ∈ ts ∧ rec_parentId c = Some k;
  tb_kids_nodup : ∀ k r, (k, r) ∈ es → k ∈ ts → NoDup (rec_id <$> kids r);
  tb_parent : ∀ k r pi, (k, r) ∈ es → k ∈ ts → rec_parentId r = Some pi →
              pi ≠ "" ∧ pi ∈ ts ∧ ∃ rp, (pi, rp) ∈ es ∧ r ∈ kids rp;
  tb_foreign : ∀ k r c, (k, r) ∈ es → k ∉ ts → c ∈ kids r → rec_id c ∉ ts;
}.

(** The parent reference of the Group of entry [r] once the entries with
    keys [S] have been through the second pass. *)
Definition parent_after (allGroups : gmap string ref) S r : option ref :=
  match rec_parentId r with
  | Some pi => if decide (pi ∈ S) then Some (refOf allGroups pi) else None
  | None => None
  end.

(** The Groups of the entries outside [ts] have their parents, if any,
    among themselves. *)
Definition foreign_parents ts es (base : nat) (h : Heap Uri) : Prop :=
  ∀ j k r p, es !! j = Some (k, r) → k ∉ ts →
    parentGroup (h !!! (base + j)) = Some p →
    ∃ j' k' r', p = base + j' ∧ es !! j' = Some (k', r') ∧ k' ∉ ts.

(** The store once the entries with keys [S] have been through the second
    pass: the Groups of those among them that are in [ts] list their
    children, in the order of the child records, and those children point
    at them. *)
Definition attached ts es (allGroups : gmap string ref) (base : nat) S (h1 h : Heap Uri)
  : Prop :=
  length h = length h1
  ∧ (∀ x, payload (h !!! x) = payload (h1 !!! x))
  ∧ (∀ j k r, es !! j = Some (k, r) → k ∈ ts →
      childGroups h (base + j)
      = (if decide (k ∈ S) then refOf allGroups <$> (rec_id <$> kids r) else [])
      ∧ parentGroup (h !!! (base + j)) = parent_after allGroups S r)
  ∧ foreign_parents ts es base h.

Section Table.
Variables (ts : list string) (es : JsMap (GroupRecord Resource))
  (allGroups : gmap string ref) (base : nat) (h1 : Heap Uri).
Hypothesis Htable : wf_table ts es.
Hypothesis Hlen1 : length h1 = base + length es.
Hypothesis Hbare : ∀ j k r, es !! j = Some (k, r) → h1 !!! (base + j) = bare r.
Hypothesis Hrefs : ∀ j k r, es !! j = Some (k, r) → allGroups !! k = Some (base + j).
Hypothesis Hback : ∀ k x, allGroups !! k = Some x →
                   ∃ j r, es !! j = Some (k, r) ∧ x = base + j.

Lemma table_index k r : (k, r) ∈ es → ∃ j, es !! j = Some (k, r).
Proof. apply list_elem_of_lookup_1. Qed.

Lemma table_same_key j j' k r r' :
  es !! j = Some (k, r) → es !! j' = Some (k, r') → j = j' ∧ r = r'.
Proof.
  intros Hj Hj'.
  assert (j = j') as ->.
  { eapply NoDup_lookup; [apply (tb_nodup ts es Htable)|..];
      rewrite list_lookup_fmap; [by rewrite Hj|by rewrite Hj']. }
  split; [done|]. congruence.
Qed.

Lemma table_refOf j k r : es !! j = Some (k, r) → refOf allGroups k = base + j.
Proof. intros Hj. unfold refOf. by rewrite (Hrefs j k r Hj). Qed.

Lemma table_lt j k r : es !! j = Some (k, r) → base + j < length h1.
Proof. intros Hj%lookup_lt_Some. lia. Qed.

Lemma table_id h j k r :
  (∀ x, payload (h !!! x) = payload (h1 !!! x)) →
  es !! j = Some (k, r) → id (h !!! (base + j)) = k.
Proof.
  intros Hpay Hj. rewrite (payload_id _ _ (Hpay _)), (Hbare j k r Hj).
  cbn [bare id]. apply (tb_key ts es Htable). by eapply list_elem_of_lookup_2.
Qed.

(** The store while the child records [kd] of the entry [(k, r)] of [ts]
    at index [j] have been attached and the rest of its child records
    have not. *)
Definition attaching S (j : nat) k (kd : list (GroupRecord Resource)) (h : Heap Uri)
  : Prop :=
  length h = length h1
  ∧ (∀ x, payload (h !!! x) = payload (h1 !!! x))
  ∧ (∀ j' k' r', es !! j' = Some (k', r') → k' ∈ ts →
      childGroups h (base + j')
      = (if decide (k' = k) then refOf allGroups <$> (rec_id <$> kd)
         else if decide (k' ∈ S) then refOf allGroups <$> (rec_id <$> kids r') else [])
      ∧ parentGroup (h !!! (base + j'))
        = (if decide (k' ∈ rec_id <$> kd) then Some (base + j)
           else parent_after allGroups S r'))
  ∧ foreign_parents ts es base h.

Lemma attachChildren_step S j k r (kd kt : list (GroupRecord Resource)) h :
  es !! j = Some (k, r) → k ∈ ts → k ∉ S → kids r = kd ++ kt →
  attaching S j k kd h →
  attaching S j k (kd ++ kt) (attachChildren allGroups (base + j) kt h).
Proof.
  intros Hj Hkt HkS. revert kd h. induction kt as [|c kt IH]; intros kd h Hkids Hinv.
  { by rewrite app_nil_r. }
  cbn [attachChildren foldl].
  assert (c ∈ kids r) as Hc by (rewrite Hkids; set_solver).
  destruct (tb_kids ts es Htable k r c) as (Hcin & Hcts & Hcpar);
    [by eapply list_elem_of_lookup_2|done..|].
  destruct (table_index _ _ Hcin) as [jc Hjc].
  rewrite (Hrefs jc _ _ Hjc).
  pose proof (tb_kids_nodup ts es Htable k r (list_elem_of_lookup_2 _ _ _ Hj) Hkt)
    as Hnd.
  rewrite Hkids, fmap_app, fmap_cons in Hnd.
  assert (rec_id c ∉ rec_id <$> kd) as Hcnew.
  { apply NoDup_app in Hnd as (_ & Hdis & _). intros Hin. apply (Hdis _ Hin). by left. }
  destruct Hinv as (Hlen & Hpay & Hall & Hfor).
  destruct (Hall j k r Hj Hkt) as [Hchj _].
  destruct (Hall jc _ c Hjc Hcts) as [_ Hpac].
  rewrite decide_True in Hchj by done.
  rewrite decide_False in Hpac by done.
  unfold parent_after in Hpac. rewrite Hcpar, decide_False in Hpac by done.
  destruct (addChildGroup_orphan (base + j) (base + jc) h)
    as (Hch' & Hpa' & Hcho' & Hpao').
  { rewrite Hlen. by eapply table_lt. }
  { rewrite Hlen. by eapply table_lt. }
  { rewrite Hchj, (table_id h jc _ c Hpay Hjc). apply Forall_forall.
    intros v (i & -> & (x & -> & Hx)%list_elem_of_fmap)%list_elem_of_fmap Hid.
    assert (x ∈ kids r) as Hxk by (rewrite Hkids; set_solver).
    destruct (tb_kids ts es Htable k r x) as (Hxin & _ & _);
      [by eapply list_elem_of_lookup_2|done..|].
    destruct (table_index _ _ Hxin) as [jx Hjx].
    rewrite (table_refOf jx _ _ Hjx), (table_id h jx _ x Hpay Hjx) in Hid.
    apply Hcnew. rewrite <- Hid. by apply list_elem_of_fmap_2. }
  { done. }
  replace (kd ++ c :: kt) with ((kd ++ [c]) ++ kt) by by rewrite <- app_assoc.
  apply IH; [by rewrite <- app_assoc|].
  split_and!.
  - by rewrite addChildGroup_length.
  - intros x. by rewrite addChildGroup_payload.
  - intros j' k' r' Hj' Hk't. destruct (Hall j' k' r' Hj' Hk't) as [Hc0 Hp0]. split.
    + destruct (decide (k' = k)) as [->|Hne].
      * destruct (table_same_key _ _ _ _ _ Hj Hj') as [<- <-].
        rewrite Hch', Hchj, !fmap_app. cbn [fmap list_fmap].
        by rewrite (table_refOf jc _ _ Hjc).
      * rewrite Hcho'; [done|]. intros Heq.
        assert (j' = j) as -> by lia. congruence.
    + rewrite fmap_app. cbn [fmap list_fmap].
      destruct (decide (k' = rec_id c)) as [->|Hne].
      * destruct (table_same_key _ _ _ _ _ Hjc Hj') as [<- <-].
        rewrite Hpa', decide_True; [done|set_solver].
      * rewrite Hpao'.
        -- rewrite Hp0. destruct (decide (k' ∈ rec_id <$> kd)) as [Hin|Hnin].
           ++ rewrite decide_True; [done|set_solver].
           ++ rewrite decide_False; [done|set_solver].
        -- intros Heq. assert (j' = jc) as -> by lia. congruence.
  - intros j' k' r' p Hj' Hk't. rewrite Hpao'; [by eapply Hfor|].
    intros Heq. assert (j' = jc) as -> by lia. congruence.
Qed.

(** One round of the second pass, for an entry of [ts] at index [j]. *)
Lemma attached_step S j k r h :
  es !! j = Some (k, r) → k ∈ ts → k ∉ S →
  attached ts es allGroups base S h1 h →
  attached ts es allGroups base (S ++ [k]) h1
    (match rec_childGroups r with
     | Some childRecords => attachChildren allGroups (base + j) childRecords h
     | None => h
     end).
Proof.
  intros Hj Hkt HkS (Hlen & Hpay & Hall & Hfor).
  assert (attaching S j k [] h) as Hstart.
  { split_and!; [done..| |done]. intros j' k' r' Hj' Hk't.
    destruct (Hall j' k' r' Hj' Hk't) as [Hc Hp]. split.
    - destruct (decide (k' = k)) as [->|Hne]; [|done].
      by rewrite Hc, decide_False.
    - rewrite decide_False; [done|]. cbn. apply not_elem_of_nil. }
  assert (attaching S j k (kids r)
            (match rec_childGroups r with
             | Some childRecords => attachChildren allGroups (base + j) childRecords h
             | None => h
             end)) as (Hlen' & Hpay' & Hall' & Hfor').
  { unfold kids. destruct (rec_childGroups r) as [childRecords|] eqn:Hkids.
    - apply (attachChildren_step S j k r [] childRecords h Hj Hkt HkS); [|done].
      unfold kids. by rewrite Hkids.
    - exact Hstart. }
  split_and!; [done..| |done]. intros j' k' r' Hj' Hk't.
  destruct (Hall' j' k' r' Hj' Hk't) as [Hc Hp]. split.
  - rewrite Hc. destruct (decide (k' = k)) as [->|Hne].
    + destruct (table_same_key _ _ _ _ _ Hj Hj') as [_ <-].
      rewrite decide_True; [done|set_solver].
    + destruct (decide (k' ∈ S)) as [Hin|Hnin].
      * rewrite decide_True; [done|set_solver].
      * rewrite decide_False; [done|set_solver].
  - rewrite Hp. unfold parent_after.
    pose proof (list_elem_of_lookup_2 _ _ _ Hj) as Hjin.
    pose proof (list_elem_of_lookup_2 _ _ _ Hj') as Hjin'.
    destruct (decide (k' ∈ rec_id <$> kids r)) as [Hin|Hnin].
    + apply list_elem_of_fmap in Hin as (c & -> & Hc').
      destruct (tb_kids ts es Htable k r c Hjin Hkt Hc') as (Hcin & _ & Hcpar).
      destruct (table_index _ _ Hcin) as [jc Hjc].
      destruct (table_same_key _ _ _ _ _ Hjc Hj') as [_ <-].
      rewrite Hcpar, decide_True by set_solver.
      by rewrite (table_refOf j k r Hj).
    + destruct (rec_parentId r') as [pi|] eqn:Hpi; [|done].
      destruct (decide (pi ∈ S)) as [Hin|Hnin'].
      * rewrite decide_True; [done|set_solver].
      * rewrite decide_False; [done|].
        intros [?|Hx%list_elem_of_singleton]%elem_of_app; [done|]. subst pi.
        destruct (tb_parent ts es Htable k' r' k Hjin' Hk't Hpi)
          as (_ & _ & rp & Hrp & Hr').
        destruct (table_index _ _ Hrp) as [jp Hjp].
        destruct (table_same_key _ _ _ _ _ Hj Hjp) as [_ <-].
        apply Hnin. rewrite <- (tb_key ts es Htable k' r' Hjin').
        by apply list_elem_of_fmap_2.
Qed.

(** Attaching child records to the Group of an entry outside [ts]
    touches Groups of entries outside [ts] only. *)
Lemma attachChildren_foreign S j k r (kt : list (GroupRecord Resource)) h :
  es !! j = Some (k, r) → k ∉ ts →
  (∀ c, c ∈ kt → rec_id c ∉ ts) →
  attached ts es allGroups base S h1 h →
  attached ts es allGroups base S h1 (attachChildren allGroups (base + j) kt h).
Proof.
  intros Hj Hkt. revert h. induction kt as [|c kt IH]; intros h Hkids Hinv; [done|].
  cbn [attachChildren foldl]. apply IH; [set_solver|].
  destruct (allGroups !! rec_id c) as [x|] eqn:Hx; [|done].
  destruct (Hback _ _ Hx) as (jc & rc & Hjc & ->).
  assert (rec_id c ∉ ts) as Hcts by (apply Hkids; by left).
  destruct Hinv as (Hlen & Hpay & Hall & Hfor).
  split_and!.
  - by rewrite addChildGroup_length.
  - intros x. by rewrite addChildGroup_payload.
  - intros j' k' r' Hj' Hk't.
    destruct (addChildGroup_elsewhere (base + j) (base + jc) h (base + j'))
      as [-> ->]; [..|by apply Hall].
    + intros Heq. assert (j' = j) as -> by lia. congruence.
    + intros Heq. assert (j' = jc) as -> by lia. congruence.
    + intros Hp. destruct (Hfor jc _ rc _ Hjc Hcts Hp) as (j'' & k'' & r'' & Heq & Hj'' & Hk'').
      assert (j'' = j') as -> by lia. congruence.
  - intros j' k' r' p Hj' Hk't [->|Hp]%addChildGroup_parent_of.
    + by exists j, k, r.
    + by eapply Hfor.
Qed.

(** One round of the second pass, for an entry outside [ts]. *)
Lemma attached_foreign_step S j k r h :
  es !! j = Some (k, r) → k ∉ ts →
  attached ts es allGroups base S h1 h →
  attached ts es allGroups base (S ++ [k]) h1
    (match rec_childGroups r with
     | Some childRecords => attachChildren allGroups (base + j) childRecords h
     | None => h
     end).
Proof.
  intros Hj Hkt Hinv.
  assert (attached ts es allGroups base S h1
            (match rec_childGroups r with
             | Some childRecords => attachChildren allGroups (base + j) childRecords h
             | None => h
             end)) as (Hlen & Hpay & Hall & Hfor).
  { destruct (rec_childGroups r) as [childRecords|] eqn:Hkids; [|done].
    apply (attachChildren_foreign S j k r childRecords h Hj Hkt); [|done].
    intros c Hc. apply (tb_foreign ts es Htable k r c); [|done|].
    - by eapply list_elem_of_lookup_2.
    - unfold kids. by rewrite Hkids. }
  split_and!; [done..| |done]. intros j' k' r' Hj' Hk't.
  destruct (Hall j' k' r' Hj' Hk't) as [-> ->]. split.
  - destruct (decide (k' ∈ S)) as [Hin|Hnin].
    + rewrite decide_True; [done|set_solver].
    + rewrite decide_False; [done|]. set_solver.
  - unfold parent_after. destruct (rec_parentId r') as [pi|] eqn:Hpi; [|done].
    destruct (tb_parent ts es Htable k' r' pi) as (_ & Hpit & _);
      [by eapply list_elem_of_lookup_2|done..|].
    destruct (decide (pi ∈ S)) as [Hin|Hnin].
    + rewrite decide_True; [done|set_solver].
    + rewrite decide_False; [done|]. set_solver.
Qed.

(** The entries the second pass returns as roots. *)
Definition rootlike (e : string * GroupRecord Resource) : bool :=
  negb (truthy (rec_parentId e.2)).

Lemma pass2_loop todo : ∀ done h groups,
  es = done ++ todo →
  attached ts es allGroups base done.*1 h1 h →
  ∃ h',
    foldl (λ acc e,
             match allGroups !! e.1 with
             | None => acc
             | Some group =>
                 let h' := match rec_childGroups e.2 with
                           | Some childRecords =>
                               attachChildren allGroups group childRecords acc.1
                           | None => acc.1
                           end in
                 (h', if truthy (rec_parentId e.2) then acc.2 else acc.2 ++ [group])
             end) (h, groups) todo
    = (h', groups ++ (refOf allGroups <$> (filter (λ e, rootlike e = true) todo).*1))
    ∧ attached ts es allGroups base es.*1 h1 h'.
Proof.
  induction todo as [|[k r] todo IH]; intros done h groups Hes Hinv.
  { exists h. cbn. rewrite app_nil_r in *. by subst. }
  assert (es !! length done = Some (k, r)) as Hj.
  { rewrite Hes. by rewrite list_lookup_middle. }
  assert (k ∉ done.*1) as Hk.
  { pose proof (tb_nodup ts es Htable) as Hnd. rewrite Hes, fmap_app in Hnd.
    apply NoDup_app in Hnd as (_ & Hdis & _). intros Hin. apply (Hdis _ Hin). by left. }
  cbn [foldl fst snd]. rewrite (Hrefs _ _ _ Hj).
  assert (attached ts es allGroups base (done.*1 ++ [k]) h1
            (match rec_childGroups r with
             | Some childRecords =>
                 attachChildren allGroups (base + length done) childRecords h
             | None => h
             end)) as Hinv'.
  { destruct (decide (k ∈ ts)).
    - by apply attached_step.
    - by apply attached_foreign_step. }
  destruct (IH (done ++ [(k, r)])
              (match rec_childGroups r with
               | Some childRecords =>
                   attachChildren allGroups (base + length done) childRecords h
               | None => h
               end)
              (if truthy (rec_parentId r) then groups
               else groups ++ [base + length done])) as (h' & Hfold & Hfin).
  { by rewrite <- app_assoc. }
  { by rewrite fmap_app. }
  exists h'. split; [|done]. etrans; [exact Hfold|]. f_equal.
  rewrite filter_cons.
  destruct (truthy (rec_parentId r)) eqn:Htruthy.
  - rewrite decide_False; [done|]. unfold rootlike. cbn [snd]. by rewrite Htruthy.
  - rewrite decide_True by (unfold rootlike; cbn [snd]; by rewrite Htruthy).
    rewrite fmap_cons. cbn [fmap list_fmap fst].
    rewrite (table_refOf _ _ _ Hj). by rewrite <- app_assoc.
Qed.

(** The second pass on the output of the first. *)
Lemma loadRootNodes_pass2_spec :
  ∃ h',
    loadRootNodes_pass2 allGroups es h1
    = (h', refOf allGroups <$> (filter (λ e, rootlike e = true) es).*1)
    ∧ attached ts es allGroups base es.*1 h1 h'.
Proof.
  apply (pass2_loop es [] h1 []); [done|]. rewrite fmap_nil.
  split_and!; [done..| |].
  - intros j k r Hj _. rewrite (decide_False (P := k ∈ [])).
    2: { cbn. apply not_elem_of_nil. }
    unfold childGroups. rewrite (Hbare j k r Hj). cbn. split; [done|].
    unfold parent_after. destruct (rec_parentId r); [|done].
    rewrite decide_False; [done|]. apply not_elem_of_nil.
  - intros j k r p Hj _. by rewrite (Hbare j k r Hj).
Qed.

End Table.

End LoadPass2.

Section ListFacts.
Context {A : Type}.

Lemma elem_of_concat (x : A) (ls : list (list A)) :
  x ∈ concat ls ↔ ∃ l, l ∈ ls ∧ x ∈ l.
Proof.
  induction ls as [|l ls IH]; cbn [concat].
  - split; [by intros ?%elem_of_nil|]. by intros (l & ?%elem_of_nil & _).
  - rewrite elem_of_app, IH. split.
    + intros [Hx|(l' & Hl' & Hx)].
      * exists l. split; [by left|done].
      * exists l'. split; [by right|done].
    + intros (l' & [->|Hl']%elem_of_cons & Hx); [by left|]. right. eauto.
Qed.

Lemma NoDup_concat_elem (l : list A) (ls : list (list A)) :
  NoDup (concat ls) → l ∈ ls → NoDup l.
Proof.
  induction ls as [|l' ls IH]; cbn [concat]; [by intros _ ?%elem_of_nil|].
  intros (Hl' & _ & Hls)%NoDup_app [->|Hin]%elem_of_cons; [done|by apply IH].
Qed.

End ListFacts.

Section TableOfTree.
Context {Uri Resource : Type} `{!VscodeUri Uri} `{!FocusUtil Uri Resource}.
Implicit Types (t c : GroupTree Uri) (pid : option string)
  (es : JsMap (GroupRecord Resource)).

(** [within pid t pid' t']: the tree [t'] is [t] or a tree below it, and
    [pid'] is the id of the parent of [t'] ([pid] for [t] itself). *)
Inductive within : option string → GroupTree Uri → option string → GroupTree Uri → Prop :=
| within_here pid t : within pid t pid t
| within_child pid t c pid' t' :
    c ∈ tree_children t → within (Some (tree_id t)) c pid' t' → within pid t pid' t'.

Lemma within_snoc pid t pid' t' c :
  within pid t pid' t' → c ∈ tree_children t' → within pid t (Some (tree_id t')) c.
Proof.
  induction 1 as [pid t|pid t c0 pid' t' Hc0 _ IH]; intros Hc.
  - eapply within_child; [done|constructor].
  - eapply within_child; [done|by apply IH].
Qed.

Lemma within_last pid t pid' t' :
  within pid t pid' t' →
  (pid' = pid ∧ t' = t)
  ∨ ∃ ppid tp, within pid t ppid tp ∧ t' ∈ tree_children tp ∧ pid' = Some (tree_id tp).
Proof.
  induction 1 as [pid t|pid t c0 pid' t' Hc0 _ IH]; [by left|]. right.
  destruct IH as [[-> ->]|(ppid & tp & Hw & Ht' & ->)].
  - exists pid, t. split_and!; [constructor|done..].
  - exists ppid, tp. split_and!; [|done..]. by eapply within_child.
Qed.

Lemma tree_id_in t : tree_id t ∈ tree_ids t.
Proof. destruct t. cbn. by left. Qed.

Lemma tree_ids_child t c i : c ∈ tree_children t → i ∈ tree_ids c → i ∈ tree_ids t.
Proof.
  destruct t as [i0 n ro res ks]. cbn [tree_children tree_ids]. intros Hc Hi.
  right. apply elem_of_concat. exists (tree_ids c). split; [|done].
  by apply list_elem_of_fmap_2.
Qed.

Lemma tree_ids_within pid t pid' t' i :
  within pid t pid' t' → i ∈ tree_ids t' → i ∈ tree_ids t.
Proof.
  induction 1 as [|pid t c pid' t' Hc _ IH]; [done|]. intros Hi.
  eapply tree_ids_child; [done|by apply IH].
Qed.

Lemma NoDup_within pid t pid' t' :
  within pid t pid' t' → NoDup (tree_ids t) → NoDup (tree_ids t').
Proof.
  induction 1 as [|pid t c pid' t' Hc _ IH]; [done|]. intros Hnd. apply IH.
  destruct t as [i0 n ro res ks]. cbn [tree_children tree_ids] in *.
  apply NoDup_cons in Hnd as [_ Hnd].
  eapply NoDup_concat_elem; [done|]. by apply list_elem_of_fmap_2.
Qed.

Lemma child_ids_sublist (ks : list (GroupTree Uri)) :
  tree_id <$> ks `sublist_of` concat (tree_ids <$> ks).
Proof.
  induction ks as [|[i n ro res ks'] ks IH]; [done|].
  cbn [fmap list_fmap concat tree_id tree_ids app].
  constructor. by apply sublist_inserts_l.
Qed.

Lemma rec_id_record_of pid t : rec_id (record_of pid t) = tree_id t.
Proof. by destruct t. Qed.

Lemma rec_parentId_record_of pid t : rec_parentId (record_of pid t) = pid.
Proof. by destruct t. Qed.

Lemma kids_record_of pid t :
  kids (record_of pid t) = record_of (Some (tree_id t)) <$> tree_children t.
Proof.
  destruct t as [i n ro res ks]. unfold kids. cbn [record_of rec_childGroups].
  case_bool_decide as Hlen; [done|]. destruct ks; [done|]. cbn in Hlen. lia.
Qed.

Lemma nodes_head pid t : (tree_id t, record_of pid t) ∈ nodes pid t.
Proof. destruct t. cbn [nodes tree_id]. by left. Qed.

Lemma nodes_child pid t c e :
  c ∈ tree_children t → e ∈ nodes (Some (tree_id t)) c → e ∈ nodes pid t.
Proof.
  destruct t as [i n ro res ks]. cbn [tree_children nodes tree_id]. intros Hc He.
  right. apply elem_of_concat. exists (nodes (Some i) c). split; [|done].
  by apply list_elem_of_fmap_2.
Qed.

(** The entries written for a tree are the records of the trees within
    it. *)
Lemma elem_of_nodes pid t k (r : GroupRecord Resource) :
  (k, r) ∈ nodes pid t ↔
  ∃ pid' t', within pid t pid' t' ∧ k = tree_id t' ∧ r = record_of pid' t'.
Proof.
  split.
  - revert pid. induction t as [i n ro res ks IH] using GroupTree_rect'; intros pid.
    cbn [nodes]. intros [[= -> ->]|Hin]%elem_of_cons.
    + eexists pid, _. split_and!; [constructor|done..].
    + apply elem_of_concat in Hin as (l & (c & -> & Hc)%list_elem_of_fmap & Hin).
      rewrite Forall_forall in IH.
      destruct (IH c Hc _ Hin) as (pid' & t' & Hw & -> & ->).
      exists pid', t'. split_and!; [|done..]. by eapply within_child.
  - intros (pid' & t' & Hw & -> & ->).
    induction Hw as [|pid t c pid' t' Hc _ IH]; [apply nodes_head|].
    by eapply nodes_child.
Qed.

(** The entries written for a root tree with distinct, non-empty ids. *)
Lemma nodes_table t :
  NoDup (tree_ids t) → Forall (λ i, i ≠ "") (tree_ids t) →
  wf_table (tree_ids t) (nodes None t).
Proof.
  intros Hnd Hne. rewrite Forall_forall in Hne. split.
  - by rewrite nodes_keys.
  - intros k r (pid' & t' & _ & -> & ->)%elem_of_nodes. apply rec_id_record_of.
  - intros k r c (pid' & t' & Hw & -> & ->)%elem_of_nodes _.
    rewrite kids_record_of. intros (c' & -> & Hc')%list_elem_of_fmap.
    rewrite rec_id_record_of, rec_parentId_record_of.
    assert ((tree_id c', record_of (Some (tree_id t')) c') ∈ nodes None t) as Hin.
    { apply elem_of_nodes. exists (Some (tree_id t')), c'.
      split_and!; [|done..]. by eapply within_snoc. }
    split_and!; [done| |done].
    rewrite <- (nodes_keys None t). apply list_elem_of_fmap.
    by exists (tree_id c', record_of (Some (tree_id t')) c').
  - intros k r (pid' & t' & Hw & -> & ->)%elem_of_nodes _.
    rewrite kids_record_of, <- list_fmap_compose.
    rewrite (list_fmap_ext _ tree_id (tree_children t')).
    2: { intros ? c _. apply rec_id_record_of. }
    pose proof (NoDup_within _ _ _ _ Hw Hnd) as Hnd'.
    destruct t' as [i n ro res ks]. cbn [tree_children tree_ids] in *.
    apply NoDup_cons in Hnd' as [_ Hnd'].
    exact (sublist_NoDup _ _ Hnd' (child_ids_sublist ks)).
  - intros k r pi (pid' & t' & Hw & -> & ->)%elem_of_nodes _.
    rewrite rec_parentId_record_of. intros ->.
    destruct (within_last _ _ _ _ Hw) as [[[=] _]|(ppid & tp & Hwp & Ht' & [= ->])].
    assert (tree_id tp ∈ tree_ids t) as Hin.
    { eapply tree_ids_within; [done|]. apply tree_id_in. }
    split_and!; [by apply Hne|done|].
    exists (record_of ppid tp). split.
    + apply elem_of_nodes. by exists ppid, tp.
    + rewrite kids_record_of. by apply list_elem_of_fmap_2.
  - intros k r c Hin Hk. destruct Hk. rewrite <- (nodes_keys None t).
    apply list_elem_of_fmap. by exists (k, r).
Qed.

(** A group store that holds the entries of a tree, and whose other
    entries are stored under their ids and list no group of the tree as a
    child. *)
Lemma store_table t es :
  NoDup (tree_ids t) → Forall (λ i, i ≠ "") (tree_ids t) →
  NoDup es.*1 →
  (∀ e, e ∈ nodes None t → e ∈ es) →
  (∀ k r, (k, r) ∈ es → k ∉ tree_ids t →
          rec_id r = k ∧ ∀ child, child ∈ kids r → rec_id child ∉ tree_ids t) →
  wf_table (tree_ids t) es.
Proof.
  intros Hnd Hne Hkeys Hsub Hother.
  destruct (nodes_table t Hnd Hne) as [_ Hkey Hkids Hknd Hpar _].
  assert (∀ k r, (k, r) ∈ es → k ∈ tree_ids t → (k, r) ∈ nodes None t) as Hown.
  { intros k r Hin Hk. rewrite <- (nodes_keys None t) in Hk.
    apply list_elem_of_fmap in Hk as ([k' r'] & -> & Hin'). cbn [fst] in *.
    pose proof (Hsub _ Hin') as Hin''.
    apply list_elem_of_lookup_1 in Hin as [j Hj].
    apply list_elem_of_lookup_1 in Hin'' as [j' Hj'].
    assert (j = j') as ->.
    { eapply NoDup_lookup; [exact Hkeys|..]; rewrite list_lookup_fmap;
        [by rewrite Hj|by rewrite Hj']. }
    congruence. }
  split.
  - done.
  - intros k r Hin. destruct (decide (k ∈ tree_ids t)) as [Hk|Hk].
    + by apply Hkey, Hown.
    + by apply Hother.
  - intros k r c Hin Hk Hc.
    destruct (Hkids k r c (Hown k r Hin Hk) Hk Hc) as (Hcin & Hct & Hcp).
    split_and!; [by apply Hsub|done..].
  - intros k r Hin Hk. by apply (Hknd k r (Hown k r Hin Hk)).
  - intros k r pi Hin Hk Hpi.
    destruct (Hpar k r pi (Hown k r Hin Hk) Hk Hpi) as (Hne' & Hpit & rp & Hrp & Hr).
    split_and!; [done..|]. exists rp. split; [by apply Hsub|done].
  - intros k r c Hin Hk Hc. by apply (Hother k r Hin Hk).
Qed.

End TableOfTree.

Section Reload.
Context {Uri Resource : Type} `{!VscodeUri Uri} `{!FocusUtil Uri Resource}.
Implicit Types (t c : GroupTree Uri) (pid : option string)
  (es : JsMap (GroupRecord Resource)) (h : Heap Uri).

(** The descriptors of a resource list without two resources of one path
    come back, through [resourceToUri] and [addResource], as a list with
    the same string forms. *)
Lemma loaded_resources_view (res : list Uri) :
  NoDup (fsPath <$> res) → Forall roundtrips res →
  toString <$> loaded_resources (uriToResource <$> res) = toString <$> res.
Proof.
  intros Hnd Hrt. unfold loaded_resources.
  set (us := omap resourceToUri (uriToResource <$> res)).
  assert (Forall2 (λ u' u, toString u' = toString u ∧ fsPath u' = fsPath u) us res)
    as Hall.
  { subst us. induction Hrt as [|u res (u' & Hu' & Hs & Hp) _ IH]; [constructor|].
    rewrite fmap_cons. cbn [omap list_omap]. rewrite Hu'.
    constructor; [done|]. apply IH. rewrite fmap_cons in Hnd.
    by apply NoDup_cons in Hnd as [_ Hnd]. }
  assert (fsPath <$> us = fsPath <$> res ∧ toString <$> us = toString <$> res)
    as [Hpaths Hstrings].
  { clearbody us. clear Hnd Hrt.
    induction Hall as [|u' u us res [Hs Hp] _ [IHp IHs]]; [done|].
    rewrite !fmap_cons. split; congruence. }
  rewrite addResources_NoDup; [done|]. cbn [app]. by rewrite Hpaths.
Qed.

Lemma reloaded_view t :
  Forall (λ res, NoDup (fsPath <$> res) ∧ Forall roundtrips res) (tree_resources t) →
  tree_view (reloaded t) = tree_view t.
Proof.
  induction t as [i n ro res ks IH] using GroupTree_rect'.
  cbn [tree_resources reloaded tree_view]. intros Hall.
  apply Forall_cons in Hall as [[Hnd Hrt] Hall].
  rewrite loaded_resources_view by done. f_equal.
  rewrite <- list_fmap_compose. apply list_fmap_ext. intros j c Hc. cbn.
  rewrite Forall_forall in IH. apply IH; [by eapply list_elem_of_lookup_2|].
  rewrite Forall_forall in Hall |- *. intros res' Hres'. apply Hall.
  apply elem_of_concat. exists (tree_resources c). split; [|done].
  apply list_elem_of_fmap_2. by eapply list_elem_of_lookup_2.
Qed.

(** Only the record of the root of a tree has no parent id, when no id
    of the tree is empty. *)
Lemma filter_roots pid t :
  Forall (λ i, i ≠ "") (tree_ids t) →
  filter (λ e : string * GroupRecord Resource, rootlike e = true) (nodes pid t)
  = if truthy pid then [] else [(tree_id t, record_of pid t)].
Proof.
  revert pid. induction t as [i n ro res ks IH] using GroupTree_rect'. intros pid Hne.
  cbn [tree_ids] in Hne. apply Forall_cons in Hne as [Hi Hne].
  assert (filter (λ e : string * GroupRecord Resource, rootlike e = true)
            (concat (nodes (Some i) <$> ks)) = []) as Hrest.
  { induction IH as [|c ks Hc _ IHks]; [done|].
    cbn [fmap list_fmap concat tree_ids] in *. apply Forall_app in Hne as [Hne1 Hne2].
    rewrite filter_app, (Hc _ Hne1), (IHks Hne2). cbn [truthy].
    by rewrite bool_decide_eq_true_2. }
  cbn [nodes]. rewrite filter_cons, Hrest. cbn [tree_id].
  destruct (truthy pid) eqn:Htruthy.
  - rewrite decide_False; [done|]. unfold rootlike.
    cbn [snd record_of rec_parentId]. by rewrite Htruthy.
  - rewrite decide_True; [done|]. unfold rootlike.
    cbn [snd record_of rec_parentId]. by rewrite Htruthy.
Qed.

Section Attached.
Variables (t : GroupTree Uri) (es : JsMap (GroupRecord Resource))
  (allGroups : gmap string ref) (base : nat) (h1 h' : Heap Uri).
Hypothesis Hsub : ∀ e, e ∈ nodes None t → e ∈ es.
Hypothesis Hlen1 : length h1 = base + length es.
Hypothesis Hbare : ∀ j k r, es !! j = Some (k, r) → h1 !!! (base + j) = bare r.
Hypothesis Hrefs : ∀ j k r, es !! j = Some (k, r) → allGroups !! k = Some (base + j).
Hypothesis Hattached : attached (tree_ids t) es allGroups base es.*1 h1 h'.

Lemma within_entry pid' t' :
  within None t pid' t' → ∃ j, es !! j = Some (tree_id t', record_of pid' t').
Proof.
  intros Hw. apply list_elem_of_lookup_1, Hsub.
  apply elem_of_nodes. by exists pid', t'.
Qed.

(** After both passes the store holds, at the references of the table,
    the reloaded form of every tree within [t]. *)
Lemma reload_holds t' : ∀ pid',
  within None t pid' t' →
  holds h' (refOf allGroups <$> pid') (refOf allGroups (tree_id t')) (reloaded t').
Proof.
  induction t' as [i n ro res ks IH] using GroupTree_rect'. intros pid' Hw.
  destruct (within_entry _ _ Hw) as [j Hj].
  assert (tree_id (GNode i n ro res ks) ∈ tree_ids t) as Hit.
  { eapply tree_ids_within; [exact Hw|]. apply tree_id_in. }
  cbn [tree_id] in *.
  destruct Hattached as (Hlen & Hpay & Hall & _).
  destruct (Hall _ _ _ Hj Hit) as [Hch Hpa].
  assert (refOf allGroups i = base + j) as Href.
  { unfold refOf. by rewrite (Hrefs _ _ _ Hj). }
  pose proof (Hpay (base + j)) as Hp. rewrite (Hbare _ _ _ Hj) in Hp.
  apply payload_fields in Hp as (Hid & Hname & Hro & Hres).
  rewrite Href. cbn [reloaded]. constructor.
  - rewrite Hlen, Hlen1. apply lookup_lt_Some in Hj. lia.
  - by rewrite Hid.
  - by rewrite Hname.
  - by rewrite Hro.
  - unfold resources. by rewrite Hres.
  - rewrite Hpa. unfold parent_after. rewrite rec_parentId_record_of.
    destruct pid' as [pi|]; [|done]. rewrite decide_True; [done|].
    destruct (within_last _ _ _ _ Hw) as [[[=] _]|(ppid & tp & Hwp & _ & [= ->])].
    destruct (within_entry _ _ Hwp) as [jp Hjp].
    apply list_elem_of_fmap. exists (tree_id tp, record_of ppid tp).
    split; [done|]. by eapply list_elem_of_lookup_2.
  - rewrite Hch, decide_True.
    2: { apply list_elem_of_fmap. eexists. split; [|by eapply list_elem_of_lookup_2].
         done. }
    rewrite kids_record_of, <- !list_fmap_compose. cbn [tree_children].
    apply Forall2_fmap, Forall_Forall2_diag.
    rewrite Forall_forall in IH |- *. intros c Hc. cbn.
    rewrite rec_id_record_of, <- Href.
    apply (IH c Hc (Some i)). by apply (within_snoc _ _ _ _ _ Hw).
Qed.

End Attached.

End Reload.

Section RoundTrip.
Context {Uri Resource : Type} `{!VscodeUri Uri} `{!FocusUtil Uri Resource}.
Implicit Types (t : GroupTree Uri) (h : Heap Uri) (st : StorageService Resource).

(** Without legacy groups, the migration step keeps the entries of the
    group store. *)
Lemma migrateStorageV1_keeps st :
  getValue_DeprecateGroupStore st "groupstore" [] = [] →
  NoDup (getValue_GroupStore st "groupmap" []).*1 →
  getValue_GroupStore (migrateStorageV1 st) "groupmap" []
  ≡ₚ getValue_GroupStore st "groupmap" [].
Proof.
  intros Hsrc Hnd. unfold migrateStorageV1. case_bool_decide; [done|].
  rewrite Hsrc. unfold Object_entries. cbn [new_Map foldl].
  unfold getValue_GroupStore at 1. unfold setValue, deleteValue.
  rewrite lookup_insert_ne by done. rewrite lookup_delete_ne by done.
  rewrite lookup_insert_eq. unfold Object_fromEntries.
  rewrite own_key_order_perm. by rewrite new_Map_id.
Qed.

(** What [saveGroup] leaves in an empty group store for a tree. *)
Lemma StateStorage_saveGroup_tree h g t st (fuel : nat) :
  holds h None g t → NoDup (tree_ids t) →
  getValue_GroupStore st "groupmap" [] = [] →
  height t < fuel →
  StateStorage_saveGroup fuel h g st
  = Some (setValue "groupmap" (VGroupStore (Object_fromEntries (nodes None t))) st).
Proof.
  intros Hholds Hnd Hempty Hfuel. unfold StateStorage_saveGroup.
  rewrite (createGroupRecord_holds t h None g fuel Hholds Hfuel).
  cbn [fmap option_fmap option_map mbind option_bind]. rewrite Hempty.
  unfold Object_entries. cbn [new_Map foldl].
  by rewrite (saveGroupRecordRecursive_nodes t None []).
Qed.

(** The two passes of [loadRootNodes] on a group store that holds the
    entries of a tree among others: the roots are the Groups of the
    entries without a parent id, in their order, and the store holds the
    reloaded tree at the Group of its root entry. *)
Lemma load_store t (es : JsMap (GroupRecord Resource)) h0 :
  wf_table (tree_ids t) es →
  (∀ e, e ∈ nodes None t → e ∈ es) →
  ∃ h1 allGroups h',
    loadRootNodes_pass1 es h0 = (h1, allGroups)
    ∧ loadRootNodes_pass2 allGroups es h1
      = (h', refOf allGroups <$> (filter (λ e, rootlike e = true) es).*1)
    ∧ holds h' None (refOf allGroups (tree_id t)) (reloaded t).
Proof.
  intros Htable Hsub.
  destruct (loadRootNodes_pass1_spec es h0) as (allGroups & Hpass1 & Hrefs & Hback).
  { apply (tb_nodup _ es Htable). }
  { apply (tb_key _ es Htable). }
  set (h1 := h0 ++ (bare <$> es.*2)) in *.
  assert (length h1 = length h0 + length es) as Hlen1.
  { subst h1. by rewrite length_app, !length_fmap. }
  assert (∀ j k r, es !! j = Some (k, r) → h1 !!! (length h0 + j) = bare r) as Hbare.
  { intros j k r Hj. subst h1. apply list_lookup_total_correct.
    rewrite lookup_app_r by lia. replace (length h0 + j - length h0) with j by lia.
    rewrite !list_lookup_fmap, Hj. done. }
  destruct (loadRootNodes_pass2_spec (tree_ids t) es allGroups (length h0) h1 Htable
              Hlen1 Hbare Hrefs Hback)
    as (h' & Hpass2 & Hattached).
  exists h1, allGroups, h'. split_and!; [done..|].
  apply (reload_holds t es allGroups (length h0) h1 h' Hsub Hlen1 Hbare Hrefs
           Hattached t None).
  constructor.
Qed.

(** The two passes of [loadRootNodes] on a store whose entries are those
    of one tree, in any order. *)
Lemma load_passes t (es : JsMap (GroupRecord Resource)) h0 :
  es ≡ₚ nodes None t →
  NoDup (tree_ids t) → Forall (λ i, i ≠ "") (tree_ids t) →
  ∃ h1 allGroups h' g',
    loadRootNodes_pass1 es h0 = (h1, allGroups)
    ∧ loadRootNodes_pass2 allGroups es h1 = (h', [g'])
    ∧ holds h' None g' (reloaded t).
Proof.
  intros Hperm Hnd Hne.
  assert (wf_table (tree_ids t) es) as Htable.
  { apply store_table; [done..| | |].
    - by rewrite Hperm, nodes_keys.
    - intros e. by rewrite Hperm.
    - intros k r Hin Hk. destruct Hk. rewrite <- (nodes_keys None t), <- Hperm.
      apply list_elem_of_fmap. by exists (k, r). }
  destruct (load_store t es h0 Htable) as (h1 & allGroups & h' & Hpass1 & Hpass2 & Hholds).
  { intros e. by rewrite Hperm. }
  assert (filter (λ e : string * GroupRecord Resource, rootlike e = true) es
          = [(tree_id t, record_of None t)]) as Hroots.
  { apply Permutation_singleton_r. rewrite Hperm. by rewrite filter_roots. }
  rewrite Hroots in Hpass2.
  by exists h1, allGroups, h', (refOf allGroups (tree_id t)).
Qed.

End RoundTrip.

(** A root with ids that [Object.fromEntries] reorders: the entry of the
    child ["3"] precedes the entry of the root ["7"] in the saved store. *)
Definition saved_heap : Heap SampleUri :=
  [ mkGroup "7" "Docs" false None [file_a; file_b] [1; 2];
    mkGroup "3" "Api" false (Some 0) [file_c] [];
    mkGroup "notes" "Notes" false (Some 0) [] [] ].

Definition saved_tree : GroupTree SampleUri :=
  GNode "7" "Docs" false [file_a; file_b]
    [ GNode "3" "Api" false [file_c] [];
      GNode "notes" "Notes" false [] [] ].

(** The saved store lists the child ["3"] before the root ["7"]. *)
Example saved_store_order :
  (λ st1 : StorageService (string * string),
     (getValue_GroupStore st1 "groupmap" []).*1)
    <$> StateStorage_saveGroup 3 saved_heap 0 ∅
  = Some ["3"; "7"; "notes"].
Proof. vm_compute. reflexivity. Qed.

(** The store of Group objects and the roots that loading returns. *)
Example saved_tree_reloaded :
  (λ st1 : StorageService (string * string),
     let '(_, h', groups) := StateStorage_loadRootNodes st1 [] in (h', groups))
    <$> StateStorage_saveGroup 3 saved_heap 0 ∅
  = Some ([ mkGroup "3" "Api" false (Some 1) [file_c] [];
            mkGroup "7" "Docs" false None [file_a; file_b] [0; 2];
            mkGroup "notes" "Notes" false (Some 1) [] [] ], [1]).
Proof. vm_compute. reflexivity. Qed.

(* ===================================================================== *)
(** * Group.ts: the recursive readers                                      *)
(* ===================================================================== *)

Section GroupReaders.
Context {Uri : Type} `{!VscodeUri Uri}.
Implicit Types (h : Heap Uri) (this childGroup : ref).

(** [get hasChildGroups]. *)
Definition hasChildGroups h this : bool :=
  bool_decide (0 < length (childGroups h this)).

(** [getAllResources]: the resources of the group followed by those of
    each child group, recursively.  The fuel bounds the depth of the
    recursion, as for [getAllChildGroups]. *)
Fixpoint getAllResources (fuel : nat) h this : option (list Uri) :=
  match fuel with
  | 0 => None
  | S n =>
      foldl (λ acc childGroup,
               allResources ← acc;
               sub ← getAllResources n h childGroup;
               Some (allResources ++ sub))
            (Some (resources h this)) (childGroups h this)
  end.

(** [findChildGroup]: the first direct child with the id; otherwise the
    first hit of the recursive calls on the children, in order.  A loop
    that has returned runs no further call: the accumulator keeps the
    result.  [Some None] is the answer [null]. *)
Fixpoint findChildGroup (fuel : nat) h this (groupId : string)
  : option (option ref) :=
  match fuel with
  | 0 => None
  | S n =>
      match list_find (λ childGroup, id (h !!! childGroup) = groupId)
                      (childGroups h this) with
      | Some (_, childGroup) => Some (Some childGroup)
      | None =>
          foldl (λ acc childGroup,
                   match acc with
                   | Some None => findChildGroup n h childGroup groupId
                   | _ => acc
                   end)
                (Some None) (childGroups h this)
      end
  end.

(** [clearResources]. *)
Definition clearResources this h : Heap Uri :=
  alter (set_resource (λ _, [])) this h.

End GroupReaders.

Section GroupReaderFacts.
Context {Uri : Type} `{!VscodeUri Uri}.
Implicit Types (h : Heap Uri) (this x : ref) (t : GroupTree Uri).

(** The resources of a tree, in pre-order. *)
Definition tree_all_resources t : list Uri := concat (tree_resources t).

Lemma collect_resources (n : nat) h (cs : list ref) (subs : list (list Uri))
  (acc : list Uri) :
  Forall2 (λ c sub, getAllResources n h c = Some sub) cs subs →
  foldl (λ acc childGroup,
           allResources ← acc;
           sub ← getAllResources n h childGroup;
           Some (allResources ++ sub))
        (Some acc) cs
  = Some (acc ++ concat subs).
Proof.
  intros Hall. revert acc. induction Hall as [|c sub cs subs Hc _ IH]; intros acc.
  - cbn. by rewrite app_nil_r.
  - cbn [foldl mbind option_bind]. rewrite Hc. cbn [mbind option_bind concat].
    rewrite IH. by rewrite <- app_assoc.
Qed.

(** X1. On a store that holds the tree [t] at the group [r],
    [r.getAllResources()] returns, given fuel for the height of [t],
    the resources of [r] followed by the resources of every group below
    it, in pre-order; resources that occur in several groups occur as
    often in the result. *)
Theorem getAllResources_preorder t h parent r (fuel : nat) :
  holds h parent r t → height t < fuel →
  getAllResources fuel h r = Some (tree_all_resources t).
Proof.
  revert parent r fuel.
  induction t as [i n ro res ks IH] using GroupTree_rect'; intros parent r fuel Hh Hf.
  destruct fuel as [|fuel]; [lia|].
  inversion Hh as [? ? ? ? ? ? ? Hlt Hid Hname Hro Hres Hpar Hkids]; subst.
  cbn [getAllResources].
  rewrite (collect_resources fuel h (childGroups h r) (tree_all_resources <$> ks)).
  - unfold tree_all_resources. cbn [tree_resources concat]. f_equal. f_equal.
    clear. induction ks as [|k ks IHks]; [done|].
    cbn [fmap list_fmap concat]. by rewrite concat_app, IHks.
  - apply Forall2_fmap_r.
    assert (Forall (λ k, height k < fuel) ks) as Hheights.
    { apply Forall_forall. intros k Hk.
      pose proof (height_child (GNode (id (h !!! r)) (name (h !!! r))
                                  (readonly (h !!! r)) (resources h r) ks) k Hk).
      lia. }
    clear Hf Hh. induction Hkids as [|c k cs ks Hck _ IHk]; constructor.
    + apply Forall_cons in IH as [IHk0 _]. apply Forall_cons in Hheights as [Hk0 _].
      by apply (IHk0 (Some r) c fuel).
    + apply Forall_cons in IH as [_ IH]. apply Forall_cons in Hheights as [_ Hks].
      by apply IHk.
Qed.

Lemma search_found (n : nat) h (i : string) (cs : list ref) x :
  foldl (λ acc childGroup,
           match acc with
           | Some None => findChildGroup n h childGroup i
           | _ => acc
           end) (Some (Some x)) cs = Some (Some x).
Proof. induction cs as [|c cs IH]; [done|]. exact IH. Qed.

Lemma search_spec (n : nat) h (i : string) (cs : list ref) (subs : list (list ref)) :
  Forall2 (λ c sub,
             ∃ res, findChildGroup n h c i = Some res
                    ∧ match res with
                      | Some x => x ∈ sub ∧ id (h !!! x) = i
                      | None => Forall (λ x, id (h !!! x) ≠ i) sub
                      end) cs subs →
  ∃ res,
    foldl (λ acc childGroup,
             match acc with
             | Some None => findChildGroup n h childGroup i
             | _ => acc
             end) (Some None) cs = Some res
    ∧ match res with
      | Some x => (∃ sub, sub ∈ subs ∧ x ∈ sub) ∧ id (h !!! x) = i
      | None => Forall (Forall (λ x, id (h !!! x) ≠ i)) subs
      end.
Proof.
  induction 1 as [|c sub cs subs (res & Hc & Hres) _ (res' & Hfold & Hres')].
  { exists None. split; [done|constructor]. }
  cbn [foldl]. rewrite Hc. destruct res as [x|].
  - exists (Some x). rewrite search_found. split; [done|].
    destruct Hres as [Hx Hid]. split; [|done]. exists sub. split; [by left|done].
  - exists res'. split; [done|]. destruct res' as [x|].
    + destruct Hres' as [(sub' & Hsub' & Hx) Hid]. split; [|done].
      exists sub'. split; [by right|done].
    + by constructor.
Qed.

(** X2. Whenever [g.getAllChildGroups()] returns, [g.findChildGroup(id)]
    returns with the same fuel: a group of that list with the given id,
    or [null] when no group of the list has the id. *)
Theorem findChildGroup_among_descendants (fuel : nat) h this (i : string) l :
  getAllChildGroups fuel h this = Some l →
  ∃ res, findChildGroup fuel h this i = Some res
         ∧ match res with
           | Some x => x ∈ l ∧ id (h !!! x) = i
           | None => Forall (λ x, id (h !!! x) ≠ i) l
           end.
Proof.
  revert this l. induction fuel as [|n IH]; intros this l; [done|].
  intros (subs & Hall & ->)%getAllChildGroups_Some.
  pose proof (Forall2_length _ _ _ Hall) as Hlen.
  cbn [findChildGroup].
  destruct (list_find _ (childGroups h this)) as [[k c]|] eqn:Hfind.
  - apply list_find_Some in Hfind as (Hk & Hid & _).
    destruct (Forall2_lookup_l _ _ _ _ _ Hall Hk) as (sub & Hs & _).
    exists (Some c). split; [done|]. split; [|done].
    apply elem_of_concat_zip; [done|]. exists k, c, sub. by split_and!; [..|left].
  - pose proof (proj1 (list_find_None _ _) Hfind) as Hdirect.
    destruct (search_spec n h i (childGroups h this) subs) as (res & Hfold & Hres).
    { eapply Forall2_impl; [exact Hall|]. intros c sub Hc. by apply IH. }
    exists res. split; [done|]. destruct res as [x|].
    + destruct Hres as [(sub & Hsub & Hx) Hid]. split; [|done].
      apply list_elem_of_lookup_1 in Hsub as [k Hk].
      destruct (Forall2_lookup_r _ _ _ _ _ Hall Hk) as (c & Hc & _).
      apply elem_of_concat_zip; [done|]. exists k, c, sub. by split_and!; [..|right].
    + apply Forall_forall. intros x Hx.
      apply elem_of_concat_zip in Hx as (k & c & sub & Hc & Hs & [->|Hx]); [| |done].
      * rewrite Forall_forall in Hdirect. apply Hdirect.
        by eapply list_elem_of_lookup_2.
      * rewrite Forall_forall in Hres.
        specialize (Hres sub (list_elem_of_lookup_2 _ _ _ Hs)).
        rewrite Forall_forall in Hres. by apply Hres.
Qed.

End GroupReaderFacts.

Section Termination.
Context {Uri : Type} `{!VscodeUri Uri}.
Implicit Types (h : Heap Uri) (this x g : ref).

(** A reference outside the store reads as a fresh Group: no children. *)
Lemma childGroups_outside h x : length h ≤ x → childGroups h x = [].
Proof.
  intros Hle. unfold childGroups.
  by rewrite list_lookup_total_alt, lookup_ge_None_2.
Qed.

Lemma distinct_refs_bound (l : list ref) (n : nat) :
  NoDup l → Forall (λ x, x < n) l → length l ≤ n.
Proof.
  intros Hnd Hall. rewrite <- (length_seq n 0). apply submseteq_length.
  apply NoDup_submseteq; [done|]. intros x Hx. apply elem_of_seq.
  rewrite Forall_forall in Hall. specialize (Hall x Hx). lia.
Qed.

Lemma collect_returns (n : nat) h (cs : list ref) :
  Forall (λ c, ∃ l, getAllChildGroups n h c = Some l) cs →
  ∃ l, foldl (collect n h) (Some []) cs = Some l.
Proof.
  intros Hall.
  assert (∃ subs, Forall2 (λ c sub, getAllChildGroups n h c = Some sub) cs subs)
    as [subs Hsubs].
  { induction Hall as [|c cs [l Hl] _ [subs IH]]; [by exists []|].
    exists (l :: subs). by constructor. }
  eexists. apply collect_Some. exists subs. split; [done|reflexivity].
Qed.

(** With [anc] a chain of distinct groups above [g], the fuel that is
    left beyond the groups of the store not yet on the chain suffices. *)
Lemma getAllChildGroups_returns (n : nat) h : ∀ g (anc : list ref),
  acyclic h →
  NoDup anc → Forall (λ a, a < length h ∧ descendant h a g) anc →
  length h < length anc + n →
  ∃ l, getAllChildGroups n h g = Some l.
Proof.
  induction n as [|n IH]; intros g anc Hac Hnd Hanc Hfuel.
  { exfalso. assert (length anc ≤ length h); [|lia].
    apply distinct_refs_bound; [done|]. eapply Forall_impl; [exact Hanc|].
    by intros a [? _]. }
  rewrite getAllChildGroups_S. apply collect_returns.
  apply Forall_forall. intros c Hc.
  destruct (decide (g < length h)) as [Hg|Hg].
  2: { rewrite childGroups_outside in Hc by lia. by apply elem_of_nil in Hc. }
  apply (IH c (g :: anc)); [done| | |simpl; lia].
  - constructor; [|done]. intros Hin. rewrite Forall_forall in Hanc.
    destruct (Hanc g Hin) as [_ Hcyc]. by apply (Hac g).
  - constructor; [split; [done|by apply tc_once]|].
    eapply Forall_impl; [exact Hanc|]. intros a [Ha Hag]. split; [done|].
    eapply tc_r; [exact Hag|exact Hc].
Qed.

(** X3. In a store without cycles [g.getAllChildGroups()] returns, with
    fuel for one more than the number of Group objects, and the result
    lists exactly the groups below [g]. *)
Theorem getAllChildGroups_total h g :
  acyclic h →
  ∃ l, getAllChildGroups (S (length h)) h g = Some l
       ∧ ∀ x, x ∈ l ↔ descendant h g x.
Proof.
  intros Hac.
  destruct (getAllChildGroups_returns (S (length h)) h g [] Hac) as [l Hl].
  { constructor. }
  { constructor. }
  { simpl. lia. }
  exists l. split; [done|]. intros x. split.
  - by eapply getAllChildGroups_sound.
  - by eapply getAllChildGroups_complete.
Qed.

End Termination.

(* ===================================================================== *)
(** * Group.ts: parent and child references agree                          *)
(* ===================================================================== *)

Section Linked.
Context {Uri : Type} `{!VscodeUri Uri}.
Implicit Types (h : Heap Uri) (this p c x y : ref).

(** The children of [p] have pairwise distinct ids, are objects of the
    store and point back at [p]. *)
Definition linked_children h p : bool :=
  bool_decide (NoDup (ids h (childGroups h p)))
  && forallb (λ c, bool_decide (c < length h)
                   && bool_decide (parentGroup (h !!! c) = Some p))
             (childGroups h p).

(** The parent of [c], if any, is an object of the store and lists [c]. *)
Definition linked_parent h c : bool :=
  match parentGroup (h !!! c) with
  | None => true
  | Some p => bool_decide (p < length h) && bool_decide (c ∈ childGroups h p)
  end.

(** [parentGroup] and [childGroups] agree throughout the store. *)
Definition linked h : bool :=
  forallb (λ r, linked_children h r && linked_parent h r) (seq 0 (length h)).

Record Linked h : Prop := {
  lk_ids : ∀ p, NoDup (ids h (childGroups h p));
  lk_child : ∀ p c, c ∈ childGroups h p →
             p < length h ∧ c < length h ∧ parentGroup (h !!! c) = Some p;
  lk_parent : ∀ c p, parentGroup (h !!! c) = Some p →
              p < length h ∧ c < length h ∧ c ∈ childGroups h p;
}.

Lemma parentGroup_outside h x : length h ≤ x → parentGroup (h !!! x) = None.
Proof. intros Hle. by rewrite list_lookup_total_alt, lookup_ge_None_2. Qed.

Lemma linked_Linked h : linked h = true ↔ Linked h.
Proof.
  unfold linked. rewrite <- Is_true_true, forallb_True, Forall_forall. split.
  - intros Hall.
    assert (∀ r, r < length h →
              NoDup (ids h (childGroups h r))
              ∧ (∀ c, c ∈ childGroups h r →
                      c < length h ∧ parentGroup (h !!! c) = Some r)
              ∧ (∀ p, parentGroup (h !!! r) = Some p →
                      p < length h ∧ r ∈ childGroups h p)) as Hin.
    { intros r Hr. specialize (Hall r). rewrite elem_of_seq in Hall.
      rewrite andb_True in Hall. destruct Hall as [Hch Hpa]; [lia|].
      unfold linked_children in Hch. rewrite andb_True in Hch.
      destruct Hch as [Hnd Hch]. apply bool_decide_unpack in Hnd.
      apply forallb_True in Hch. rewrite Forall_forall in Hch. split_and!; [done| |].
      - intros c Hc. specialize (Hch c Hc). rewrite andb_True in Hch.
        destruct Hch as [H1 H2]. by apply bool_decide_unpack in H1, H2.
      - intros p Hp. unfold linked_parent in Hpa. rewrite Hp in Hpa.
        rewrite andb_True in Hpa. destruct Hpa as [H1 H2].
        by apply bool_decide_unpack in H1, H2. }
    split.
    + intros p. destruct (decide (p < length h)) as [Hp|Hp]; [by apply Hin|].
      rewrite childGroups_outside by lia. constructor.
    + intros p c Hc. destruct (decide (p < length h)) as [Hp|Hp].
      * destruct (Hin p Hp) as (_ & Hch & _). destruct (Hch c Hc). done.
      * rewrite childGroups_outside in Hc by lia. by apply elem_of_nil in Hc.
    + intros c p Hp. destruct (decide (c < length h)) as [Hc|Hc].
      * destruct (Hin c Hc) as (_ & _ & Hpa). destruct (Hpa p Hp). done.
      * rewrite parentGroup_outside in Hp by lia. done.
  - intros [Hids Hch Hpa] r _. rewrite andb_True. split.
    + unfold linked_children. rewrite andb_True. split; [by apply bool_decide_pack|].
      apply forallb_True, Forall_forall. intros c Hc.
      destruct (Hch r c Hc) as (_ & ? & ?).
      rewrite andb_True. split; by apply bool_decide_pack.
    + unfold linked_parent. destruct (parentGroup (h !!! r)) as [p|] eqn:Hp; [|done].
      destruct (Hpa r p Hp) as (? & _ & ?).
      rewrite andb_True. split; by apply bool_decide_pack.
Qed.

Lemma elem_of_delete_ne (l : list ref) (i : nat) x y :
  NoDup l → l !! i = Some x → (y ∈ delete i l ↔ y ∈ l ∧ y ≠ x).
Proof.
  intros Hnd Hi. split.
  - intros Hy. split; [by eapply list_elem_of_delete_inv|]. intros ->.
    apply list_elem_of_lookup_1 in Hy as [k Hk].
    destruct (decide (k < i)).
    + rewrite list_lookup_delete_lt in Hk by done.
      assert (k = i) by by eapply NoDup_lookup. lia.
    + rewrite list_lookup_delete_ge in Hk by lia.
      assert (S k = i) by by eapply NoDup_lookup. lia.
  - intros [[k Hk]%list_elem_of_lookup_1 Hne].
    destruct (decide (k < i)).
    + apply (list_elem_of_lookup_2 _ k). by rewrite list_lookup_delete_lt.
    + assert (k ≠ i) by (intros ->; congruence).
      apply (list_elem_of_lookup_2 _ (k - 1)).
      rewrite list_lookup_delete_ge by lia.
      by replace (S (k - 1)) with k by lia.
Qed.

Lemma ids_payload_eq h h' (l : list ref) :
  (∀ x, payload (h' !!! x) = payload (h !!! x)) → ids h' l = ids h l.
Proof.
  intros Hpay. unfold ids. apply list_fmap_ext. intros _ x _. by apply payload_id.
Qed.

(** The child at index [i] of [this] leaves the children of [this] and
    loses its parent reference. *)
Definition detach this (i : nat) x h : Heap Uri :=
  alter (set_parentGroup None) x (alter (set_childGroups (splice1 (Z.of_nat i))) this h).

Lemma detach_payload this (i : nat) x h y :
  payload (detach this i x h !!! y) = payload (h !!! y).
Proof. unfold detach. etrans; apply alter_proj; done. Qed.

Lemma detach_Linked this (i : nat) x h :
  Linked h → childGroups h this !! i = Some x → Linked (detach this i x h).
Proof.
  intros [Hids Hch Hpa] Hi.
  pose proof (list_elem_of_lookup_2 _ _ _ Hi) as Hx.
  destruct (Hch this x Hx) as (Hthis & Hxlt & Hxp).
  assert (NoDup (childGroups h this)) as Hnd.
  { eapply NoDup_fmap_1. apply Hids. }
  assert (∀ p, childGroups (detach this i x h) p
               = if decide (p = this) then delete i (childGroups h this)
                 else childGroups h p) as Hchildren.
  { intros p. unfold detach. rewrite childGroups_alter_parent, childGroups_alter.
    rewrite splice1_nat. destruct (decide (p = this)) as [->|Hne].
    - by rewrite decide_True.
    - rewrite decide_False; [done|]. intros [? _]. congruence. }
  assert (∀ y, parentGroup (detach this i x h !!! y)
               = if decide (y = x) then None else parentGroup (h !!! y)) as Hparents.
  { intros y. unfold detach. rewrite parent_alter_parent, parent_alter_children.
    rewrite length_alter. destruct (decide (y = x)) as [->|Hne].
    - by rewrite decide_True.
    - rewrite decide_False; [done|]. intros [? _]. congruence. }
  assert (length (detach this i x h) = length h) as Hlen.
  { unfold detach. by rewrite !length_alter. }
  split.
  - intros p. rewrite (ids_payload_eq h) by apply detach_payload.
    rewrite Hchildren. case_decide as Hp; [|apply Hids]. subst p.
    unfold ids. eapply sublist_NoDup; [apply Hids|].
    apply fmap_sublist, sublist_delete.
  - intros p c. rewrite Hchildren, Hparents, Hlen. case_decide as Hp.
    + subst p. intros [Hc Hne]%(elem_of_delete_ne _ _ x); [|done..].
      rewrite decide_False by done. by apply Hch.
    + intros Hc. destruct (Hch p c Hc) as (? & ? & Hcp).
      rewrite decide_False; [done|]. intros ->. congruence.
  - intros c p. rewrite Hparents, Hchildren, Hlen. case_decide as Hc; [done|].
    intros Hcp. destruct (Hpa c p Hcp) as (? & ? & Hin). split_and!; [done..|].
    case_decide as Hp; [|done]. subst p.
    by apply (elem_of_delete_ne _ _ x).
Qed.

(** [removeChildGroupById] detaches the first child with the id. *)
Lemma removeChildGroupById_detach this (i : string) h :
  removeChildGroupById this i h = h
  ∨ ∃ k x, childGroups h this !! k = Some x ∧ id (h !!! x) = i
           ∧ removeChildGroupById this i h = detach this k x h.
Proof.
  unfold removeChildGroupById. case_bool_decide as Hneg; [by left|]. right.
  destruct (findIndex_nonneg _ _ Hneg) as (k & x & Hk & Hx & Hid & _).
  exists k, x. split_and!; [done..|]. rewrite Hk, Nat2Z.id.
  by rewrite (list_lookup_total_correct _ _ _ Hx).
Qed.

(** Called on a group that lists [c] among its children, which have
    pairwise distinct ids, [removeChildGroup(c)] detaches [c] itself. *)
Lemma removeChildGroup_detach this c h :
  NoDup (ids h (childGroups h this)) → c ∈ childGroups h this →
  ∃ k, childGroups h this !! k = Some c
       ∧ removeChildGroup this c h = detach this k c h.
Proof.
  intros Hnd Hc. unfold removeChildGroup.
  destruct (findIndex_nonneg
              (λ item, id (h !!! item) = id (h !!! c)) (childGroups h this))
    as (k & x & Hk & Hx & Hid & _).
  { rewrite findIndex_neg, Forall_forall. intros Hall. by apply (Hall c). }
  rewrite bool_decide_eq_false_2 by lia. rewrite Hk.
  apply list_elem_of_lookup_1 in Hc as [j Hj].
  assert (k = j) as ->.
  { eapply NoDup_lookup; [exact Hnd|..]; unfold ids; rewrite list_lookup_fmap.
    - by rewrite Hx.
    - rewrite Hj. simpl. by rewrite Hid. }
  assert (x = c) as -> by congruence.
  by exists j.
Qed.

Lemma clear_parents_parent (l : list ref) h y :
  parentGroup (foldl (λ h' c, alter (set_parentGroup None) c h') h l !!! y)
  = if decide (y ∈ l ∧ y < length h) then None else parentGroup (h !!! y).
Proof.
  revert h. induction l as [|c l IH]; intros h; cbn [foldl].
  - rewrite decide_False; [done|]. intros [?%elem_of_nil _]. done.
  - rewrite IH, length_alter, parent_alter_parent.
    destruct (decide (y ∈ l ∧ y < length h)) as [[Hin Hlt]|Hnot].
    + rewrite decide_True; [done|]. split; [by right|done].
    + destruct (decide (c = y ∧ c < length h)) as [[-> Hlt]|Hne].
      * rewrite decide_True; [done|]. split; [by left|done].
      * rewrite decide_False; [done|].
        intros [[->|?]%elem_of_cons ?]; [by apply Hne|by apply Hnot].
Qed.

Lemma clearChildGroups_Linked this h : Linked h → Linked (clearChildGroups this h).
Proof.
  intros [Hids Hch Hpa].
  assert (∀ y, payload (clearChildGroups this h !!! y) = payload (h !!! y)) as Hpay.
  { intros y. apply clearChildGroups_payload. }
  assert (length (clearChildGroups this h) = length h) as Hlen
    by apply clearChildGroups_length.
  assert (∀ p, childGroups (clearChildGroups this h) p
               = if decide (p = this) then [] else childGroups h p) as Hchildren.
  { intros p. unfold clearChildGroups.
    rewrite childGroups_alter, clear_parents_childGroups, clear_parents_length.
    destruct (decide (p = this)) as [->|Hne].
    - case_decide as Hd; [done|]. rewrite childGroups_outside; [done|].
      apply Nat.nlt_ge. intros ?. by apply Hd.
    - rewrite decide_False; [done|]. intros [? _]. congruence. }
  assert (∀ y, parentGroup (clearChildGroups this h !!! y)
               = if decide (y ∈ childGroups h this) then None
                 else parentGroup (h !!! y)) as Hparents.
  { intros y. unfold clearChildGroups.
    rewrite parent_alter_children, clear_parents_parent.
    destruct (decide (y ∈ childGroups h this)) as [Hin|Hnin].
    - rewrite decide_True; [done|]. split; [done|].
      by destruct (Hch this y Hin) as (_ & ? & _).
    - rewrite decide_False; [done|]. by intros [? _]. }
  split.
  - intros p. rewrite (ids_payload_eq h) by done. rewrite Hchildren.
    case_decide; [constructor|apply Hids].
  - intros p c. rewrite Hchildren, Hparents, Hlen. case_decide as Hp.
    { by intros ?%elem_of_nil. }
    intros Hc. destruct (Hch p c Hc) as (? & ? & Hcp).
    rewrite decide_False; [done|]. intros Hin.
    destruct (Hch this c Hin) as (_ & _ & ?). congruence.
  - intros c p. rewrite Hparents, Hchildren, Hlen. case_decide as Hc; [done|].
    intros Hcp. destruct (Hpa c p Hcp) as (? & ? & Hin). split_and!; [done..|].
    rewrite decide_False; [done|]. by intros ->.
Qed.

Lemma addChildGroup_Linked this c h :
  this < length h → c < length h → Linked h → Linked (addChildGroup this c h).
Proof.
  intros Hthis Hc Hlk. unfold addChildGroup, _childGroupContains.
  case_bool_decide as Hguard; [done|].
  apply Forall_Exists_neg in Hguard.
  set (h1 := match parentGroup (h !!! c) with
             | Some p => removeChildGroup p c h
             | None => h
             end).
  assert (Linked h1 ∧ length h1 = length h
          ∧ (∀ y, payload (h1 !!! y) = payload (h !!! y))
          ∧ parentGroup (h1 !!! c) = None
          ∧ ∀ y, y ∈ childGroups h1 this → y ∈ childGroups h this)
    as ([Hids Hch Hpa] & Hlen & Hpay & Hcp & Hsub).
  { subst h1. destruct (parentGroup (h !!! c)) as [q|] eqn:Hq; [|done].
    destruct (lk_parent h Hlk c q Hq) as (Hqlt & _ & Hin).
    destruct (removeChildGroup_detach q c h (lk_ids h Hlk q) Hin) as (k & Hk & ->).
    split_and!.
    - by apply detach_Linked.
    - unfold detach. by rewrite !length_alter.
    - intros y. apply detach_payload.
    - unfold detach. rewrite parent_alter_parent, decide_True; [done|].
      by rewrite length_alter.
    - intros y. unfold detach. rewrite childGroups_alter_parent, childGroups_alter.
      case_decide; [apply elem_of_splice1|done]. }
  set (h' := alter (set_parentGroup (Some this)) c
               (alter (set_childGroups (λ l, l ++ [c])) this h1)).
  assert (∀ y, payload (h' !!! y) = payload (h1 !!! y)) as Hpay'.
  { intros y. subst h'. etrans; apply alter_proj; done. }
  assert (length h' = length h1) as Hlen'.
  { subst h'. by rewrite !length_alter. }
  assert (∀ p, childGroups h' p
               = if decide (p = this) then childGroups h1 this ++ [c]
                 else childGroups h1 p) as Hchildren.
  { intros p. subst h'. rewrite childGroups_alter_parent, childGroups_alter.
    destruct (decide (p = this)) as [->|Hne].
    - rewrite decide_True; [done|]. split; [done|lia].
    - rewrite decide_False; [done|]. intros [? _]. congruence. }
  assert (∀ y, parentGroup (h' !!! y)
               = if decide (y = c) then Some this else parentGroup (h1 !!! y))
    as Hparents.
  { intros y. subst h'. rewrite parent_alter_parent, parent_alter_children.
    rewrite length_alter. destruct (decide (y = c)) as [->|Hne].
    - rewrite decide_True; [done|]. split; [done|lia].
    - rewrite decide_False; [done|]. intros [? _]. congruence. }
  assert (c ∉ childGroups h1 this) as Hnew.
  { intros Hin. destruct (Hch this c Hin) as (_ & _ & ?). congruence. }
  split.
  - intros p. rewrite (ids_payload_eq h1) by done. rewrite Hchildren.
    case_decide as Hp; [|apply Hids]. subst p. unfold ids. rewrite fmap_app.
    apply NoDup_app. split_and!; [apply Hids| |apply NoDup_singleton].
    intros i (y & -> & Hy)%list_elem_of_fmap ?%list_elem_of_singleton.
    rewrite Forall_forall in Hguard. apply (Hguard y (Hsub y Hy)).
    rewrite <- (payload_id _ _ (Hpay y)), <- (payload_id _ _ (Hpay c)). done.
  - intros p y. rewrite Hchildren, Hparents, Hlen', Hlen. case_decide as Hp.
    + subst p. intros [Hy| ->%list_elem_of_singleton]%elem_of_app.
      * destruct (Hch this y Hy) as (? & ? & ?).
        rewrite decide_False; [split_and!; congruence|]. intros ->. done.
      * by rewrite decide_True.
    + intros Hy. destruct (Hch p y Hy) as (? & ? & ?).
      rewrite decide_False; [split_and!; congruence|]. intros ->. congruence.
  - intros y p. rewrite Hparents, Hchildren, Hlen', Hlen. case_decide as Hy.
    + subst y. intros [= <-]. split_and!; [done..|].
      rewrite decide_True by done. apply elem_of_app. right. by left.
    + intros Hyp. destruct (Hpa y p Hyp) as (? & ? & Hin).
      split_and!; [congruence..|]. case_decide as Hp; [|done]. subst p.
      apply elem_of_app. by left.
Qed.

(** The calls the invariant is kept under: [addChildGroup] on objects of
    the store, and [removeChildGroup(c)] on a group that lists [c] or that
    has no child with the id of [c]. *)
Definition aimed h (op : TreeOp) : Prop :=
  match op with
  | AddChildGroup p c => p < length h ∧ c < length h
  | RemoveChildGroup p c =>
      c ∈ childGroups h p
      ∨ Forall (λ item, id (h !!! item) ≠ id (h !!! c)) (childGroups h p)
  | _ => True
  end.

(** X4. [addChildGroup], [removeChildGroup] called on the parent,
    [removeChildGroupById] and [clearChildGroups] keep the references of
    the store in agreement: the children of a group have distinct ids and
    point back at it, and a group with a parent is listed by that
    parent. *)
Theorem tree_ops_keep_links (op : TreeOp) h :
  linked h = true → aimed h op → linked (run_op op h) = true.
Proof.
  rewrite !linked_Linked. intros Hlk Haim. destruct op as [p c|p c|p i|p]; simpl.
  - destruct Haim. by apply addChildGroup_Linked.
  - destruct Haim as [Hin|Hno].
    + destruct (removeChildGroup_detach p c h (lk_ids h Hlk p) Hin) as (k & Hk & ->).
      by apply detach_Linked.
    + by rewrite removeChildGroup_noop.
  - destruct (removeChildGroupById_detach p i h) as [->|(k & x & Hk & _ & ->)]; [done|].
    by apply detach_Linked.
  - by apply clearChildGroups_Linked.
Qed.

End Linked.

(* ===================================================================== *)
(** * Group.ts: resources                                                  *)
(* ===================================================================== *)

Section ResourceInvariant.
Context {Uri : Type} `{!VscodeUri Uri}.
Implicit Types (h : Heap Uri) (this : ref) (uri : Uri).

(** X5. [addResource] keeps the file-system paths of the resources of a
    group distinct, leaves a resource with the path of [uri] in the
    group, and changes nothing when it is repeated. *)
Theorem addResource_paths_distinct h this uri :
  this < length h →
  NoDup (fsPath <$> resources h this) →
  let h' := addResource this uri h in
  NoDup (fsPath <$> resources h' this)
  ∧ fsPath uri ∈ fsPath <$> resources h' this
  ∧ addResource this uri h' = h'.
Proof.
  intros Hlt Hnd h'. subst h'.
  destruct (_resourceContains h this uri) eqn:Hc.
  - destruct (proj1 (_resourceContains_true h this uri) Hc) as (value & Hin & Hfs).
    rewrite (addResource_present h this uri value Hin Hfs).
    split_and!; [done| |by eapply addResource_present].
    rewrite <- Hfs. by apply list_elem_of_fmap_2.
  - pose proof (proj1 (_resourceContains_false h this uri) Hc) as Hno.
    assert (resources (addResource this uri h) this = resources h this ++ [uri])
      as Hres by by apply addResource_fresh.
    split_and!.
    + rewrite Hres, fmap_app. apply NoDup_app. split_and!; [done| |apply NoDup_singleton].
      intros p (v & -> & Hv)%list_elem_of_fmap ?%list_elem_of_singleton.
      rewrite Forall_forall in Hno. by apply (Hno v).
    + rewrite Hres, fmap_app. apply elem_of_app. right. by left.
    + apply (addResource_present _ this uri uri); [|done].
      rewrite Hres. apply elem_of_app. right. by left.
Qed.

Lemma set_resource_compose (f g : list Uri → list Uri) (x : Group Uri) :
  set_resource f (set_resource g x) = set_resource (f ∘ g) x.
Proof. by destruct x. Qed.

(** X6. Adding a resource whose path and string form are new to the
    group and removing it again gives back the store as it was. *)
Theorem addResource_removeResource_restores h this uri :
  this < length h →
  Forall (λ value, fsPath value ≠ fsPath uri) (resources h this) →
  Forall (λ item, toString item ≠ toString uri) (resources h this) →
  removeResource this uri (addResource this uri h) = h.
Proof.
  intros Hlt Hpath Hstring.
  assert (resources (addResource this uri h) this = resources h this ++ [uri])
    as Hres by by apply addResource_fresh.
  unfold removeResource. rewrite Hres.
  assert (findIndex (λ item, toString item = toString uri) (resources h this ++ [uri])
          = Z.of_nat (length (resources h this))) as ->.
  { unfold findIndex.
    assert (list_find (λ item, toString item = toString uri) (resources h this ++ [uri])
            = Some (length (resources h this), uri)) as ->; [|done].
    apply list_find_Some. split_and!.
    - by rewrite lookup_app_r, Nat.sub_diag.
    - done.
    - intros j y Hj Hlt'. rewrite lookup_app_l in Hj by done.
      rewrite Forall_forall in Hstring. apply Hstring.
      by eapply list_elem_of_lookup_2. }
  rewrite bool_decide_eq_false_2 by lia.
  unfold addResource. rewrite (proj2 (_resourceContains_false h this uri) Hpath).
  rewrite list_alter_alter_eq.
  trans (alter (λ g : Group Uri, g) this h); [|by apply list_alter_id].
  apply list_alter_ext; [|done]. intros g Hg.
  cbn [compose]. rewrite set_resource_compose.
  apply set_resource_id. cbn [compose]. rewrite splice1_nat.
  assert (_resource g = resources h this) as ->.
  { unfold resources. by rewrite (list_lookup_total_correct _ _ _ Hg). }
  rewrite delete_middle. by rewrite app_nil_r.
Qed.

End ResourceInvariant.

Section RemoveByArgument.
Context {Uri : Type} `{!VscodeUri Uri}.
Implicit Types (h : Heap Uri) (this c x : ref).

(** X7. [removeChildGroup(c)] looks its argument up by id: the first
    child [x] with the id of [c] leaves the children, and the parent
    reference that is cleared is that of the argument.  When [x] is
    another object than [c], [x] keeps pointing at the group that no
    longer lists it. *)
Theorem removeChildGroup_clears_argument this c x (k : nat) h :
  this < length h → c < length h →
  childGroups h this !! k = Some x →
  (∀ j y, childGroups h this !! j = Some y → j < k → id (h !!! y) ≠ id (h !!! c)) →
  id (h !!! x) = id (h !!! c) → x ≠ c →
  let h' := removeChildGroup this c h in
  childGroups h' this = delete k (childGroups h this)
  ∧ parentGroup (h' !!! x) = parentGroup (h !!! x)
  ∧ parentGroup (h' !!! c) = None.
Proof.
  intros Hthis Hc Hk Hfirst Hid Hne h'. subst h'. unfold removeChildGroup.
  assert (findIndex (λ item, id (h !!! item) = id (h !!! c)) (childGroups h this)
          = Z.of_nat k) as ->.
  { unfold findIndex.
    assert (list_find (λ item, id (h !!! item) = id (h !!! c)) (childGroups h this)
            = Some (k, x)) as ->; [|done].
    apply list_find_Some. split_and!; [done..|]. intros j y Hj Hlt. by eapply Hfirst. }
  rewrite bool_decide_eq_false_2 by lia. split_and!.
  - rewrite childGroups_alter_parent, childGroups_alter, splice1_nat.
    by rewrite decide_True.
  - rewrite parent_alter_parent, parent_alter_children.
    rewrite decide_False; [done|]. intros [? _]. congruence.
  - rewrite parent_alter_parent, decide_True; [done|]. by rewrite length_alter.
Qed.

End RemoveByArgument.

(* ===================================================================== *)
(** * GroupManager.ts: removeGroup, in general                             *)
(* ===================================================================== *)

Section RemoveSubtree.
Context {Uri : Type} `{!VscodeUri Uri} `{!Uuid}.
Implicit Types (m : GroupManager Uri) (h : Heap Uri) (g c x : ref).

(** The [deleteGroupId] calls of [removeGroup] for the ids [l]. *)
Definition deletions (provider : option (FileFocusStorageProvider Uri))
  (l : list string) : list ProviderCall :=
  match provider with
  | Some p => Call_deleteGroupId (provider_id p) <$> l
  | None => []
  end.

Lemma removeGroup_loop_fields provider (l : list ref) m :
  let m' := foldl (λ m' childGroup,
                     let cid := id (heap m' !!! childGroup) in
                     deleteGroupId_if provider cid
                       (with_storageMap (delete cid) (with_root (delete cid) m')))
                  m l in
  heap m' = heap m ∧ rootGroups m' = rootGroups m
  ∧ _storageProvider m' = _storageProvider m ∧ _pinnedGroupId m' = _pinnedGroupId m
  ∧ (∀ k, root m' !! k = if decide (k ∈ ids (heap m) l) then None else root m !! k)
  ∧ (∀ k, storageMap m' !! k
          = if decide (k ∈ ids (heap m) l) then None else storageMap m !! k)
  ∧ calls m' = calls m ++ deletions provider (ids (heap m) l).
Proof.
  revert m. induction l as [|c l IH]; intros m; cbn [foldl].
  - split_and!; try done.
    unfold deletions. destruct provider; by rewrite app_nil_r.
  - set (m1 := deleteGroupId_if provider _ _).
    assert (heap m1 = heap m ∧ rootGroups m1 = rootGroups m
            ∧ _storageProvider m1 = _storageProvider m
            ∧ _pinnedGroupId m1 = _pinnedGroupId m
            ∧ root m1 = delete (id (heap m !!! c)) (root m)
            ∧ storageMap m1 = delete (id (heap m !!! c)) (storageMap m)
            ∧ calls m1 = calls m ++ deletions provider [id (heap m !!! c)])
      as (Hh1 & Hrg1 & Hsp1 & Hp1 & Hr1 & Hsm1 & Hc1).
    { subst m1. unfold deleteGroupId_if, deletions.
      destruct provider; mgr_simpl; rewrite ?app_nil_r; done. }
    destruct (IH m1) as (Hh & Hrg & Hsp & Hp & Hr & Hsm & Hc).
    rewrite Hh1 in *. split_and!.
    + exact Hh.
    + etrans; [exact Hrg|exact Hrg1].
    + etrans; [exact Hsp|exact Hsp1].
    + etrans; [exact Hp|exact Hp1].
    + intros k. etrans; [apply Hr|]. rewrite Hr1. unfold ids. rewrite fmap_cons.
      destruct (decide (k = id (heap m !!! c))) as [->|Hne].
      * rewrite lookup_delete_eq. rewrite (decide_True (P := _ ∈ _ :: _)) by by left.
        by case_decide.
      * rewrite lookup_delete_ne by done.
        destruct (decide (k ∈ _ <$> l)) as [Hin|Hnin].
        -- rewrite decide_True; [done|by right].
        -- rewrite decide_False; [done|]. by intros [?|?]%elem_of_cons.
    + intros k. etrans; [apply Hsm|]. rewrite Hsm1. unfold ids. rewrite fmap_cons.
      destruct (decide (k = id (heap m !!! c))) as [->|Hne].
      * rewrite lookup_delete_eq. rewrite (decide_True (P := _ ∈ _ :: _)) by by left.
        by case_decide.
      * rewrite lookup_delete_ne by done.
        destruct (decide (k ∈ _ <$> l)) as [Hin|Hnin].
        -- rewrite decide_True; [done|by right].
        -- rewrite decide_False; [done|]. by intros [?|?]%elem_of_cons.
    + etrans; [exact Hc|]. rewrite Hc1, <- app_assoc. f_equal. unfold deletions, ids.
      destruct provider; [|done]. by rewrite fmap_cons.
Qed.

(** X8. [removeGroup] of a registered group of a well-formed registry,
    whose traversal returns the groups [l]: it returns; the flattened map
    and the routing table lose exactly the entries of the group and of
    the groups of [l]; one [deleteGroupId] call is issued per removed
    group, the descendants first, in traversal order; the group leaves its
    parent or the root set; and the pin is left alone, so a pinned group
    that is removed stays named by the pin. *)
Theorem removeGroup_subtree m (gid : string) (fuel : nat) g l :
  wf_registry m = true →
  root m !! gid = Some g →
  getAllChildGroups fuel (heap m) g = Some l →
  ∃ m', removeGroup fuel gid m = Some m'
    ∧ (∀ k, root m' !! k
            = if decide (k = gid ∨ k ∈ ids (heap m) l) then None else root m !! k)
    ∧ (∀ k, storageMap m' !! k
            = if decide (k = gid ∨ k ∈ ids (heap m) l) then None
              else storageMap m !! k)
    ∧ calls m' = calls m ++ deletions (providerFor m gid) (ids (heap m) l ++ [gid])
    ∧ heap m' = match parentGroup (heap m !!! g) with
                | Some p => removeChildGroup p g (heap m)
                | None => heap m
                end
    ∧ rootGroups m' = match parentGroup (heap m !!! g) with
                      | Some p => rootGroups m
                      | None => delete gid (rootGroups m)
                      end
    ∧ _pinnedGroupId m' = _pinnedGroupId m.
Proof.
  intros Hwf Hg Hl. unfold removeGroup. rewrite Hg.
  remember (match parentGroup (heap m !!! g) with
            | Some p => with_heap (removeChildGroup p g) m
            | None => with_rootGroups (delete gid) m
            end) as m1 eqn:Hm1.
  assert (root m1 = root m ∧ storageMap m1 = storageMap m ∧ calls m1 = calls m
          ∧ _pinnedGroupId m1 = _pinnedGroupId m
          ∧ (∀ x, id (heap m1 !!! x) = id (heap m !!! x))
          ∧ getAllChildGroups fuel (heap m1) g = Some l
          ∧ heap m1 = match parentGroup (heap m !!! g) with
                      | Some p => removeChildGroup p g (heap m)
                      | None => heap m
                      end
          ∧ rootGroups m1 = match parentGroup (heap m !!! g) with
                            | Some p => rootGroups m
                            | None => delete gid (rootGroups m)
                            end)
    as (Hroot1 & Hsm1 & Hcalls1 & Hpin1 & Hids1 & Hl1 & Hheap1 & Hrg1).
  { rewrite Hm1. destruct (parentGroup (heap m !!! g)) as [p|]; mgr_simpl.
    - split_and!; try done.
      + intros x. apply payload_id, removeChildGroup_payload.
      + by eapply getAllChildGroups_detached.
    - by split_and!. }
  rewrite Hl1. cbn [mbind option_bind].
  destruct (removeGroup_loop_fields (providerFor m gid) l m1)
    as (Hh & Hrg & Hsp & Hp & Hr & Hsm & Hc).
  assert (ids (heap m1) l = ids (heap m) l) as Hids.
  { unfold ids. apply list_fmap_ext. intros _ x _. apply Hids1. }
  rewrite Hids in *.
  eexists. split; [reflexivity|].
  set (m2 := foldl _ m1 l) in *.
  assert (∀ M, heap (deleteGroupId_if (providerFor m gid) gid M) = heap M
               ∧ root (deleteGroupId_if (providerFor m gid) gid M) = root M
               ∧ rootGroups (deleteGroupId_if (providerFor m gid) gid M) = rootGroups M
               ∧ storageMap (deleteGroupId_if (providerFor m gid) gid M) = storageMap M
               ∧ _pinnedGroupId (deleteGroupId_if (providerFor m gid) gid M)
                 = _pinnedGroupId M
               ∧ calls (deleteGroupId_if (providerFor m gid) gid M)
                 = calls M ++ deletions (providerFor m gid) [gid]) as Hlast.
  { intros M. unfold deleteGroupId_if, deletions.
    destruct (providerFor m gid); [done|]. by rewrite app_nil_r. }
  destruct (Hlast (with_storageMap (delete gid) (with_root (delete gid) m2)))
    as (-> & -> & -> & -> & -> & ->).
  mgr_simpl. split_and!; try congruence.
  - intros k. destruct (decide (k = gid)) as [->|Hne].
    + rewrite lookup_delete_eq, decide_True; [done|by left].
    + rewrite lookup_delete_ne, Hr, Hroot1 by done.
      destruct (decide (k ∈ ids (heap m) l)) as [Hin|Hnin].
      * rewrite decide_True; [done|by right].
      * rewrite decide_False; [done|]. by intros [?|?].
  - intros k. destruct (decide (k = gid)) as [->|Hne].
    + rewrite lookup_delete_eq, decide_True; [done|by left].
    + rewrite lookup_delete_ne, Hsm, Hsm1 by done.
      destruct (decide (k ∈ ids (heap m) l)) as [Hin|Hnin].
      * rewrite decide_True; [done|by right].
      * rewrite decide_False; [done|]. by intros [?|?].
  - rewrite Hc, Hcalls1, <- app_assoc. f_equal. unfold deletions.
    destruct (providerFor m gid); [|done]. by rewrite fmap_app.
Qed.

(** X9. A new root group without children, registered by [addGroup] and
    then removed by [removeGroup], leaves the manager as it was but for
    the two calls on the provider: the save and the delete. *)
Theorem addGroup_removeGroup_restores m g (s : string) provider (fuel : nat) :
  let gid := id (heap m !!! g) in
  root m !! gid = None → rootGroups m !! gid = None → storageMap m !! gid = None →
  parentGroup (heap m !!! g) = None → childGroups (heap m) g = [] →
  jsmap_get s (_storageProvider m) = Some provider →
  0 < fuel →
  removeGroup fuel gid (addGroup g s None m)
  = Some (issue (Call_deleteGroupId (provider_id provider) gid)
            (issue (Call_saveGroup (provider_id provider) g) m)).
Proof.
  intros gid Hroot Hrg Hsm Hpar Hch Hprov Hfuel.
  destruct fuel as [|fuel]; [lia|].
  unfold addGroup. cbn [truthy]. fold gid.
  set (m3 := with_storageMap _ _).
  assert (providerFor m3 gid = Some provider) as Hp3.
  { unfold providerFor. subst m3. mgr_simpl. by rewrite lookup_insert_eq. }
  unfold saveGroup. replace (heap m3) with (heap m) by done. fold gid. rewrite Hp3.
  unfold removeGroup, providerFor. subst m3. mgr_simpl.
  rewrite !lookup_insert_eq. cbn [default]. unfold Datatypes.id.
  rewrite Hprov, Hpar. mgr_simpl. rewrite getAllChildGroups_S, Hch.
  cbn [foldl mbind option_bind]. unfold deleteGroupId_if, issue. mgr_simpl.
  rewrite !delete_insert_id by done. by destruct m.
Qed.

Lemma saveGroup_pinned group m :
  _pinnedGroupId (saveGroup group m) = _pinnedGroupId m.
Proof. unfold saveGroup. by destruct (providerFor _ _). Qed.

(** X10. [renameGroup] leaves the pin alone: after the pinned group has
    been renamed to a name with another id, the pin still holds the old
    id, under which no group is registered any more. *)
Theorem renameGroup_drops_pin m (gid name : string) src provider :
  providerFor m gid = Some provider → root m !! gid = Some src →
  makeGroupId name ≠ gid → _pinnedGroupId m = gid →
  let m' := renameGroup gid name m in
  _pinnedGroupId m' = gid ∧ findGroup (_pinnedGroupId m') m' = None
  ∧ findGroup (makeGroupId name) m' = Some (length (heap m)).
Proof.
  intros Hprov Hsrc Hne Hpin m'. subst m'. unfold renameGroup, findGroup.
  rewrite Hprov, Hsrc.
  match goal with
  | |- context [saveGroup ?d ?M] =>
      destruct (saveGroup_fields d M) as (_ & Hr & _);
      rewrite (saveGroup_pinned d M), Hr
  end.
  assert (∀ (M : GroupManager Uri) (b : bool) f,
            root (if b then with_rootGroups f M else M) = root M
            ∧ _pinnedGroupId (if b then with_rootGroups f M else M) = _pinnedGroupId M)
    as Hif by (intros M [] f; done).
  destruct (parentGroup _) as [p|]; mgr_simpl.
  all: match goal with
       | |- context [if ?b then with_rootGroups ?f ?M else ?M] =>
           destruct (Hif M b f) as [-> ->]
       end; mgr_simpl.
  all: rewrite Hpin, lookup_insert_ne, lookup_delete_eq, lookup_insert_eq by done.
  all: done.
Qed.

End RemoveSubtree.

(* ===================================================================== *)
(** * GroupManager.ts: moveGroup when it succeeds                          *)
(* ===================================================================== *)

Section MoveGroup.
Context {Uri : Type} `{!VscodeUri Uri} `{!Uuid}.
Implicit Types (m : GroupManager Uri) (h : Heap Uri) (g p x : ref).

(** The [saveGroup] calls issued for the groups [l] on their provider. *)
Definition saves (provider : option (FileFocusStorageProvider Uri))
  (l : list ref) : list ProviderCall :=
  match provider with
  | Some p => Call_saveGroup (provider_id p) <$> l
  | None => []
  end.

Lemma saveGroup_saves group m :
  calls (saveGroup group m)
  = calls m ++ saves (providerFor m (id (heap m !!! group))) [group].
Proof.
  rewrite saveGroup_calls. unfold saves.
  destruct (providerFor _ _); [done|by rewrite app_nil_r].
Qed.

Lemma alter_parent_None h g :
  parentGroup (h !!! g) = None → alter (set_parentGroup None) g h = h.
Proof.
  intros Hp. trans (alter (λ x : Group Uri, x) g h); [|by apply list_alter_id].
  apply list_alter_ext; [|done]. intros x Hx.
  rewrite (list_lookup_total_correct _ _ _ Hx) in Hp. destruct x. simpl in Hp.
  by subst.
Qed.

(** A registered group leaves its parent: the store after the first step
    of [moveGroup]. *)
Lemma leave_parent m (gid : string) g :
  wf_registry m = true → root m !! gid = Some g →
  let h1 := match parentGroup (heap m !!! g) with
            | Some p => removeChildGroup p g (heap m)
            | None => heap m
            end in
  length h1 = length (heap m)
  ∧ (∀ x, payload (h1 !!! x) = payload (heap m !!! x))
  ∧ parentGroup (h1 !!! g) = None
  ∧ (∀ x, x ≠ g → parentGroup (h1 !!! x) = parentGroup (heap m !!! x))
  ∧ (∀ p, parentGroup (heap m !!! g) = Some p →
          ∃ i, childGroups (heap m) p !! i = Some g
               ∧ childGroups h1 p = delete i (childGroups (heap m) p)
               ∧ (g ∉ childGroups h1 p))
  ∧ (∀ x, parentGroup (heap m !!! g) ≠ Some x →
          childGroups h1 x = childGroups (heap m) x).
Proof.
  intros Hwf Hg h1. subst h1.
  destruct (wf_registry_entry m gid g Hwf Hg) as (Hglt & Hid & _ & _ & _ & Hpar).
  destruct (parentGroup (heap m !!! g)) as [p|] eqn:Hp.
  - destruct (Hpar p eq_refl) as (Hplt & Hpg & Hin & Hpreg).
    destruct (wf_registry_entry m _ p Hwf Hpreg) as (_ & _ & _ & Hnd & _).
    destruct (removeChildGroup_member p g (heap m) Hplt Hglt Hin Hnd)
      as (i & Hi & Hdel & Hnot & Hnone).
    split_and!.
    + apply removeChildGroup_length.
    + intros x. apply removeChildGroup_payload.
    + done.
    + intros x Hx. by apply removeChildGroup_parent_ne.
    + intros p' [= <-]. by exists i.
    + intros x Hx. apply removeChildGroup_childGroups_ne. congruence.
  - by split_and!.
Qed.

Lemma leave_parent_fields m (gid : string) g :
  let m1 := match parentGroup (heap m !!! g) with
            | Some p => with_heap (removeChildGroup p g) m
            | None => with_rootGroups (delete gid) m
            end in
  root m1 = root m ∧ storageMap m1 = storageMap m
  ∧ _storageProvider m1 = _storageProvider m ∧ calls m1 = calls m
  ∧ _pinnedGroupId m1 = _pinnedGroupId m
  ∧ heap m1 = match parentGroup (heap m !!! g) with
              | Some p => removeChildGroup p g (heap m)
              | None => heap m
              end
  ∧ rootGroups m1 = match parentGroup (heap m !!! g) with
                    | Some p => rootGroups m
                    | None => delete gid (rootGroups m)
                    end.
Proof. by destruct (parentGroup (heap m !!! g)). Qed.

Lemma providerFor_fields m m' (k : string) :
  storageMap m' = storageMap m → _storageProvider m' = _storageProvider m →
  providerFor m' k = providerFor m k.
Proof. unfold providerFor. by intros -> ->. Qed.

(** X11. [moveGroup(id, null)] (or with an empty parent id) of a
    registered group of a well-formed registry succeeds: the group leaves
    the children of its parent, has no parent, is in the root set under
    its id, and is saved once on its provider; the flattened map and the
    routing table stay as they are, and so do the children of every other
    group. *)
Theorem moveGroup_to_root m (gid : string) (np : option string) g :
  wf_registry m = true → root m !! gid = Some g → truthy np = false →
  ∃ m', moveGroup gid np m = (true, m')
    ∧ root m' = root m ∧ storageMap m' = storageMap m
    ∧ rootGroups m' = <[gid := g]> (rootGroups m)
    ∧ parentGroup (heap m' !!! g) = None
    ∧ (∀ p, parentGroup (heap m !!! g) = Some p → g ∉ childGroups (heap m') p)
    ∧ (∀ x, parentGroup (heap m !!! g) ≠ Some x →
            childGroups (heap m') x = childGroups (heap m) x)
    ∧ calls m' = calls m ++ saves (providerFor m gid) [g].
Proof.
  intros Hwf Hg Hnp.
  destruct (wf_registry_entry m gid g Hwf Hg) as (Hglt & Hid & _).
  destruct (leave_parent m gid g Hwf Hg) as (Hlen & Hpay & Hnone & _ & Hold & Hothers).
  destruct (leave_parent_fields m gid g) as (Hr1 & Hsm1 & Hsp1 & Hc1 & _ & Hh1 & Hrg1).
  unfold moveGroup. rewrite Hg, Hnp.
  set (m1 := match parentGroup (heap m !!! g) with
             | Some p => with_heap (removeChildGroup p g) m
             | None => with_rootGroups (delete gid) m
             end) in *.
  set (h1 := match parentGroup (heap m !!! g) with
             | Some p => removeChildGroup p g (heap m)
             | None => heap m
             end) in *.
  set (m2 := with_heap _ (with_rootGroups _ m1)).
  assert (heap m2 = h1) as Hh2.
  { subst m2. mgr_simpl. rewrite Hh1. by apply alter_parent_None. }
  eexists. split; [reflexivity|].
  destruct (saveGroup_fields g m2) as (-> & -> & -> & -> & _).
  rewrite saveGroup_saves, Hh2.
  rewrite (payload_id _ _ (Hpay g)), Hid.
  rewrite (providerFor_fields m m2) by done.
  split_and!; try done.
  - subst m2. mgr_simpl. rewrite Hrg1.
    destruct (parentGroup (heap m !!! g)); [done|]. apply insert_delete_eq.
  - intros p Hp. by destruct (Hold p Hp) as (i & _ & _ & ?).
  - subst m2. mgr_simpl. by rewrite Hc1.
Qed.


(** X13. [moveGroup(id, id)]: a registered root group without a child of
    its own id becomes its own child and its own parent, and leaves the
    root set; from then on [getAllChildGroups] of the group does not
    return, whatever the fuel. *)
Theorem moveGroup_into_itself m (gid : string) g :
  root m !! gid = Some g → gid ≠ "" → g < length (heap m) →
  parentGroup (heap m !!! g) = None →
  Forall (λ value, id (heap m !!! value) ≠ id (heap m !!! g))
         (childGroups (heap m) g) →
  let m' := (moveGroup gid (Some gid) m).2 in
  childGroups (heap m') g = childGroups (heap m) g ++ [g]
  ∧ parentGroup (heap m' !!! g) = Some g
  ∧ rootGroups m' !! gid = None
  ∧ root m' !! gid = Some g
  ∧ ∀ fuel, getAllChildGroups fuel (heap m') g = None.
Proof.
  intros Hg Hgid Hglt Hpar Hguard m'. subst m'.
  unfold moveGroup. rewrite Hg, Hpar. cbn [truthy default].
  rewrite !bool_decide_eq_true_2 by done. unfold Datatypes.id. mgr_simpl.
  rewrite Hg. cbn [snd].
  set (m2 := with_heap (addChildGroup g g) (with_rootGroups (delete gid) m)).
  destruct (saveGroup_fields g m2) as (Hsh & Hsr & Hsrg & _).
  rewrite Hsr. replace (root m2) with (root m) by done. rewrite Hg.
  destruct (saveGroup_fields g (saveGroup g m2)) as (-> & -> & -> & _).
  rewrite Hsh, Hsr, Hsrg. subst m2. mgr_simpl.
  destruct (addChildGroup_orphan g g (heap m)) as (Hch & Hpa & _); [done..|].
  assert (∀ fuel, getAllChildGroups fuel (addChildGroup g g (heap m)) g = None)
    as Hloop.
  { intros fuel. apply getAllChildGroups_cycle. apply tc_once. unfold child.
    rewrite Hch. apply elem_of_app. right. by left. }
  split_and!; [done..|apply lookup_delete_eq|done|done].
Qed.

(** [wouldCreateCircularReference] of the tree view (FileFocusTreeProvider.ts):
    the ids are equal, or a group returned by [getAllChildGroups] has the id
    of the target. *)
Definition wouldCreateCircularReference (fuel : nat) h (sourceGroup targetGroup : ref)
  : option bool :=
  if bool_decide (id (h !!! sourceGroup) = id (h !!! targetGroup)) then Some true
  else
    allDescendants ← getAllChildGroups fuel h sourceGroup;
    Some (bool_decide
            (Exists (λ descendant, id (h !!! descendant) = id (h !!! targetGroup))
                    allDescendants)).

(** X14. The guard of the tree view is sound: when
    [wouldCreateCircularReference(source, target)] answers [false] on a
    store without cycles, [moveGroup(source.id, target.id)] leaves the
    store without cycles. *)
Theorem guarded_moveGroup_acyclic m s t (fuel : nat) :
  acyclic (heap m) →
  root m !! id (heap m !!! s) = Some s → root m !! id (heap m !!! t) = Some t →
  id (heap m !!! t) ≠ "" →
  wouldCreateCircularReference fuel (heap m) s t = Some false →
  acyclic (heap (moveGroup (id (heap m !!! s)) (Some (id (heap m !!! t))) m).2).
Proof.
  intros Hac Hs Ht Htid Hguard. unfold wouldCreateCircularReference in Hguard.
  case_bool_decide as Hids; [done|].
  destruct (getAllChildGroups fuel (heap m) s) as [l|] eqn:Hl; [|done].
  cbn [mbind option_bind] in Hguard. injection Hguard as Hguard.
  apply bool_decide_eq_false in Hguard. apply Forall_Exists_neg in Hguard.
  assert (t ≠ s) as Hne by (intros ->; done).
  assert (¬ descendant (heap m) s t) as Hnot.
  { eapply getAllChildGroups_not_descendant; [exact Hl|]. intros Hin.
    rewrite Forall_forall in Hguard. by apply (Hguard t Hin). }
  set (gid := id (heap m !!! s)) in *. set (tid := id (heap m !!! t)) in *.
  destruct (leave_parent_fields m gid s) as (Hr1 & _ & _ & _ & _ & Hh1 & _).
  unfold moveGroup. rewrite Hs. cbn [truthy default].
  rewrite !bool_decide_eq_true_2 by done. unfold Datatypes.id.
  set (m1 := match parentGroup (heap m !!! s) with
             | Some p => with_heap (removeChildGroup p s) m
             | None => with_rootGroups (delete gid) m
             end) in *.
  rewrite Hr1, Ht.
  set (m2 := with_heap (addChildGroup t s) m1).
  destruct (saveGroup_fields s m2) as (Hsh & Hsr & _).
  rewrite Hsr. replace (root m2) with (root m) by done. rewrite Ht. cbn [snd].
  destruct (saveGroup_fields t (saveGroup s m2)) as (-> & _).
  rewrite Hsh. subst m2. mgr_simpl. rewrite Hh1.
  unfold acyclic, descendant.
  apply (acyclic_add_edge (child (heap m)) _ t s); [|done..].
  intros x y [Hxy|Hxy]%addChildGroup_child; [|by right]. left.
  destruct (parentGroup (heap m !!! s)); [|done].
  by eapply removeChildGroup_child.
Qed.

End MoveGroup.

(* ===================================================================== *)
(** * GroupManager.ts: addGroupToMemory on a tree                          *)
(* ===================================================================== *)

Section Merge.
Context {Uri : Type} `{!VscodeUri Uri} `{!Uuid}.
Implicit Types (m : GroupManager Uri) (h : Heap Uri) (g r : ref) (t : GroupTree Uri).

(** What [addGroupToMemory] leaves in the maps for the tree [t] held at
    [g] below [parent]. *)
Definition registers t (s : string) (parent : option ref) g m m' : Prop :=
  heap m' = heap m ∧ _storageProvider m' = _storageProvider m
  ∧ calls m' = calls m ∧ _pinnedGroupId m' = _pinnedGroupId m
  ∧ (∀ k, k ∉ tree_ids t →
          root m' !! k = root m !! k ∧ storageMap m' !! k = storageMap m !! k)
  ∧ (∀ k, k ∈ tree_ids t →
          ∃ r, root m' !! k = Some r ∧ id (heap m !!! r) = k
               ∧ storageMap m' !! k = Some s)
  ∧ (∀ k, rootGroups m' !! k
          = if decide (parent = None ∧ k = tree_id t) then Some g
            else rootGroups m !! k).

Lemma register_children (n : nat) (s : string) g (ks : list (GroupTree Uri)) :
  Forall (λ t, ∀ parent c m, holds (heap m) parent c t → height t < n →
               ∃ m', addGroupToMemory n c s m = Some m'
                     ∧ registers t s parent c m m') ks →
  Forall (λ t, height t < n) ks →
  ∀ (cs : list ref) m,
    Forall2 (holds (heap m) (Some g)) cs ks →
    ∃ m', foldl (λ acc childGroup, m' ← acc; addGroupToMemory n childGroup s m')
                (Some m) cs = Some m'
      ∧ heap m' = heap m ∧ _storageProvider m' = _storageProvider m
      ∧ calls m' = calls m ∧ _pinnedGroupId m' = _pinnedGroupId m
      ∧ (∀ k, k ∉ concat (tree_ids <$> ks) →
              root m' !! k = root m !! k ∧ storageMap m' !! k = storageMap m !! k)
      ∧ (∀ k, k ∈ concat (tree_ids <$> ks) →
              ∃ r, root m' !! k = Some r ∧ id (heap m !!! r) = k
                   ∧ storageMap m' !! k = Some s)
      ∧ (∀ k, rootGroups m' !! k = rootGroups m !! k).
Proof.
  intros IH Hheights. induction ks as [|t ks IHks]; intros cs m Hall.
  { inversion Hall; subst. exists m. split_and!; try done.
    intros k Hk. by apply elem_of_nil in Hk. }
  inversion Hall as [|c ? cs' ? Hc Hcs]; subst.
  apply Forall_cons in IH as [IHt IH]. apply Forall_cons in Hheights as [Ht Hks].
  destruct (IHt (Some g) c m Hc Ht)
    as (m1 & Hrun & Hh1 & Hsp1 & Hc1 & Hp1 & Hout1 & Hin1 & Hrg1).
  destruct (IHks IH Hks cs' m1)
    as (m' & Hfold & Hh & Hsp & Hcl & Hp & Hout & Hin & Hrg).
  { by rewrite Hh1. }
  exists m'. cbn [foldl mbind option_bind]. rewrite Hrun. cbn [mbind option_bind].
  split_and!; try congruence.
  - intros k Hk. cbn [fmap list_fmap concat] in Hk.
    apply not_elem_of_app in Hk as [Hk1 Hk2].
    destruct (Hout k Hk2) as [-> ->]. by apply Hout1.
  - intros k Hk. cbn [fmap list_fmap concat] in Hk.
    destruct (decide (k ∈ concat (tree_ids <$> ks))) as [Hk2|Hk2].
    + destruct (Hin k Hk2) as (r & ? & ? & ?). exists r. rewrite <- Hh1. done.
    + apply elem_of_app in Hk as [Hk1|?]; [|done].
      destruct (Hout k Hk2) as [-> ->]. by apply Hin1.
  - intros k. rewrite Hrg, Hrg1. by rewrite decide_False by (by intros [? _]).
Qed.

(** [addGroupToMemory] walks the tree a group holds. *)
Lemma addGroupToMemory_holds t (s : string) :
  ∀ parent g (fuel : nat) m,
    holds (heap m) parent g t → height t < fuel →
    ∃ m', addGroupToMemory fuel g s m = Some m' ∧ registers t s parent g m m'.
Proof.
  induction t as [i n ro res ks IH] using GroupTree_rect'.
  intros parent g fuel m Hh Hf. destruct fuel as [|fuel]; [lia|].
  inversion Hh as [? ? ? ? ? ? ? Hlt Hid Hname Hro Hres Hpar Hkids]; subst.
  cbn [addGroupToMemory].
  set (gid := id (heap m !!! g)).
  set (m3 := if isRootGroup _ g then _ else _).
  assert (heap m3 = heap m ∧ _storageProvider m3 = _storageProvider m
          ∧ calls m3 = calls m ∧ _pinnedGroupId m3 = _pinnedGroupId m
          ∧ root m3 = <[gid := g]> (root m)
          ∧ storageMap m3 = <[gid := s]> (storageMap m)
          ∧ rootGroups m3 = if decide (parentGroup (heap m !!! g) = None)
                            then <[gid := g]> (rootGroups m) else rootGroups m)
    as (Hh3 & Hsp3 & Hc3 & Hp3 & Hr3 & Hsm3 & Hrg3).
  { subst m3. unfold isRootGroup. mgr_simpl.
    destruct (decide (parentGroup (heap m !!! g) = None)) as [Hp|Hp].
    - by rewrite bool_decide_eq_true_2.
    - by rewrite bool_decide_eq_false_2. }
  assert (Forall (λ k, height k < fuel) ks) as Hheights.
  { apply Forall_forall. intros k Hk.
    pose proof (height_child (GNode (id (heap m !!! g)) (name (heap m !!! g))
                                (readonly (heap m !!! g)) (resources (heap m) g) ks)
                  k Hk). lia. }
  assert (Forall (λ t, ∀ parent c m, holds (heap m) parent c t → height t < fuel →
                       ∃ m', addGroupToMemory fuel c s m = Some m'
                             ∧ registers t s parent c m m') ks) as IH'.
  { eapply Forall_impl; [exact IH|]. intros t0 H0 parent0 c0 m0. apply H0. }
  destruct (register_children fuel s g ks IH' Hheights (childGroups (heap m3) g) m3)
    as (m' & Hfold & Hh' & Hsp & Hcl & Hp & Hout & Hin & Hrg).
  { by rewrite Hh3. }
  exists m'. split; [exact Hfold|]. unfold registers. cbn [tree_ids tree_id].
  split_and!; try congruence.
  - intros k [Hne Hk]%not_elem_of_cons. destruct (Hout k Hk) as [-> ->].
    rewrite Hr3, Hsm3. by rewrite !lookup_insert_ne.
  - intros k Hk. destruct (decide (k ∈ concat (tree_ids <$> ks))) as [Hk2|Hk2].
    + destruct (Hin k Hk2) as (r & ? & ? & ?). exists r. by rewrite <- Hh3.
    + apply elem_of_cons in Hk as [->|?]; [|done].
      destruct (Hout gid Hk2) as [-> ->]. rewrite Hr3, Hsm3, !lookup_insert_eq.
      by exists g.
  - intros k. rewrite Hrg, Hrg3.
    destruct (decide (parentGroup (heap m !!! g) = None)) as [Hp0|Hp0].
    + destruct (decide (k = gid)) as [->|Hne].
      * rewrite lookup_insert_eq, decide_True; done.
      * rewrite lookup_insert_ne by done. rewrite decide_False; [done|].
        by intros [_ ?].
    + rewrite decide_False; [done|]. by intros [? _].
Qed.

(** X15. [addGroupToMemory] on a group that holds a tree returns (given
    fuel for the height of the tree) and registers the whole tree: every
    id of the tree is mapped to a Group with that id and routed to the
    provider, entries under other ids stay, no Group object is altered,
    and only a group without a parent is put into the root set. *)
Theorem addGroupToMemory_registers_tree t (s : string) :
  ∀ parent g (fuel : nat) m,
    holds (heap m) parent g t → height t < fuel →
    ∃ m', addGroupToMemory fuel g s m = Some m' ∧ registers t s parent g m m'.
Proof.
  intros parent g fuel m Hholds Hfuel.
  destruct (addGroupToMemory_holds t s parent g fuel m Hholds Hfuel)
    as (m' & Hrun & Hregisters).
  exists m'. by split.
Qed.

End Merge.

(* ===================================================================== *)
(** * storage/StateStorage.ts: deleteGroupId, reset, and saving into a
      store that holds other groups                                        *)
(* ===================================================================== *)

Section StateStorageMore.
Context {Uri Resource : Type} `{!VscodeUri Uri} `{!FocusUtil Uri Resource}.
Implicit Types (st : StorageService Resource) (h : Heap Uri)
  (sm : JsMap (GroupRecord Resource)) (t : GroupTree Uri).

(** [deleteGroupRecursive]: the record is looked up in the map, the ids of
    its child records are deleted first, each through a lookup of its
    own, then the id itself.  The fuel bounds the depth of the
    recursion. *)
Fixpoint deleteGroupRecursive (fuel : nat) sm (groupId : string)
  : option (JsMap (GroupRecord Resource)) :=
  match fuel with
  | 0 => None
  | S n =>
      match jsmap_get groupId sm with
      | None => Some sm
      | Some groupRecord =>
          sm1 ← match rec_childGroups groupRecord with
                | Some childRecords =>
                    foldl (λ acc childRecord,
                             sm' ← acc;
                             deleteGroupRecursive n sm' (rec_id childRecord))
                          (Some sm) childRecords
                | None => Some sm
                end;
          Some (jsmap_delete groupId sm1)
      end
  end.

Definition StateStorage_deleteGroupId (fuel : nat) (groupId : string) st
  : option (StorageService Resource) :=
  let groupStore := getValue_GroupStore st "groupmap" [] in
  let storeMap := new_Map (Object_entries groupStore) in
  storeMap' ← deleteGroupRecursive fuel storeMap groupId;
  Some (setValue "groupmap" (VGroupStore (Object_fromEntries storeMap')) st).

(** [reset]. *)
Definition StateStorage_reset st : StorageService Resource :=
  deleteValue "groupmap" st.

(** ** A store with a cycle cannot be saved *)

Lemma records_collected (n : nat) h (cs : list ref)
  (acc recs : list (GroupRecord Resource)) :
  foldl (λ acc childGroup,
           records ← acc;
           r ← createGroupRecord n h childGroup;
           Some (records ++ [r]))
        (Some acc) cs = Some recs →
  Forall (λ c, is_Some (createGroupRecord n h c)) cs.
Proof.
  revert acc. induction cs as [|c cs IH]; intros acc Hfold; [constructor|].
  cbn [foldl mbind option_bind] in Hfold.
  destruct (createGroupRecord n h c) as [r|] eqn:Hc.
  - constructor; [by eexists|]. by eapply IH.
  - exfalso. cbn [mbind option_bind] in Hfold. clear -Hfold.
    induction cs as [|c' cs IH']; [done|]. by apply IH'.
Qed.

Lemma createGroupRecord_traversal (n : nat) h g (r : GroupRecord Resource) :
  createGroupRecord n h g = Some r → ∃ l, getAllChildGroups n h g = Some l.
Proof.
  revert g r. induction n as [|n IH]; intros g r; [done|].
  cbn [createGroupRecord]. intros Hrec.
  destruct (foldl _ (Some []) (childGroups h g)) as [recs|] eqn:Hfold; [|done].
  apply records_collected in Hfold.
  rewrite getAllChildGroups_S. apply collect_returns.
  eapply Forall_impl; [exact Hfold|]. intros c [rc Hc]. by eapply IH.
Qed.

(** X16. On a store in which the group is its own descendant,
    [saveGroup] does not return, whatever the fuel: [createGroupRecord]
    recurses through the child groups without end. *)
Theorem saveGroup_cycle_diverges h g st (fuel : nat) :
  descendant h g g → StateStorage_saveGroup fuel h g st = None.
Proof.
  intros Hcyc. unfold StateStorage_saveGroup.
  destruct (createGroupRecord fuel h g) as [r|] eqn:Hrec; [|done].
  destruct (createGroupRecord_traversal _ _ _ _ Hrec) as [l Hl].
  by rewrite (getAllChildGroups_cycle fuel h g Hcyc) in Hl.
Qed.

(** ** reset *)

Lemma migrateStorageV1_marks st :
  (0 < getValue_number (migrateStorageV1 st) "storeversion" 0)%Z.
Proof.
  unfold migrateStorageV1. case_bool_decide as Hv; [lia|].
  unfold getValue_number at 1, setValue. by rewrite lookup_insert_eq.
Qed.

(** X17. Once [loadRootNodes] has run on a storage, [reset] followed by
    [loadRootNodes] returns no group, builds no Group object and leaves
    the storage as [reset] left it: the migration does not run again. *)
Theorem reset_then_load_is_empty st h0 h :
  let st1 := (StateStorage_loadRootNodes st h0).1.1 in
  StateStorage_loadRootNodes (StateStorage_reset st1) h
  = (StateStorage_reset st1, h, []).
Proof.
  intros st1.
  assert (st1 = migrateStorageV1 st) as ->.
  { subst st1. unfold StateStorage_loadRootNodes.
    destruct (loadRootNodes_pass1 _ _) as [h1 allGroups].
    by destruct (loadRootNodes_pass2 _ _ _). }
  pose proof (migrateStorageV1_marks st) as Hmark.
  set (st1 := migrateStorageV1 st) in *.
  assert (migrateStorageV1 (StateStorage_reset st1) = StateStorage_reset st1) as Hskip.
  { unfold migrateStorageV1. rewrite bool_decide_eq_true_2; [done|].
    unfold StateStorage_reset, deleteValue, getValue_number in *.
    rewrite lookup_delete_ne by done. lia. }
  unfold StateStorage_loadRootNodes. rewrite Hskip.
  unfold getValue_GroupStore, StateStorage_reset, deleteValue.
  by rewrite lookup_delete_eq.
Qed.

End StateStorageMore.

Section DeleteGroupId.
Context {Uri Resource : Type} `{!VscodeUri Uri} `{!FocusUtil Uri Resource}.
Implicit Types (st : StorageService Resource) (h : Heap Uri)
  (sm : JsMap (GroupRecord Resource)) (t : GroupTree Uri) (pid : option string).

(** The entries whose key is not among [ids]. *)
Definition without (ids : list string) sm : JsMap (GroupRecord Resource) :=
  filter (λ e, e.1 ∉ ids) sm.

Lemma jsmap_get_without (ids : list string) sm (k : string) :
  k ∉ ids → jsmap_get k (without ids sm) = jsmap_get k sm.
Proof.
  intros Hk. unfold jsmap_get, without.
  induction sm as [|[k' v] sm IH]; [done|].
  rewrite filter_cons. cbn [fst].
  destruct (decide (k' = k)) as [->|Hne].
  - rewrite decide_True by done. cbn [list_find]. by rewrite !decide_True.
  - case_decide.
    + cbn [list_find]. rewrite !decide_False by done.
      destruct (list_find _ (filter _ sm)) as [[? [? ?]]|];
        destruct (list_find _ sm) as [[? [? ?]]|]; simplify_eq/=; done.
    + cbn [list_find]. rewrite decide_False by done.
      destruct (list_find _ (filter _ sm)) as [[? [? ?]]|];
        destruct (list_find _ sm) as [[? [? ?]]|]; simplify_eq/=; done.
Qed.

Lemma without_nil sm : without [] sm = sm.
Proof.
  unfold without. induction sm as [|e sm IH]; [done|].
  rewrite filter_cons, decide_True by apply not_elem_of_nil. by rewrite IH.
Qed.

Lemma without_without (ids ids' : list string) sm :
  without ids' (without ids sm) = without (ids ++ ids') sm.
Proof.
  unfold without. rewrite list_filter_filter. apply list_filter_iff.
  intros e. rewrite not_elem_of_app. tauto.
Qed.

Lemma jsmap_delete_without (i : string) sm : jsmap_delete i sm = without [i] sm.
Proof.
  unfold jsmap_delete, without. apply list_filter_iff. intros e.
  rewrite list_elem_of_singleton. done.
Qed.

Lemma without_comm_cons (i : string) (ids : list string) sm :
  without [i] (without ids sm) = without (i :: ids) sm.
Proof.
  rewrite without_without. unfold without. apply list_filter_iff. intros e.
  set_solver.
Qed.

Lemma delete_children (n : nat) pid (ks : list (GroupTree Uri)) :
  Forall (λ t, ∀ pid sm,
            (∀ k r, (k, r) ∈ nodes pid t → jsmap_get k sm = Some r) →
            NoDup (tree_ids t) → height t < n →
            deleteGroupRecursive n sm (tree_id t) = Some (without (tree_ids t) sm)) ks →
  Forall (λ t, height t < n) ks →
  NoDup (concat (tree_ids <$> ks)) →
  ∀ sm (done : list string),
    (∀ k, k ∈ done → k ∉ concat (tree_ids <$> ks)) →
    (∀ t k r, t ∈ ks → (k, r) ∈ nodes pid t → jsmap_get k sm = Some r) →
    foldl (λ acc childRecord,
             sm' ← acc; deleteGroupRecursive n sm' (rec_id childRecord))
          (Some (without done sm)) (record_of pid <$> ks)
    = Some (without (done ++ concat (tree_ids <$> ks)) sm).
Proof.
  intros IH Hheights. induction ks as [|t ks IHks]; intros Hnd sm done Hdone Hentries.
  { cbn. by rewrite app_nil_r. }
  apply Forall_cons in IH as [IHt IH]. apply Forall_cons in Hheights as [Ht Hks].
  cbn [fmap list_fmap concat] in *.
  apply NoDup_app in Hnd as (Hndt & Hdis & Hndks).
  cbn [foldl mbind option_bind]. rewrite rec_id_record_of.
  rewrite (IHt pid (without done sm)); [|..|done|done].
  - cbn [mbind option_bind]. rewrite without_without.
    rewrite (IHks IH Hks Hndks sm (done ++ tree_ids t)).
    + by rewrite <- app_assoc.
    + intros k [Hk|Hk]%elem_of_app Hin.
      * apply (Hdone k Hk). apply elem_of_app. by right.
      * by apply (Hdis k Hk).
    + intros t' k r Ht'. apply Hentries. by right.
  - intros k r Hkr. rewrite jsmap_get_without.
    + apply (Hentries t); [by left|done].
    + intros Hk. apply (Hdone k Hk). apply elem_of_app. left.
      rewrite <- (nodes_keys pid t). apply list_elem_of_fmap. by exists (k, r).
Qed.

(** On a store map that holds the entries of a tree, deleting the id of
    the root of the tree deletes the entries of the tree. *)
Lemma deleteGroupRecursive_tree (n : nat) t : ∀ pid sm,
  (∀ k r, (k, r) ∈ nodes pid t → jsmap_get k sm = Some r) →
  NoDup (tree_ids t) → height t < n →
  deleteGroupRecursive n sm (tree_id t) = Some (without (tree_ids t) sm).
Proof.
  revert n. induction t as [i nm ro res ks IH] using GroupTree_rect'.
  intros n pid sm Hentries Hnd Hn. destruct n as [|n]; [lia|].
  cbn [deleteGroupRecursive tree_id].
  rewrite (Hentries i (record_of pid (GNode i nm ro res ks)))
    by exact (nodes_head pid (GNode i nm ro res ks)).
  cbn [tree_ids] in *. apply NoDup_cons in Hnd as [Hi Hnd].
  assert (Forall (λ k, height k < n) ks) as Hheights.
  { apply Forall_forall. intros k Hk.
    pose proof (height_child (GNode i nm ro res ks) k Hk). lia. }
  cbn [record_of rec_childGroups].
  destruct (decide (0 < length ks)) as [Hlen|Hlen].
  - rewrite bool_decide_eq_true_2 by done.
    assert (Forall (λ t, ∀ pid sm,
              (∀ k r, (k, r) ∈ nodes pid t → jsmap_get k sm = Some r) →
              NoDup (tree_ids t) → height t < n →
              deleteGroupRecursive n sm (tree_id t) = Some (without (tree_ids t) sm)) ks)
      as IH'.
    { eapply Forall_impl; [exact IH|]. intros t0 H0. apply H0. }
    pose proof (delete_children n (Some i) ks IH' Hheights Hnd sm []) as Hfold.
    rewrite without_nil in Hfold. rewrite Hfold.
    + cbn [mbind option_bind app]. by rewrite jsmap_delete_without, without_comm_cons.
    + intros k Hk. by apply elem_of_nil in Hk.
    + intros t k r Ht Hkr. apply Hentries.
      eapply (nodes_child pid (GNode i nm ro res ks)); [exact Ht|exact Hkr].
  - rewrite bool_decide_eq_false_2 by done.
    destruct ks; [|simpl in Hlen; lia].
    cbn [mbind option_bind fmap list_fmap concat]. by rewrite jsmap_delete_without.
Qed.

Lemma jsmap_get_elem_of sm (k : string) (r : GroupRecord Resource) :
  NoDup sm.*1 → (k, r) ∈ sm → jsmap_get k sm = Some r.
Proof.
  intros Hnd Hin. rewrite jsmap_get_dict. unfold dict.
  by apply elem_of_list_to_map.
Qed.

Lemma jsmap_get_fromEntries sm (k : string) :
  NoDup sm.*1 → jsmap_get k (Object_fromEntries sm) = jsmap_get k sm.
Proof. intros Hnd. by rewrite !jsmap_get_dict, Object_fromEntries_dict. Qed.

Lemma without_NoDup (ids : list string) sm : NoDup sm.*1 → NoDup (without ids sm).*1.
Proof.
  intros Hnd. eapply sublist_NoDup; [exact Hnd|].
  apply fmap_sublist. unfold without. apply sublist_filter.
Qed.

Lemma jsmap_get_removed (ids : list string) sm (k : string) :
  k ∈ ids → jsmap_get k (without ids sm) = None.
Proof.
  intros Hk. rewrite jsmap_get_dict. unfold dict.
  apply not_elem_of_list_to_map_1.
  intros ([k' r] & -> & [Hnot _]%list_elem_of_filter)%list_elem_of_fmap. done.
Qed.

(** X18. [deleteGroupId] of the id of a saved group: when the group
    store holds the entries that [saveGroup] writes for a tree with
    distinct ids, [deleteGroupId] of the id of its root returns (given
    fuel for the height of the tree), removes the entries of the whole
    tree and leaves every other entry as it is. *)
Theorem deleteGroupId_removes_tree st t pid (fuel : nat) :
  let groupStore := getValue_GroupStore st "groupmap" [] in
  NoDup groupStore.*1 →
  (∀ k r, (k, r) ∈ nodes pid t → (k, r) ∈ groupStore) →
  NoDup (tree_ids t) → height t < fuel →
  ∃ st', StateStorage_deleteGroupId fuel (tree_id t) st = Some st'
    ∧ ∀ k, jsmap_get k (getValue_GroupStore st' "groupmap" [])
           = if decide (k ∈ tree_ids t) then None else jsmap_get k groupStore.
Proof.
  intros groupStore Hnd Hentries Hids Hfuel.
  unfold StateStorage_deleteGroupId. fold groupStore.
  unfold Object_entries. rewrite new_Map_id by done.
  rewrite (deleteGroupRecursive_tree fuel t pid groupStore); [|..|done|done].
  2: { intros k r Hkr. apply jsmap_get_elem_of; [done|]. by apply Hentries. }
  cbn [mbind option_bind]. eexists. split; [reflexivity|]. intros k.
  unfold getValue_GroupStore at 1, setValue. rewrite lookup_insert_eq.
  rewrite jsmap_get_fromEntries by by apply without_NoDup.
  case_decide as Hk.
  - by apply jsmap_get_removed.
  - by apply jsmap_get_without.
Qed.

(** X19. [deleteGroupId] of an id without an entry in the group store
    returns and leaves every entry of the store as it is. *)
Theorem deleteGroupId_unknown st (groupId : string) (fuel : nat) :
  let groupStore := getValue_GroupStore st "groupmap" [] in
  NoDup groupStore.*1 → jsmap_get groupId groupStore = None → 0 < fuel →
  ∃ st', StateStorage_deleteGroupId fuel groupId st = Some st'
    ∧ ∀ k, jsmap_get k (getValue_GroupStore st' "groupmap" [])
           = jsmap_get k groupStore.
Proof.
  intros groupStore Hnd Hnone Hfuel. destruct fuel as [|fuel]; [lia|].
  unfold StateStorage_deleteGroupId. fold groupStore.
  unfold Object_entries. rewrite new_Map_id by done.
  cbn [deleteGroupRecursive]. rewrite Hnone. cbn [mbind option_bind].
  eexists. split; [reflexivity|]. intros k.
  unfold getValue_GroupStore at 1, setValue. rewrite lookup_insert_eq.
  by apply jsmap_get_fromEntries.
Qed.

End DeleteGroupId.

Section SaveFrame.
Context {Uri Resource : Type} `{!VscodeUri Uri} `{!FocusUtil Uri Resource}.
Implicit Types (st : StorageService Resource) (h : Heap Uri)
  (sm : JsMap (GroupRecord Resource)) (t : GroupTree Uri) (pid : option string).

(** The dictionary after the entries [l] have been set one by one. *)
Definition set_all (l : list (string * GroupRecord Resource))
  (d : gmap string (GroupRecord Resource)) : gmap string (GroupRecord Resource) :=
  foldl (λ d e, <[e.1 := e.2]> d) d l.

Lemma set_all_app l1 l2 d : set_all (l1 ++ l2) d = set_all l2 (set_all l1 d).
Proof. apply foldl_app. Qed.

Lemma save_children_dict pid (ks : list (GroupTree Uri)) :
  Forall (λ t, ∀ pid sm,
            NoDup sm.*1 →
            NoDup (saveGroupRecordRecursive sm (record_of pid t)).*1
            ∧ dict (saveGroupRecordRecursive sm (record_of pid t))
              = set_all (nodes pid t) (dict sm)) ks →
  ∀ sm, NoDup sm.*1 →
    NoDup (foldl (λ sm0 childRecord, saveGroupRecordRecursive sm0 childRecord) sm
                 (record_of pid <$> ks)).*1
    ∧ dict (foldl (λ sm0 childRecord, saveGroupRecordRecursive sm0 childRecord) sm
                  (record_of pid <$> ks))
      = set_all (concat (nodes pid <$> ks)) (dict sm).
Proof.
  induction 1 as [|t ks Ht _ IHks]; intros sm Hnd; [done|].
  cbn [fmap list_fmap foldl concat].
  destruct (Ht pid sm Hnd) as [Hnd1 Hd1].
  destruct (IHks _ Hnd1) as [Hnd2 Hd2].
  split; [done|]. by rewrite Hd2, Hd1, set_all_app.
Qed.

(** [saveGroupRecordRecursive] sets the entries of the tree, in
    pre-order, and keeps the keys of the store map distinct. *)
Lemma saveGroupRecordRecursive_dict t : ∀ pid sm,
  NoDup sm.*1 →
  NoDup (saveGroupRecordRecursive sm (record_of pid t)).*1
  ∧ dict (saveGroupRecordRecursive sm (record_of pid t))
    = set_all (nodes pid t) (dict sm).
Proof.
  induction t as [i n ro res ks IH] using GroupTree_rect'. intros pid sm Hnd.
  cbn [record_of saveGroupRecordRecursive rec_id rec_childGroups nodes].
  unfold set_all. cbn [foldl fst snd]. fold (set_all (concat (nodes (Some i) <$> ks))).
  rewrite <- dict_jsmap_set.
  destruct (decide (0 < length ks)) as [Hlen|Hlen].
  - rewrite !bool_decide_eq_true_2 by done.
    apply (save_children_dict (Some i) ks IH). by apply jsmap_set_NoDup.
  - rewrite !bool_decide_eq_false_2 by done.
    destruct ks; [|simpl in Hlen; lia]. split; [by apply jsmap_set_NoDup|done].
Qed.

Lemma set_all_lookup (l : list (string * GroupRecord Resource)) d (k : string) :
  NoDup l.*1 →
  set_all l d !! k = match jsmap_get k l with Some r => Some r | None => d !! k end.
Proof.
  revert d. induction l as [|[k' r'] l IH]; intros d Hnd; [done|].
  rewrite fmap_cons in Hnd. apply NoDup_cons in Hnd as [Hk' Hnd].
  unfold set_all. cbn [foldl fst snd]. fold (set_all l (<[k' := r']> d)).
  rewrite IH by done. rewrite jsmap_get_cons.
  destruct (decide (k' = k)) as [->|Hne].
  - assert (jsmap_get k l = None) as ->.
    { rewrite jsmap_get_dict. unfold dict. by apply not_elem_of_list_to_map_1. }
    apply lookup_insert_eq.
  - destruct (jsmap_get k l); [done|]. by apply lookup_insert_ne.
Qed.

(** X20. [saveGroup] of a group that holds a tree with distinct ids, into
    a group store that holds other groups: it returns (given fuel for the
    height of the tree); afterwards every id of the tree has the record
    of its group, and the entry of every other id is the one the store
    had. *)
Theorem saveGroup_sets_tree_keeps_others h parent g t st (fuel : nat) :
  let groupStore := getValue_GroupStore st "groupmap" [] in
  let pid := (λ p, id (h !!! p)) <$> parent in
  holds h parent g t → NoDup (tree_ids t) → NoDup groupStore.*1 →
  height t < fuel →
  ∃ st', StateStorage_saveGroup fuel h g st = Some st'
    ∧ ∀ k, jsmap_get k (getValue_GroupStore st' "groupmap" [])
           = match jsmap_get k (nodes pid t) with
             | Some r => Some r
             | None => jsmap_get k groupStore
             end.
Proof.
  intros groupStore pid Hholds Hids Hnd Hfuel.
  unfold StateStorage_saveGroup.
  rewrite (createGroupRecord_holds t h parent g fuel Hholds Hfuel).
  cbn [mbind option_bind]. fold groupStore pid.
  unfold Object_entries. rewrite new_Map_id by done.
  destruct (saveGroupRecordRecursive_dict t pid groupStore Hnd) as [Hnd' Hdict].
  eexists. split; [reflexivity|]. intros k.
  unfold getValue_GroupStore at 1, setValue. rewrite lookup_insert_eq.
  rewrite jsmap_get_fromEntries by done.
  rewrite jsmap_get_dict, Hdict, set_all_lookup by by rewrite nodes_keys.
  by rewrite <- jsmap_get_dict.
Qed.

End SaveFrame.

(* ===================================================================== *)
(** * storage/StateStorage.ts: the round trip among other groups          *)
(* ===================================================================== *)

Section RoundTripInStore.
Context {Uri Resource : Type} `{!VscodeUri Uri} `{!FocusUtil Uri Resource}.
Implicit Types (t : GroupTree Uri) (h : Heap Uri) (st : StorageService Resource)
  (groupStore : GroupStore Resource).






End RoundTripInStore.

Section NestedSave.
Context {Uri Resource : Type} `{!VscodeUri Uri} `{!FocusUtil Uri Resource}.
Implicit Types (st : StorageService Resource) (h : Heap Uri)
  (es : JsMap (GroupRecord Resource)).

(** The second pass over entries none of which lists child records
    alters no Group object and returns the groups of the entries without
    a parent id. *)
Lemma pass2_flat (allGroups : gmap string ref) h (todo : JsMap (GroupRecord Resource)) :
  ∀ groups,
    (∀ k r, (k, r) ∈ todo → is_Some (allGroups !! k) ∧ rec_childGroups r = None) →
    foldl (λ acc e,
             match allGroups !! e.1 with
             | None => acc
             | Some group =>
                 let h' := match rec_childGroups e.2 with
                           | Some childRecords =>
                               attachChildren allGroups group childRecords acc.1
                           | None => acc.1
                           end in
                 (h', if truthy (rec_parentId e.2) then acc.2 else acc.2 ++ [group])
             end) (h, groups) todo
    = (h, groups ++ (refOf allGroups <$> (filter (λ e, rootlike e = true) todo).*1)).
Proof.
  induction todo as [|[k r] todo IH]; intros groups Hall.
  { cbn. by rewrite app_nil_r. }
  destruct (Hall k r) as [[group Hgroup] Hkids]; [by left|].
  cbn [foldl fst snd]. rewrite Hgroup, Hkids. cbn [fst snd].
  rewrite IH by (intros k' r' Hin; apply Hall; by right).
  f_equal. rewrite filter_cons. unfold rootlike at 2. cbn [snd].
  destruct (truthy (rec_parentId r)) eqn:Htruthy.
  - rewrite decide_False; [done|]. unfold rootlike. cbn [snd]. by rewrite Htruthy.
  - rewrite decide_True by (unfold rootlike; cbn [snd]; by rewrite Htruthy).
    rewrite fmap_cons. cbn [fmap list_fmap fst]. rewrite <- app_assoc. cbn [app].
    unfold refOf at 2. by rewrite Hgroup.
Qed.

(** X21. A group that is attached to a saved root group and then saved
    on its own, as [addGroup] does for a nested group, is stored with the
    id of its parent, but the stored record of the parent is not
    rewritten and lists no child: [loadRootNodes] returns the parent
    alone, without children. *)
Theorem nested_group_saved_alone_is_lost h g c (i n ic nc : string) (ro roc : bool)
  (res resc : list Uri) st (fuel : nat) h0 :
  holds h None g (GNode i n ro res []) →
  holds h None c (GNode ic nc roc resc []) →
  i ≠ ic → i ≠ "" →
  getValue_GroupStore st "groupmap" [] = [] →
  getValue_DeprecateGroupStore st "groupstore" [] = [] →
  1 < fuel →
  ∃ st1 st2 st3 h' g',
    StateStorage_saveGroup fuel h g st = Some st1
    ∧ childGroups (addChildGroup g c h) g = [c]
    ∧ StateStorage_saveGroup fuel (addChildGroup g c h) c st1 = Some st2
    ∧ StateStorage_loadRootNodes st2 h0 = (st3, h', [g'])
    ∧ id (h' !!! g') = i
    ∧ childGroups h' g' = [].
Proof.
  intros Hg Hc Hne Hi Hempty Hlegacy Hfuel.
  set (rec_g := record_of (Resource := Resource) None (GNode i n ro res [])).
  set (rec_c := record_of (Resource := Resource) (Some i) (GNode ic nc roc resc [])).
  (* the first save *)
  assert (StateStorage_saveGroup fuel h g st
          = Some (setValue "groupmap" (VGroupStore [(i, rec_g)]) st)) as Hsave1.
  { rewrite (StateStorage_saveGroup_tree h g (GNode i n ro res []) st fuel);
      [|done|cbn; apply NoDup_singleton|done|cbn; lia].
    do 3 f_equal. unfold Object_fromEntries.
    apply Permutation_singleton_r. apply own_key_order_perm. }
  (* the child is attached *)
  inversion Hg as [? ? ? ? ? ? ? Hglt Hgid Hgname Hgro Hgres Hgpar Hgkids]; subst.
  inversion Hc as [? ? ? ? ? ? ? Hclt Hcid Hcname Hcro Hcres Hcpar Hckids]; subst.
  apply Forall2_nil_inv_r in Hgkids. apply Forall2_nil_inv_r in Hckids.
  assert (g ≠ c) as Hgc by (intros ->; done).
  destruct (addChildGroup_orphan g c h) as (Hch2 & Hpa2 & Hcho2 & Hpao2);
    [done|done|by rewrite Hgkids|done|].
  set (h2 := addChildGroup g c h) in *.
  rewrite Hgkids in Hch2. cbn [app] in Hch2.
  assert (∀ x, payload (h2 !!! x) = payload (h !!! x)) as Hpay
    by (intros x; apply addChildGroup_payload).
  assert (holds h2 (Some g) c
            (GNode (id (h !!! c)) (name (h !!! c)) (readonly (h !!! c))
                   (resources h c) [])) as Hc2.
  { destruct (payload_fields _ _ (Hpay c)) as (? & ? & ? & ?).
    constructor; try done.
    - subst h2. by rewrite addChildGroup_length.
    - rewrite Hcho2 by done. rewrite Hckids. constructor. }
  (* the second save *)
  set (st1 := setValue "groupmap" (VGroupStore [(id (h !!! g), rec_g)]) st) in *.
  assert (StateStorage_saveGroup fuel h2 c st1
          = Some (setValue "groupmap"
                    (VGroupStore (Object_fromEntries
                                    [(id (h !!! g), rec_g); (id (h !!! c), rec_c)]))
                    st1)) as Hsave2.
  { unfold StateStorage_saveGroup.
    rewrite (createGroupRecord_holds _ h2 (Some g) c fuel Hc2) by (cbn; lia).
    cbn [mbind option_bind fmap option_fmap option_map].
    rewrite (payload_id _ _ (Hpay g)).
    unfold getValue_GroupStore, st1, setValue. rewrite lookup_insert_eq.
    unfold Object_entries. cbn [new_Map foldl jsmap_set fst snd].
    cbn [record_of saveGroupRecordRecursive rec_id rec_childGroups length].
    rewrite bool_decide_eq_false_2 by (cbn; lia).
    cbn [jsmap_set]. rewrite decide_False by done. reflexivity. }
  set (saved := [(id (h !!! g), rec_g); (id (h !!! c), rec_c)]) in *.
  set (st2 := setValue "groupmap" (VGroupStore (Object_fromEntries saved)) st1) in *.
  (* loading *)
  assert (NoDup saved.*1) as Hkeys.
  { subst saved. cbn. apply NoDup_cons. split; [by intros ?%list_elem_of_singleton|].
    apply NoDup_singleton. }
  assert (getValue_GroupStore st2 "groupmap" [] = Object_fromEntries saved) as Hsaved.
  { unfold getValue_GroupStore, st2, setValue. by rewrite lookup_insert_eq. }
  assert (getValue_DeprecateGroupStore st2 "groupstore" [] = []) as Hlegacy2.
  { unfold getValue_DeprecateGroupStore, st2, st1, setValue in *.
    by rewrite !lookup_insert_ne. }
  pose proof (migrateStorageV1_keeps st2 Hlegacy2) as Hkeeps.
  rewrite Hsaved in Hkeeps. specialize (Hkeeps (Object_fromEntries_NoDup _ Hkeys)).
  unfold Object_fromEntries in Hkeeps. rewrite own_key_order_perm in Hkeeps.
  set (es := getValue_GroupStore (migrateStorageV1 st2) "groupmap" []) in *.
  assert (NoDup es.*1) as Hnd by by rewrite Hkeeps.
  destruct (loadRootNodes_pass1_spec es h0 Hnd) as (allGroups & Hpass1 & Hrefs & _).
  { intros k r. rewrite Hkeeps. subst saved rec_g rec_c.
    intros [[= -> ->]|[= -> ->]%list_elem_of_singleton]%elem_of_cons; done. }
  assert (loadRootNodes_pass2 allGroups es (h0 ++ (bare <$> es.*2))
          = (h0 ++ (bare <$> es.*2), [refOf allGroups (id (h !!! g))])) as Hpass2.
  { unfold loadRootNodes_pass2. rewrite pass2_flat.
    - cbn [app]. do 2 f_equal.
      assert (filter (λ e : string * GroupRecord Resource, rootlike e = true) es
              = [(id (h !!! g), rec_g)]) as ->; [|done].
      apply Permutation_singleton_r. rewrite Hkeeps. subst saved.
      rewrite filter_cons, decide_True by done.
      rewrite filter_cons, decide_False; [done|].
      unfold rootlike, rec_c. cbn. by rewrite bool_decide_eq_true_2.
    - intros k r Hin. split.
      + apply list_elem_of_lookup_1 in Hin as [j Hj]. rewrite (Hrefs _ _ _ Hj). by eexists.
      + rewrite Hkeeps in Hin. subst saved rec_g rec_c.
        by apply elem_of_cons in Hin
          as [[= -> ->]|[= -> ->]%list_elem_of_singleton]. }
  assert ((id (h !!! g), rec_g) ∈ es) as Hroot.
  { rewrite Hkeeps. by left. }
  apply list_elem_of_lookup_1 in Hroot as [j Hj].
  assert (refOf allGroups (id (h !!! g)) = length h0 + j) as Href.
  { unfold refOf. by rewrite (Hrefs _ _ _ Hj). }
  assert ((h0 ++ (bare <$> es.*2)) !!! (length h0 + j) = bare rec_g) as Hbare.
  { apply list_lookup_total_correct. rewrite lookup_app_r by lia.
    replace (length h0 + j - length h0) with j by lia.
    by rewrite !list_lookup_fmap, Hj. }
  exists st1, st2, (migrateStorageV1 st2), (h0 ++ (bare <$> es.*2)),
    (length h0 + j).
  split_and!; [done|done|done| | |].
  - unfold StateStorage_loadRootNodes. fold es. unfold Object_entries.
    rewrite new_Map_id by done. by rewrite Hpass1, Hpass2, Href.
  - by rewrite Hbare.
  - unfold childGroups. by rewrite Hbare.
Qed.

End NestedSave.

(* ===================================================================== *)
(** * tree/FileFocusTreeProvider.ts: dropping a URI list on a group        *)
(* ===================================================================== *)

Section DropUriList.
Context {Uri Resource : Type} `{!VscodeUri Uri} `{!FocusUtil Uri Resource} `{!Uuid}.
Implicit Types (m : GroupManager Uri) (h : Heap Uri) (targetGroup : ref).

(** [handleDropUriList], from the array [paths] that
    [FocusUtil.uriListToArray] returns: every path is parsed and added to
    the target group, which is then saved. *)
Definition handleDropUriList (paths : list string) targetGroup m : GroupManager Uri :=
  let m1 := with_heap (λ h, foldl (λ h' path,
                                    addResource targetGroup (Uri_parse path) h')
                                 h paths) m in
  saveGroup targetGroup m1.

Lemma addResources_extends (acc us : list Uri) :
  NoDup (fsPath <$> acc) →
  ∃ new, addResources acc us = acc ++ new
         ∧ NoDup (fsPath <$> (acc ++ new))
         ∧ (∀ u, u ∈ new → u ∈ us).
Proof.
  revert acc. induction us as [|u us IH]; intros acc Hnd.
  { exists []. rewrite app_nil_r. split_and!; [done..|]. by intros u ?%elem_of_nil. }
  cbn [addResources foldl]. case_bool_decide as Hex.
  - destruct (IH acc Hnd) as (new & Hnew & Hnd' & Hsub).
    exists new. split_and!; [done..|]. intros v Hv. right. by apply Hsub.
  - destruct (IH (acc ++ [u])) as (new & Hnew & Hnd' & Hsub).
    { rewrite fmap_app. apply NoDup_app. split_and!; [done| |apply NoDup_singleton].
      intros p (v & -> & Hv)%list_elem_of_fmap ?%list_elem_of_singleton.
      apply Hex. apply Exists_exists. by exists v. }
    exists (u :: new). fold (addResources (acc ++ [u]) us).
    rewrite Hnew, <- app_assoc. cbn [app]. split_and!; [done| |].
    + by rewrite <- app_assoc in Hnd'.
    + intros v [->|Hv]%elem_of_cons; [by left|]. right. by apply Hsub.
Qed.

(** X22. Dropping a URI list on a group keeps the resources the group
    had, in place, appends parsed URIs of the list only, keeps the paths
    of the resources distinct, leaves a resource with the path of every
    dropped URI in the group, and saves the group once. *)
Theorem handleDropUriList_appends (paths : list string) targetGroup m :
  targetGroup < length (heap m) →
  NoDup (fsPath <$> resources (heap m) targetGroup) →
  let m' := handleDropUriList paths targetGroup m in
  ∃ new,
    resources (heap m') targetGroup = resources (heap m) targetGroup ++ new
    ∧ NoDup (fsPath <$> resources (heap m') targetGroup)
    ∧ (∀ u, u ∈ new → u ∈ Uri_parse <$> paths)
    ∧ (∀ path, path ∈ paths →
               fsPath (Uri_parse path) ∈ fsPath <$> resources (heap m') targetGroup)
    ∧ calls m' = calls m
                 ++ saves (providerFor m (id (heap m !!! targetGroup))) [targetGroup].
Proof.
  intros Hlt Hnd m'. subst m'. unfold handleDropUriList.
  set (m1 := with_heap _ m).
  destruct (saveGroup_fields targetGroup m1) as (-> & _).
  rewrite saveGroup_saves.
  assert (heap m1 = foldl (λ h' uri, addResource targetGroup uri h') (heap m)
                          (Uri_parse <$> paths)) as Hheap.
  { subst m1. mgr_simpl. generalize (heap m). clear.
    induction paths as [|p paths IH]; intros h; [done|]. cbn. apply IH. }
  destruct (copy_resources targetGroup (Uri_parse <$> paths) (heap m) Hlt)
    as (_ & Hres & Hstr).
  rewrite <- Hheap in Hres, Hstr.
  destruct (addResources_extends (resources (heap m) targetGroup)
              (Uri_parse <$> paths) Hnd) as (new & Hnew & Hnd' & Hsub).
  exists new. rewrite Hres, Hnew. split_and!; [done..| |].
  - intros path Hpath. rewrite <- Hnew.
    destruct (addResources_covers (resources (heap m) targetGroup)
                (Uri_parse <$> paths) (Uri_parse path)) as (v & Hv & Hfs).
    { by apply list_elem_of_fmap_2. }
    rewrite <- Hfs. by apply list_elem_of_fmap_2.
  - destruct (structure_fields _ _ (Hstr targetGroup)) as (-> & _).
    by rewrite (providerFor_fields m m1).
Qed.

End DropUriList.

(* ===================================================================== *)
(** * GroupManager.ts: two providers that return the same id               *)
(* ===================================================================== *)

Section Collision.
Context {Uri : Type} `{!VscodeUri Uri} `{!Uuid}.
Implicit Types (m : GroupManager Uri) (g : Group Uri)
  (P : FileFocusStorageProvider Uri).

(** X23. When two providers each contribute a root group and the two
    groups have the same id, [loadAll] registers the group of the
    provider that was registered last: the flattened map and the root set
    hold one entry, for its Group object, routed to it; the Group object
    of the first provider is in the store but not registered. *)
Theorem loadAll_same_id_last_wins m P1 P2 g1 g2 (fuel : nat) :
  _storageProvider m = [(provider_id P1, P1); (provider_id P2, P2)] →
  contributes_root P1 g1 → contributes_root P2 g2 →
  id g1 = id g2 → 0 < fuel →
  ∃ m', loadAll fuel m = Some m'
    ∧ heap m' = heap m ++ [g1; g2]
    ∧ root m' = {[ id g2 := S (length (heap m)) ]}
    ∧ rootGroups m' = {[ id g2 := S (length (heap m)) ]}
    ∧ storageMap m' !! id g2 = Some (provider_id P2).
Proof.
  intros Hsp H1 H2 Hid Hfuel.
  exists (loaded_two m P1 g1 P2 g2). split; [by apply loadAll_two|].
  unfold loaded_two, merged_root. mgr_simpl. rewrite Hid, length_app. cbn [length].
  rewrite !insert_insert_eq, !insert_empty, <- app_assoc.
  replace (length (heap m) + 1) with (S (length (heap m))) by lia.
  split_and!; [done..|]. apply lookup_insert_eq.
Qed.

(** X24. [moveGroup] with a parent id that is not registered returns
    [false] after the group has left its place.  In a well-formed
    registry: a root group is gone from the root set, a nested group is
    gone from the children of its parent and has no parent any more,
    while the flattened map still holds it and no call is issued.  With
    a group id that is not registered, [moveGroup] returns [false] and
    changes nothing, in any manager. *)
Theorem moveGroup_failure_is_partial m (gid tid : string) :
  (root m !! gid = None → ∀ np, moveGroup gid np m = (false, m))
  ∧ (∀ group : ref,
       wf_registry m = true →
       root m !! gid = Some group → tid ≠ "" → root m !! tid = None →
       ∃ m', moveGroup gid (Some tid) m = (false, m')
         ∧ root m' = root m ∧ storageMap m' = storageMap m ∧ calls m' = calls m
         ∧ heap m' = match parentGroup (heap m !!! group) with
                     | Some p => removeChildGroup p group (heap m)
                     | None => heap m
                     end
         ∧ rootGroups m' = match parentGroup (heap m !!! group) with
                           | Some p => rootGroups m
                           | None => delete gid (rootGroups m)
                           end
         ∧ parentGroup (heap m' !!! group) = None
         ∧ (parentGroup (heap m !!! group) = None → rootGroups m' !! gid = None)
         ∧ (∀ p, parentGroup (heap m !!! group) = Some p →
                 group ∈ childGroups (heap m) p
                 ∧ group ∉ childGroups (heap m') p)).
Proof.
  split.
  - intros Hnone np. unfold moveGroup. by rewrite Hnone.
  - intros group Hwf Hg Htid Hnone. unfold moveGroup. rewrite Hg. cbn [truthy default].
    rewrite bool_decide_eq_true_2 by done. unfold Datatypes.id.
    destruct (leave_parent_fields m gid group) as (Hr1 & Hsm1 & _ & Hc1 & _ & Hh1 & Hrg1).
    destruct (leave_parent m gid group Hwf Hg) as (_ & _ & Hpar1 & _ & Hleft & _).
    destruct (wf_registry_entry m gid group Hwf Hg) as (_ & _ & _ & _ & _ & Hup).
    rewrite Hr1, Hnone. eexists. split; [reflexivity|].
    split_and!; [done..| | |].
    + by rewrite Hh1.
    + intros Hroot. rewrite Hrg1, Hroot. apply lookup_delete_eq.
    + intros p Hp. split; [by apply (Hup p Hp)|].
      rewrite Hh1. destruct (Hleft p Hp) as (i & _ & _ & Hnot).
      by rewrite Hp in Hnot |- *.
Qed.

End Collision.

(* ===================================================================== *)
(** * storage/StateStorage.ts: loading leaves the existing Groups alone    *)
(* ===================================================================== *)

Section LoadFrame.
Context {Uri Resource : Type} `{!VscodeUri Uri} `{!FocusUtil Uri Resource}.
Implicit Types (st : StorageService Resource) (h : Heap Uri)
  (es : JsMap (GroupRecord Resource)) (base : nat).

(** The first pass on any entries: one new object per entry, and a table
    that points at new objects only. *)
Lemma loadRootNodes_pass1_new es h :
  ∃ allGroups,
    loadRootNodes_pass1 es h = (h ++ (bare <$> es.*2), allGroups)
    ∧ ∀ k x, allGroups !! k = Some x → length h ≤ x ∧ x < length h + length es.
Proof.
  induction es as [|[k r] es (AG & Hpass & Hnew)] using rev_ind.
  { exists ∅. split; [cbn; by rewrite app_nil_r|]. intros k x Hk.
    by rewrite lookup_empty in Hk. }
  eexists. split.
  - unfold loadRootNodes_pass1 in *. rewrite foldl_app, Hpass. cbn [foldl fst snd].
    rewrite createGroupFromRecord_bare. rewrite !fmap_app, app_assoc. reflexivity.
  - intros k' x [[_ <-]|[_ Hk']]%lookup_insert_Some.
    + rewrite !length_app, !length_fmap. cbn [length]. lia.
    + destruct (Hnew k' x Hk'). rewrite length_app. lia.
Qed.

(** The objects below [base] are those of [h0], and no object from [base]
    on points below [base]. *)
Definition above base (h0 h : Heap Uri) : Prop :=
  take base h = h0
  ∧ ∀ x p, base ≤ x → parentGroup (h !!! x) = Some p → base ≤ p.

Lemma removeChildGroup_above base h0 this c h :
  base ≤ this → base ≤ c → above base h0 h → above base h0 (removeChildGroup this c h).
Proof.
  intros Hthis Hc [Htake Hup]. unfold removeChildGroup. case_bool_decide; [done|].
  split.
  - by rewrite !take_alter_ge by lia.
  - intros x p Hx. rewrite parent_alter_parent, parent_alter_children.
    case_decide; [done|]. by apply Hup.
Qed.

Lemma addChildGroup_above base h0 this c h :
  base ≤ this → base ≤ c → above base h0 h → above base h0 (addChildGroup this c h).
Proof.
  intros Hthis Hc Hab. unfold addChildGroup.
  destruct (_childGroupContains h this c); [done|].
  set (h1 := match parentGroup (h !!! c) with
             | Some p => removeChildGroup p c h
             | None => h
             end).
  assert (above base h0 h1) as [Htake Hup].
  { subst h1. destruct (parentGroup (h !!! c)) as [p|] eqn:Hp; [|done].
    apply removeChildGroup_above; [|done..]. destruct Hab as [_ Hup]. by eapply Hup. }
  split.
  - by rewrite !take_alter_ge by lia.
  - intros x p Hx. rewrite parent_alter_parent, parent_alter_children.
    case_decide; [by intros [= <-]|]. by apply Hup.
Qed.

Lemma attachChildren_above base h0 (allGroups : gmap string ref) group
  (childRecords : list (GroupRecord Resource)) h :
  (∀ k x, allGroups !! k = Some x → base ≤ x) →
  base ≤ group → above base h0 h →
  above base h0 (attachChildren allGroups group childRecords h).
Proof.
  intros Hnew Hgroup. revert h.
  induction childRecords as [|c cs IH]; intros h Hab; [done|].
  cbn [attachChildren foldl]. apply IH.
  destruct (allGroups !! rec_id c) as [x|] eqn:Hx; [|done].
  apply addChildGroup_above; [done| |done]. by eapply Hnew.
Qed.

Lemma attachChildren_length (allGroups : gmap string ref) group
  (childRecords : list (GroupRecord Resource)) h :
  length (attachChildren allGroups group childRecords h) = length h.
Proof.
  revert h. unfold attachChildren.
  induction childRecords as [|c cs IH]; intros h; [done|].
  cbn [foldl]. rewrite IH. destruct (allGroups !! rec_id c); [|done].
  apply addChildGroup_length.
Qed.

Lemma loadRootNodes_pass2_above base h0 (allGroups : gmap string ref) es h :
  (∀ k x, allGroups !! k = Some x → base ≤ x ∧ x < length h) →
  above base h0 h →
  above base h0 (loadRootNodes_pass2 allGroups es h).1
  ∧ length (loadRootNodes_pass2 allGroups es h).1 = length h
  ∧ Forall (λ r, base ≤ r ∧ r < length h) (loadRootNodes_pass2 allGroups es h).2.
Proof.
  intros Hnew Hab. unfold loadRootNodes_pass2.
  assert (∀ acc : Heap Uri * list ref,
            above base h0 acc.1 ∧ length acc.1 = length h
            ∧ Forall (λ r, base ≤ r ∧ r < length h) acc.2 →
            let acc' := foldl (λ acc e,
                match allGroups !! e.1 with
                | None => acc
                | Some group =>
                    let h' := match rec_childGroups e.2 with
                              | Some childRecords =>
                                  attachChildren allGroups group childRecords acc.1
                              | None => acc.1
                              end in
                    (h', if truthy (rec_parentId e.2) then acc.2 else acc.2 ++ [group])
                end) acc es in
            above base h0 acc'.1 ∧ length acc'.1 = length h
            ∧ Forall (λ r, base ≤ r ∧ r < length h) acc'.2) as Hloop.
  { induction es as [|[k r] es IH]; intros acc Hacc; [done|].
    cbn [foldl fst snd]. apply IH.
    destruct (allGroups !! k) as [group|] eqn:Hgroup; [|done].
    destruct Hacc as (Hab' & Hlen & Hroots). destruct (Hnew k group Hgroup) as [Hge Hlt].
    cbn [fst snd]. split_and!.
    - destruct (rec_childGroups r) as [childRecords|]; [|done].
      apply attachChildren_above; [|done..]. intros k' x Hx. by destruct (Hnew k' x Hx).
    - destruct (rec_childGroups r) as [childRecords|]; [|done].
      by rewrite attachChildren_length.
    - destruct (truthy (rec_parentId r)); [done|].
      apply Forall_app. split; [done|]. by apply Forall_singleton. }
  apply (Hloop (h, [])). split_and!; [done..|constructor].
Qed.

(** X25. [loadRootNodes], on any storage and any store of Group
    objects: the Group objects that existed are left exactly as they
    were, and every group that is returned is a new object. *)
Theorem loadRootNodes_keeps_store st h0 :
  let '(_, h', groups) := StateStorage_loadRootNodes st h0 in
  take (length h0) h' = h0
  ∧ Forall (λ r, length h0 ≤ r ∧ r < length h') groups.
Proof.
  unfold StateStorage_loadRootNodes.
  set (es := new_Map _).
  destruct (loadRootNodes_pass1_new es h0) as (allGroups & -> & Hnew).
  set (h1 := h0 ++ (bare <$> es.*2)).
  assert (length h1 = length h0 + length es) as Hlen1.
  { subst h1. by rewrite length_app, !length_fmap. }
  destruct (loadRootNodes_pass2_above (length h0) h0 allGroups es h1)
    as ([Htake _] & Hlen & Hroots).
  { intros k x Hx. rewrite Hlen1. by apply (Hnew k). }
  { split.
    - subst h1. apply take_app_length.
    - intros x p Hx. subst h1. intros Hp.
      assert (parentGroup ((h0 ++ (bare <$> es.*2)) !!! x) = None) as Hnone; [|congruence].
      destruct (decide (x < length h0 + length es)) as [Hlt|Hge].
      + rewrite list_lookup_total_alt, lookup_app_r by lia.
        rewrite list_lookup_fmap.
        destruct (es.*2 !! (x - length h0)) eqn:E; [done|].
        apply lookup_ge_None in E. rewrite length_fmap in E. lia.
      + apply parentGroup_outside. rewrite length_app, !length_fmap. lia. }
  destruct (loadRootNodes_pass2 allGroups es h1) as [h' groups]. cbn [fst snd] in *.
  split; [done|]. by rewrite Hlen.
Qed.

End LoadFrame.

(* ===================================================================== *)
(** * Saving a tree, then starting over on the saved storage              *)
(* ===================================================================== *)

Section Restart.
Context {Uri Resource : Type} `{!VscodeUri Uri} `{!FocusUtil Uri Resource} `{!Uuid}.
Implicit Types (t : GroupTree Uri) (h : Heap Uri) (st : StorageService Resource)
  (m : GroupManager Uri).

(** [new StateStorage(storage)] as a provider of the manager. *)
Definition StateStorage_provider st : FileFocusStorageProvider Uri :=
  mkProvider "statestorage"
    (λ h, let '(_, h', groups) := StateStorage_loadRootNodes st h in (h', groups)).

Lemma reloaded_ids t : tree_ids (reloaded (Resource := Resource) t) = tree_ids t.
Proof.
  induction t as [i n ro res ks IH] using GroupTree_rect'.
  cbn [reloaded tree_ids]. f_equal. clear n ro res.
  induction IH as [|k ks Hk _ IHks]; [done|]. cbn. by rewrite Hk, IHks.
Qed.

Lemma reloaded_height t : height (reloaded (Resource := Resource) t) = height t.
Proof.
  induction t as [i n ro res ks IH] using GroupTree_rect'.
  cbn [reloaded height]. f_equal. clear n ro res.
  induction IH as [|k ks Hk _ IHks]; [done|]. cbn. by rewrite Hk, IHks.
Qed.

Lemma reloaded_id t : tree_id (reloaded (Resource := Resource) t) = tree_id t.
Proof. by destruct t. Qed.

(** Loading the storage that holds the entries of one well-formed tree. *)
Lemma saved_storage_loads t st h0 :
  wf_tree (Resource := Resource) t →
  getValue_DeprecateGroupStore st "groupstore" [] = [] →
  ∃ st2 h' g',
    StateStorage_loadRootNodes
      (setValue "groupmap" (VGroupStore (Object_fromEntries (nodes None t))) st) h0
    = (st2, h', [g'])
    ∧ holds h' None g' (reloaded t).
Proof.
  intros (Hnd & Hne & Hres) Hlegacy.
  set (st1 := setValue "groupmap" _ st).
  assert (getValue_GroupStore st1 "groupmap" [] = Object_fromEntries (nodes None t))
    as Hsaved.
  { subst st1. unfold getValue_GroupStore, setValue. by rewrite lookup_insert_eq. }
  assert (getValue_DeprecateGroupStore st1 "groupstore" [] = []) as Hlegacy1.
  { subst st1. unfold getValue_DeprecateGroupStore, setValue in *.
    by rewrite lookup_insert_ne. }
  assert (NoDup (nodes None t).*1) as Hkeys by by rewrite nodes_keys.
  pose proof (migrateStorageV1_keeps st1 Hlegacy1) as Hkeeps.
  rewrite Hsaved in Hkeeps. specialize (Hkeeps (Object_fromEntries_NoDup _ Hkeys)).
  unfold Object_fromEntries in Hkeeps. rewrite own_key_order_perm in Hkeeps.
  unfold StateStorage_loadRootNodes.
  set (es := getValue_GroupStore (migrateStorageV1 st1) "groupmap" []) in *.
  unfold Object_entries. rewrite new_Map_id by by rewrite Hkeeps.
  destruct (load_passes t es h0 Hkeeps Hnd Hne)
    as (h1 & allGroups & h' & g' & -> & -> & Hloaded).
  by exists (migrateStorageV1 st1), h', g'.
Qed.

(** X26. A tree saved to an empty state storage is there after a restart.
    Let the store hold a well-formed tree at a root Group; [saveGroup] of
    the root returns, and a manager whose only provider is a StateStorage
    on the saved storage then loads it: [loadAll] returns, the one root
    group holds a tree with the ids, names, resources and structure of
    the saved one, every id of the tree is registered to a Group with
    that id and routed to the provider, and nothing else is registered. *)
Theorem saved_tree_survives_restart h g t st (fuel : nat) m :
  holds h None g t → wf_tree (Resource := Resource) t →
  getValue_GroupStore st "groupmap" [] = [] →
  getValue_DeprecateGroupStore st "groupstore" [] = [] →
  height t < fuel →
  _storageProvider m = [] →
  ∃ st1, StateStorage_saveGroup fuel h g st = Some st1
    ∧ ∃ m' g' t',
        loadAll fuel (addStorageProvider (StateStorage_provider st1) m) = Some m'
        ∧ holds (heap m') None g' t'
        ∧ tree_view t' = tree_view t
        ∧ rootGroups m' = {[ tree_id t := g' ]}
        ∧ (∀ k, k ∈ tree_ids t →
                ∃ r, root m' !! k = Some r ∧ id (heap m' !!! r) = k
                     ∧ storageMap m' !! k = Some "statestorage")
        ∧ (∀ k, k ∉ tree_ids t → root m' !! k = None).
Proof.
  intros Hholds Hwf Hempty Hlegacy Hfuel Hnone.
  eexists. split; [apply StateStorage_saveGroup_tree; [done|apply Hwf|done..]|].
  destruct (saved_storage_loads t st (heap m) Hwf Hlegacy)
    as (st2 & h' & g' & Hload & Hloaded).
  unfold loadAll, addStorageProvider. mgr_simpl. rewrite Hnone.
  cbn [jsmap_set foldl mbind option_bind snd].
  unfold mergeProvider. cbn [loadRootNodes StateStorage_provider provider_id].
  mgr_simpl. rewrite Hload. cbn [foldl mbind option_bind].
  set (m0 := with_heap _ _).
  destruct (addGroupToMemory_holds (reloaded t) "statestorage" None g' fuel m0)
    as (m' & -> & Hh & _ & _ & _ & Hout & Hin & Hroots).
  { subst m0. by mgr_simpl. }
  { by rewrite reloaded_height. }
  assert (heap m' = h') as Hheap by (rewrite Hh; subst m0; by mgr_simpl).
  exists m', g', (reloaded t). split_and!.
  - done.
  - by rewrite Hheap.
  - apply reloaded_view, Hwf.
  - apply map_eq. intros k. rewrite Hroots, reloaded_id.
    destruct (decide (k = tree_id t)) as [->|Hne].
    + rewrite decide_True by done. by rewrite lookup_singleton_eq.
    + rewrite decide_False by tauto. rewrite lookup_singleton_ne by done.
      subst m0. by mgr_simpl.
  - intros k Hk. rewrite <- (reloaded_ids t) in Hk.
    destruct (Hin k Hk) as (r & Hr & Hid & Hsm). exists r. split_and!; [done| |done].
    rewrite Hheap. subst m0. revert Hid. by mgr_simpl.
  - intros k Hk. rewrite <- (reloaded_ids t) in Hk.
    destruct (Hout k Hk) as [-> _]. subst m0. by mgr_simpl.
Qed.

End Restart.

(* ===================================================================== *)
(** * extension.ts: the depth of a group in the quick pick                *)
(* ===================================================================== *)

Section GroupDepth.
Context {Uri : Type} `{!VscodeUri Uri}.
Implicit Types (h : Heap Uri) (group x y : ref) (current : option ref).

(** The [while (current)] loop of [getGroupDepth]; the fuel bounds the
    number of tests of the loop condition and [None] is a run that did
    not leave the loop within it. *)
Fixpoint getGroupDepth_loop (fuel : nat) h current (depth : nat) : option nat :=
  match fuel with
  | 0 => None
  | S n =>
      match current with
      | Some c => getGroupDepth_loop n h (parentGroup (h !!! c)) (S depth)
      | None => Some depth
      end
  end.

Definition getGroupDepth (fuel : nat) h group : option nat :=
  getGroupDepth_loop fuel h (parentGroup (h !!! group)) 0.

Lemma getGroupDepth_loop_levels h top :
  Linked h → parentGroup (h !!! top) = None →
  ∀ (d : nat) x (depth fuel : nat),
    nsteps (child h) d top x → d < fuel →
    getGroupDepth_loop fuel h (parentGroup (h !!! x)) depth = Some (depth + d).
Proof.
  intros Hlinked Htop. induction d as [|d IH]; intros x depth fuel Hpath Hfuel.
  - inversion Hpath; subst. rewrite Htop. destruct fuel; [lia|].
    cbn. f_equal. lia.
  - apply nsteps_inv_r in Hpath as (y & Hpath & Hchild).
    destruct (lk_child h Hlinked y x Hchild) as (_ & _ & ->).
    destruct fuel as [|fuel]; [lia|]. cbn [getGroupDepth_loop].
    rewrite (IH y (S depth) fuel Hpath) by lia. f_equal. lia.
Qed.

(** X27. In a store whose parent and child links agree, [getGroupDepth]
    of a group that is [d] child links below a group without a parent
    returns [d], after at most [d + 1] tests of the loop condition. *)
Theorem getGroupDepth_counts_links h top x (d fuel : nat) :
  linked h = true → parentGroup (h !!! top) = None →
  nsteps (child h) d top x → d < fuel →
  getGroupDepth fuel h x = Some d.
Proof.
  intros Hlinked%linked_Linked Htop Hpath Hfuel. unfold getGroupDepth.
  by rewrite (getGroupDepth_loop_levels h top Hlinked Htop d x 0 fuel Hpath Hfuel).
Qed.

(** X28. [getGroupDepth] never leaves its loop on a group whose chain of
    parents stays inside a set of groups that all have a parent: a group
    that is its own parent, or any group on or below a cycle of parents. *)
Theorem getGroupDepth_cycle_diverges h (inside : ref → Prop) x :
  (∀ y, inside y → ∃ p, parentGroup (h !!! y) = Some p ∧ inside p) →
  inside x →
  ∀ fuel : nat, getGroupDepth fuel h x = None.
Proof.
  intros Hclosed Hx fuel. unfold getGroupDepth.
  destruct (Hclosed x Hx) as (p & -> & Hp). clear x Hx.
  generalize 0. revert p Hp.
  induction fuel as [|fuel IH]; intros p Hp depth; [done|].
  cbn [getGroupDepth_loop].
  destruct (Hclosed p Hp) as (q & -> & Hq). by apply IH.
Qed.

End GroupDepth.

(* ===================================================================== *)
(** * The properties above, on concrete stores                             *)
(* ===================================================================== *)

Section AcyclicCheck.
Context {Uri : Type} `{!VscodeUri Uri}.
Implicit Types (h : Heap Uri).

(** [getAllChildGroups] returns, with fuel [n], on every Group object of
    the store. *)
Definition returns_everywhere (n : nat) h : bool :=
  forallb (λ x, bool_decide (is_Some (getAllChildGroups n h x))) (seq 0 (length h)).

Lemma returns_everywhere_acyclic (n : nat) h : returns_everywhere n h = true → acyclic h.
Proof.
  unfold returns_everywhere. rewrite <- Is_true_true, forallb_True, Forall_forall.
  intros Hall x Hx. destruct (decide (x < length h)) as [Hlt|Hge].
  - specialize (Hall x). rewrite elem_of_seq in Hall.
    apply bool_decide_unpack in Hall as [l Hl]; [|lia].
    by rewrite (getAllChildGroups_cycle n h x Hx) in Hl.
  - eapply leaf_not_descendant; [|exact Hx]. apply childGroups_outside. lia.
Qed.

End AcyclicCheck.

(** [set pinnedGroupId] of the manager and [pinGroup] of the facade
    (GroupFacade.ts): pinning the pinned group unpins it. *)
Definition set_pinnedGroupId {Uri} (value : string) (m : GroupManager Uri)
  : GroupManager Uri :=
  mkGroupManager (heap m) (root m) (rootGroups m) (storageMap m) value
                 (_storageProvider m) (calls m).

Definition pinGroup {Uri} (groupId : string) (m : GroupManager Uri) : GroupManager Uri :=
  set_pinnedGroupId (if bool_decide (_pinnedGroupId m = groupId) then "" else groupId) m.

Lemma saved_heap_holds : holds saved_heap None 0 saved_tree.
Proof. repeat (constructor; cbn; try done; try lia). Qed.

Lemma saved_tree_ids : NoDup (tree_ids saved_tree).
Proof. vm_compute. repeat (constructor; [set_solver|]). constructor. Qed.

Lemma sample_manager_wf : wf_registry sample_manager = true.
Proof. vm_compute. reflexivity. Qed.

Lemma getAllResources_preorder_witness :
  getAllResources 3 saved_heap 0 = Some [file_a; file_b; file_c].
Proof.
  apply (getAllResources_preorder saved_tree saved_heap None 0 3).
  - exact saved_heap_holds.
  - vm_compute. lia.
Defined.

Lemma findChildGroup_among_descendants_witness :
  ∃ res, findChildGroup 3 saved_heap 0 "notes" = Some res
         ∧ match res with
           | Some x => x ∈ [1; 2] ∧ id (saved_heap !!! x) = "notes"
           | None => Forall (λ x, id (saved_heap !!! x) ≠ "notes") [1; 2]
           end.
Proof.
  apply (findChildGroup_among_descendants 3 saved_heap 0 "notes" [1; 2]).
  reflexivity.
Defined.

Lemma getAllChildGroups_total_witness :
  ∃ l, getAllChildGroups 4 saved_heap 0 = Some l
       ∧ ∀ x, x ∈ l ↔ descendant saved_heap 0 x.
Proof.
  apply (getAllChildGroups_total saved_heap 0).
  apply (returns_everywhere_acyclic 3). vm_compute. reflexivity.
Defined.

Lemma tree_ops_keep_links_witness :
  linked (run_op (AddChildGroup 1 2) saved_heap) = true.
Proof.
  apply tree_ops_keep_links.
  - vm_compute. reflexivity.
  - simpl. lia.
Defined.

Lemma addResource_paths_distinct_witness :
  let h' := addResource 0 file_a_query heap_one_resource in
  NoDup (fsPath <$> resources h' 0)
  ∧ fsPath file_a_query ∈ fsPath <$> resources h' 0
  ∧ addResource 0 file_a_query h' = h'.
Proof.
  apply (addResource_paths_distinct heap_one_resource 0 file_a_query).
  - simpl. lia.
  - vm_compute. apply NoDup_singleton.
Defined.

Lemma addResource_removeResource_restores_witness :
  removeResource 0 file_b (addResource 0 file_b heap_one_resource) = heap_one_resource.
Proof.
  apply addResource_removeResource_restores.
  - simpl. lia.
  - vm_compute. repeat constructor. done.
  - vm_compute. repeat constructor. done.
Defined.

(** A group that lists ["dup"], and a second Group object with the same
    id that is no child of it. *)
Definition twin_heap : Heap SampleUri :=
  [ mkGroup "p" "P" false None [] [1];
    mkGroup "dup" "First" false (Some 0) [] [];
    mkGroup "dup" "Second" false None [] [] ].

Lemma removeChildGroup_clears_argument_witness :
  let h' := removeChildGroup 0 2 twin_heap in
  childGroups h' 0 = []
  ∧ parentGroup (h' !!! 1) = Some 0
  ∧ parentGroup (h' !!! 2) = None.
Proof.
  apply (removeChildGroup_clears_argument 0 2 1 0 twin_heap).
  - simpl. lia.
  - simpl. lia.
  - reflexivity.
  - intros j y _ Hj. lia.
  - reflexivity.
  - lia.
Defined.

Lemma removeGroup_subtree_witness :
  ∃ m', removeGroup 3 "g" nested_manager = Some m'
    ∧ root m' !! "c2" = None
    ∧ root m' !! "p" = Some 0
    ∧ calls m' = [ Call_deleteGroupId "statestorage" "c1";
                   Call_deleteGroupId "statestorage" "c2";
                   Call_deleteGroupId "statestorage" "g" ]
    ∧ rootGroups m' = rootGroups nested_manager
    ∧ _pinnedGroupId m' = "".
Proof.
  destruct (removeGroup_subtree nested_manager "g" 3 1 [2; 3])
    as (m' & Hrun & Hroot & _ & Hcalls & _ & Hrg & Hpin).
  - exact nested_manager_wf.
  - reflexivity.
  - reflexivity.
  - exists m'. split_and!.
    + exact Hrun.
    + rewrite Hroot. reflexivity.
    + rewrite Hroot. reflexivity.
    + exact Hcalls.
    + exact Hrg.
    + exact Hpin.
Defined.

Lemma addGroup_removeGroup_restores_witness :
  removeGroup 1 "n" (addGroup 3 "statestorage" None sample_manager)
  = Some (issue (Call_deleteGroupId "statestorage" "n")
            (issue (Call_saveGroup "statestorage" 3) sample_manager)).
Proof.
  apply (addGroup_removeGroup_restores sample_manager 3 "statestorage"
           (empty_provider "statestorage") 1); try reflexivity.
  lia.
Defined.

Lemma renameGroup_drops_pin_witness :
  let m' := renameGroup "a" "Renamed" (pinGroup "a" sample_manager) in
  _pinnedGroupId m' = "a" ∧ findGroup (_pinnedGroupId m') m' = None
  ∧ findGroup (makeGroupId "Renamed") m' = Some 4.
Proof.
  apply (renameGroup_drops_pin (pinGroup "a" sample_manager) "a" "Renamed" 0
           (empty_provider "statestorage")).
  - reflexivity.
  - reflexivity.
  - vm_compute. discriminate.
  - reflexivity.
Defined.

Lemma moveGroup_to_root_witness :
  ∃ m', moveGroup "g" None nested_manager = (true, m')
    ∧ rootGroups m' !! "g" = Some 1
    ∧ parentGroup (heap m' !!! 1) = None
    ∧ (1 ∉ childGroups (heap m') 0)
    ∧ calls m' = [Call_saveGroup "statestorage" 1].
Proof.
  destruct (moveGroup_to_root nested_manager "g" None 1)
    as (m' & Hrun & _ & _ & Hrg & Hpar & Hold & _ & Hcalls).
  - exact nested_manager_wf.
  - reflexivity.
  - reflexivity.
  - exists m'. split_and!.
    + exact Hrun.
    + rewrite Hrg. reflexivity.
    + exact Hpar.
    + apply Hold. reflexivity.
    + exact Hcalls.
Defined.


Lemma moveGroup_into_itself_witness :
  let m' := (moveGroup "a" (Some "a") sample_manager).2 in
  childGroups (heap m') 0 = [0]
  ∧ parentGroup (heap m' !!! 0) = Some 0
  ∧ rootGroups m' !! "a" = None
  ∧ root m' !! "a" = Some 0
  ∧ ∀ fuel, getAllChildGroups fuel (heap m') 0 = None.
Proof.
  apply (moveGroup_into_itself sample_manager "a" 0).
  - reflexivity.
  - discriminate.
  - simpl. lia.
  - reflexivity.
  - constructor.
Defined.

Lemma guarded_moveGroup_acyclic_witness :
  acyclic (heap (moveGroup "a" (Some "b") sample_manager).2).
Proof.
  apply (guarded_moveGroup_acyclic sample_manager 0 1 3).
  - apply (returns_everywhere_acyclic 3). vm_compute. reflexivity.
  - reflexivity.
  - reflexivity.
  - discriminate.
  - reflexivity.
Defined.

Definition saved_manager : GroupManager SampleUri :=
  mkGroupManager saved_heap ∅ ∅ ∅ "" [] [].

Lemma addGroupToMemory_registers_tree_witness :
  ∃ m', addGroupToMemory 3 0 "statestorage" saved_manager = Some m'
    ∧ registers saved_tree "statestorage" None 0 saved_manager m'.
Proof.
  apply (addGroupToMemory_registers_tree saved_tree "statestorage" None 0 3
           saved_manager).
  - exact saved_heap_holds.
  - vm_compute. lia.
Defined.

(** A group that has been added to itself. *)
Definition looped_heap : Heap SampleUri := addChildGroup 0 0 [new_Group "g"].

Lemma saveGroup_cycle_diverges_witness :
  StateStorage_saveGroup 5 looped_heap 0 (∅ : StorageService (string * string)) = None.
Proof.
  apply saveGroup_cycle_diverges. apply tc_once. unfold child.
  change (0 ∈ [0]). by left.
Defined.

(** A storage that holds the entries of [saved_tree], and one that holds
    another group. *)
Definition saved_storage : StorageService (string * string) :=
  {[ "groupmap" := VGroupStore (nodes None saved_tree) ]}.

Definition other_storage : StorageService (string * string) :=
  {[ "groupmap" := VGroupStore [("other", mkGroupRecord "other" "Other" [] None None)] ]}.

Lemma deleteGroupId_removes_tree_witness :
  ∃ st', StateStorage_deleteGroupId 3 "7" saved_storage = Some st'
    ∧ ∀ k, jsmap_get k (getValue_GroupStore st' "groupmap" [])
           = if decide (k ∈ ["7"; "3"; "notes"]) then None
             else jsmap_get k (nodes None saved_tree).
Proof.
  apply (deleteGroupId_removes_tree saved_storage saved_tree None 3).
  - vm_compute. repeat (constructor; [set_solver|]). constructor.
  - intros k r Hin. exact Hin.
  - exact saved_tree_ids.
  - vm_compute. lia.
Defined.

Lemma deleteGroupId_unknown_witness :
  ∃ st', StateStorage_deleteGroupId 1 "ghost" saved_storage = Some st'
    ∧ ∀ k, jsmap_get k (getValue_GroupStore st' "groupmap" [])
           = jsmap_get k (nodes None saved_tree).
Proof.
  apply (deleteGroupId_unknown saved_storage "ghost" 1).
  - vm_compute. repeat (constructor; [set_solver|]). constructor.
  - reflexivity.
  - lia.
Defined.

Lemma saveGroup_sets_tree_keeps_others_witness :
  ∃ st', StateStorage_saveGroup 3 saved_heap 0 other_storage = Some st'
    ∧ ∀ k, jsmap_get k (getValue_GroupStore st' "groupmap" [])
           = match jsmap_get k (nodes None saved_tree) with
             | Some r => Some r
             | None => jsmap_get k [("other", mkGroupRecord "other" "Other" [] None None)]
             end.
Proof.
  apply (saveGroup_sets_tree_keeps_others saved_heap None 0 saved_tree other_storage 3).
  - exact saved_heap_holds.
  - exact saved_tree_ids.
  - vm_compute. apply NoDup_singleton.
  - vm_compute. lia.
Defined.

(** A saved root group and a new group, both without children. *)
Definition flat_heap : Heap SampleUri :=
  [ mkGroup "r" "Root" false None [file_a] [];
    mkGroup "k" "Kid" false None [file_b] [] ].

Lemma nested_group_saved_alone_is_lost_witness :
  ∃ (st1 st2 st3 : StorageService (string * string)) h' g',
    StateStorage_saveGroup 2 flat_heap 0 ∅ = Some st1
    ∧ childGroups (addChildGroup 0 1 flat_heap) 0 = [1]
    ∧ StateStorage_saveGroup 2 (addChildGroup 0 1 flat_heap) 1 st1 = Some st2
    ∧ StateStorage_loadRootNodes st2 [] = (st3, h', [g'])
    ∧ id (h' !!! g') = "r"
    ∧ childGroups h' g' = [].
Proof.
  apply (nested_group_saved_alone_is_lost flat_heap 0 1 "r" "Root" "k" "Kid"
           false false [file_a] [file_b] ∅ 2 []).
  - repeat (constructor; cbn; try done; try lia).
  - repeat (constructor; cbn; try done; try lia).
  - discriminate.
  - discriminate.
  - reflexivity.
  - reflexivity.
  - lia.
Defined.

Lemma handleDropUriList_appends_witness :
  let m' := handleDropUriList (Resource := string * string)
              ["/w/a.ts"; "/w/z.ts"] 0 sample_manager in
  ∃ new,
    resources (heap m') 0 = [file_a] ++ new
    ∧ NoDup (fsPath <$> resources (heap m') 0)
    ∧ (∀ u, u ∈ new → u ∈ [mkSampleUri "/w/a.ts" "/w/a.ts"; mkSampleUri "/w/z.ts" "/w/z.ts"])
    ∧ (∀ path, path ∈ ["/w/a.ts"; "/w/z.ts"] →
               fsPath (Uri_parse (Resource := string * string) path)
               ∈ fsPath <$> resources (heap m') 0)
    ∧ calls m' = [Call_saveGroup "statestorage" 0].
Proof.
  refine (handleDropUriList_appends (Resource := string * string)
            ["/w/a.ts"; "/w/z.ts"] 0 sample_manager _ _).
  - simpl. lia.
  - vm_compute. apply NoDup_singleton.
Defined.

(** A second provider that answers with a group of the id of
    [group_alpha]. *)
Definition provider_alpha_file : FileFocusStorageProvider SampleUri :=
  mkProvider "filestorage" (λ h, (h ++ [group_alpha], [length h])).

Lemma loadAll_same_id_last_wins_witness :
  ∃ m', loadAll 1 (addStorageProvider provider_alpha_file
                     (addStorageProvider provider_alpha new_GroupManager)) = Some m'
    ∧ heap m' = [group_alpha; group_alpha]
    ∧ root m' = {[ makeGroupId "Alpha" := 1 ]}
    ∧ rootGroups m' = {[ makeGroupId "Alpha" := 1 ]}
    ∧ storageMap m' !! makeGroupId "Alpha" = Some "filestorage".
Proof.
  apply (loadAll_same_id_last_wins
           (addStorageProvider provider_alpha_file
              (addStorageProvider provider_alpha new_GroupManager))
           provider_alpha provider_alpha_file group_alpha group_alpha 1).
  - reflexivity.
  - split_and!; reflexivity.
  - split_and!; reflexivity.
  - reflexivity.
  - lia.
Defined.

Lemma moveGroup_failure_is_partial_witness :
  moveGroup "ghost" (Some "a") sample_manager = (false, sample_manager)
  ∧ (∃ m', moveGroup "c" (Some "ghost") sample_manager = (false, m')
       ∧ root m' !! "c" = Some 2
       ∧ calls m' = []
       ∧ parentGroup (heap m' !!! 2) = None
       ∧ 2 ∈ childGroups (heap sample_manager) 1
       ∧ 2 ∉ childGroups (heap m') 1)
  ∧ (∃ m', moveGroup "a" (Some "ghost") sample_manager = (false, m')
       ∧ root m' !! "a" = Some 0
       ∧ calls m' = []
       ∧ rootGroups sample_manager !! "a" = Some 0
       ∧ rootGroups m' !! "a" = None).
Proof.
  destruct (moveGroup_failure_is_partial sample_manager "ghost" "a") as [Hnone _].
  destruct (moveGroup_failure_is_partial sample_manager "c" "ghost") as [_ Hnested].
  destruct (moveGroup_failure_is_partial sample_manager "a" "ghost") as [_ Hroot].
  split_and!.
  - apply Hnone. reflexivity.
  - destruct (Hnested 2) as (m' & Hrun & Hmap & _ & Hcalls & _ & _ & Hpar & _ & Hleft).
    + exact sample_manager_wf.
    + reflexivity.
    + discriminate.
    + reflexivity.
    + destruct (Hleft 1 eq_refl) as [Hin Hnot].
      exists m'. split_and!; [exact Hrun| |exact Hcalls|exact Hpar|exact Hin|exact Hnot].
      rewrite Hmap. reflexivity.
  - destruct (Hroot 0) as (m' & Hrun & Hmap & _ & Hcalls & _ & _ & _ & Hgone & _).
    + exact sample_manager_wf.
    + reflexivity.
    + discriminate.
    + reflexivity.
    + exists m'. split_and!; [exact Hrun| |exact Hcalls|reflexivity|by apply Hgone].
      rewrite Hmap. reflexivity.
Defined.

Lemma saved_tree_wf : wf_tree (Resource := string * string) saved_tree.
Proof.
  split_and!.
  - vm_compute. repeat (constructor; [set_solver|]). constructor.
  - vm_compute. repeat (constructor; [done|]). constructor.
  - repeat (constructor;
            [split; [vm_compute; repeat (constructor; [set_solver|]); constructor
                    |repeat (constructor; [by eexists|]); constructor]|]).
    constructor.
Qed.

Lemma saved_tree_survives_restart_witness :
  ∃ st1 : StorageService (string * string),
    StateStorage_saveGroup 3 saved_heap 0 ∅ = Some st1
    ∧ ∃ m' g' t',
        loadAll 3 (addStorageProvider (StateStorage_provider st1) new_GroupManager)
        = Some m'
        ∧ holds (heap m') None g' t'
        ∧ tree_view t' = tree_view saved_tree
        ∧ rootGroups m' = {[ "7" := g' ]}
        ∧ (∀ k, k ∈ ["7"; "3"; "notes"] →
                ∃ r, root m' !! k = Some r ∧ id (heap m' !!! r) = k
                     ∧ storageMap m' !! k = Some "statestorage")
        ∧ (∀ k, k ∉ ["7"; "3"; "notes"] → root m' !! k = None).
Proof.
  apply (saved_tree_survives_restart saved_heap 0 saved_tree ∅ 3 new_GroupManager).
  - exact saved_heap_holds.
  - exact saved_tree_wf.
  - reflexivity.
  - reflexivity.
  - vm_compute. lia.
  - reflexivity.
Defined.

(** The manager after the restart on the saved storage. *)
Example saved_tree_restart :
  (λ st1 : StorageService (string * string),
     (λ m', (heap m', map_to_list (root m'), map_to_list (rootGroups m')))
       <$> loadAll 3 (addStorageProvider (StateStorage_provider st1) new_GroupManager))
    <$> StateStorage_saveGroup 3 saved_heap 0 ∅
  = Some (Some ([ mkGroup "3" "Api" false (Some 1) [file_c] [];
                  mkGroup "7" "Docs" false None [file_a; file_b] [0; 2];
                  mkGroup "notes" "Notes" false (Some 1) [] [] ],
                map_to_list ({[ "3" := 0; "7" := 1; "notes" := 2 ]} : gmap string ref),
                [("7", 1)])).
Proof. vm_compute. reflexivity. Qed.

Lemma getGroupDepth_counts_links_witness : getGroupDepth 2 saved_heap 2 = Some 1.
Proof.
  apply (getGroupDepth_counts_links saved_heap 0 2 1 2).
  - vm_compute. reflexivity.
  - reflexivity.
  - apply nsteps_once. unfold child. change (2 ∈ [1; 2]). set_solver.
  - lia.
Defined.

Lemma getGroupDepth_cycle_diverges_witness :
  getGroupDepth 50 looped_heap 0 = None.
Proof.
  apply (getGroupDepth_cycle_diverges looped_heap (λ y, y = 0) 0).
  - intros y ->. by exists 0.
  - reflexivity.
Defined.

(** The storage after [saveGroup] of the root ["b"] of [sample_manager],
    which has the child ["c"]: the record of ["b"] nests the record of
    ["c"]. *)
Definition nested_storage : StorageService (string * string) :=
  {[ "groupmap" :=
       VGroupStore
         [ ("b", mkGroupRecord "b" "B" []
                   (Some [mkGroupRecord "c" "C" [("file:///w/c.ts", "/w/c.ts")]
                            None (Some "b")])
                   None);
           ("c", mkGroupRecord "c" "C" [("file:///w/c.ts", "/w/c.ts")]
                   None (Some "b")) ] ]}.




(** The store of Group objects and the roots after [saved_tree] has been
    saved into [nested_storage] and the storage has been loaded. *)
Example saved_tree_among_others :
  (λ st1 : StorageService (string * string),
     let '(_, h', groups) := StateStorage_loadRootNodes st1 [] in (h', groups))
    <$> StateStorage_saveGroup 3 saved_heap 0 nested_storage
  = Some ([ mkGroup "3" "Api" false (Some 1) [file_c] [];
            mkGroup "7" "Docs" false None [file_a; file_b] [0; 4];
            mkGroup "b" "B" false None [] [3];
            mkGroup "c" "C" false (Some 2) [file_c] [];
            mkGroup "notes" "Notes" false (Some 1) [] [] ], [1; 2]).
Proof. vm_compute. reflexivity. Qed.
